(** * 6-Ball Puzzle: hexagonal falling-block engine

    A shallow embedding of the game logic of [src/6ball.tsx] and of the
    second copy of the program kept in the repository
    ([src/unnamed/part_000]).  The two files share the hex geometry, the
    gravity step, the piece controller and the game loop verbatim (up to
    comments); they differ in [checkMatches] and its shape helpers, which
    are embedded separately in [Module GroupFirst] (6ball.tsx) and
    [Module ClassifyFirst] (part_000).

    Modelling conventions
    - JavaScript numbers used as grid indices and colours are integers: [Z].
    - The fractional anchor of the falling piece is a rational ([Q]); the
      values the game feeds in with the on-screen buttons (multiples of
      one half) are exact in both models.
    - [Set<string>] keyed by [`${r},${c}`] is a [gset Position]: the key is
      an injective rendering of the integer pair.
    - [Math.random()] is an oracle [nat -> Q]: the value of the n-th draw
      made since the oracle was set up; the number of draws made so far is
      threaded through the functions that draw. *)

From Stdlib Require Import ZArith QArith Qround Lia Lqa Permutation String.
From stdpp Require Import base list gmap sets relations.

Local Open Scope Z_scope.
#[local] Set Warnings "-clear-no-such-hyp".

(** ** Constants and types *)

Definition VISIBLE_ROWS : Z := 15.
Definition HIDDEN_ROWS : Z := 5.
Definition TOTAL_ROWS : Z := VISIBLE_ROWS + HIDDEN_ROWS.
Definition COLS : Z := 9.
Definition EMPTY : Z := -1.

(** [type Grid = number[][]] *)
Abbreviation Grid := (list (list Z)).

(** [interface Position { r; c }] (fields [pr], [pc]). *)
Record Position : Type := Pos { pr : Z; pc : Z }.

#[global] Instance Position_eq_dec : EqDecision Position.
Proof. solve_decision. Defined.

#[global] Program Instance Position_countable : Countable Position :=
  inj_countable' (λ p, (pr p, pc p)) (λ q, Pos q.1 q.2) _.
Next Obligation. by intros []. Qed.

(** [g[r][c]]: [None] stands for JavaScript's out-of-range read. *)
Definition getCell (g : Grid) (r c : Z) : option Z :=
  if (r <? 0) || (c <? 0) then None
  else g !! Z.to_nat r ≫= λ row, row !! Z.to_nat c.

(** [g[r][c] = v] on an index inside the board. *)
Definition setCell (g : Grid) (r c v : Z) : Grid :=
  alter (λ row, <[Z.to_nat c := v]> row) (Z.to_nat r) g.

(** The shape every grid of the game has: [initGame] builds
    [TOTAL_ROWS] rows of [COLS] cells and nothing ever resizes them. *)
Definition wf_grid (g : Grid) : Prop :=
  length g = Z.to_nat TOTAL_ROWS ∧ Forall (λ row, length row = Z.to_nat COLS) g.

Definition emptyGrid : Grid :=
  replicate (Z.to_nat TOTAL_ROWS) (replicate (Z.to_nat COLS) EMPTY).

(** ** Hex geometry *)

Definition isValidPos (r c : Z) : bool :=
  if (r <? 0) || (r >=? TOTAL_ROWS) then false
  else if (c <? 0) || (c >=? COLS) then false
  else true.

(** [r % 2 !== 0] *)
Definition isOddRow (r : Z) : bool := negb (Z.rem r 2 =? 0).

Definition neighborOffsets (r : Z) : list (Z * Z) :=
  if isOddRow r
  then [(-1, 0); (-1, 1); (0, -1); (0, 1); (1, 0); (1, 1)]
  else [(-1, -1); (-1, 0); (0, -1); (0, 1); (1, -1); (1, 0)].

Definition getNeighbors (r c : Z) : list Position :=
  foldl (λ neighbors o,
           let nr := r + o.1 in
           let nc := c + o.2 in
           if isValidPos nr nc then neighbors ++ [Pos nr nc] else neighbors)
        [] (neighborOffsets r).

Definition getBottomNeighbors (r c : Z) : list Position :=
  if isOddRow r
  then [Pos (r + 1) c; Pos (r + 1) (c + 1)]
  else [Pos (r + 1) (c - 1); Pos (r + 1) c].

Definition getTopNeighbors (r c : Z) : list Position :=
  if isOddRow r
  then [Pos (r - 1) c; Pos (r - 1) (c + 1)]
  else [Pos (r - 1) (c - 1); Pos (r - 1) c].

Definition validPos (p : Position) : Prop :=
  0 ≤ pr p < TOTAL_ROWS ∧ 0 ≤ pc p < COLS.

#[global] Instance validPos_dec p : Decision (validPos p).
Proof. unfold validPos. apply _. Defined.


(** Row-major enumeration of the cells visited by
    [for (r of rows) for (c = 0; c < COLS; c++)]. *)
Definition cellsOf (rows : list Z) : list Position :=
  r ← rows; c ← seqZ 0 COLS; [Pos r c].

(** [for (let r = 0; r < TOTAL_ROWS; r++) for (let c = 0; c < COLS; c++)] *)
Definition boardCells : list Position := cellsOf (seqZ 0 TOTAL_ROWS).

(** ** Physics engine ([runPhysicsStep]) *)

(** Loop state of [runPhysicsStep]: the working copy [newGrid], the flag
    [moved], and the number of [Math.random()] draws made so far. *)
Record PhysState : Type :=
  MkPhys { newGrid : Grid; moved : bool; draws : nat }.

(** [isValidPos(d.r, d.c) && newGrid[d.r][d.c] === EMPTY] *)
Definition canGo (g : Grid) (d : Position) : bool :=
  isValidPos (pr d) (pc d) && bool_decide (getCell g (pr d) (pc d) = Some EMPTY).

(** [newGrid[d.r][d.c] = color; newGrid[r][c] = EMPTY] *)
Definition moveBall (g : Grid) (r c : Z) (d : Position) (color : Z) : Grid :=
  setCell (setCell g (pr d) (pc d) color) r c EMPTY.

(** Body of the two nested loops of [runPhysicsStep] at cell [(r, c)].
    The [None] and the last [match] branches are never taken on a
    well-formed grid ([getBottomNeighbors] always returns two cells). *)
Definition physicsCell (rand : nat → Q) (s : PhysState) (p : Position) : PhysState :=
  let r := pr p in
  let c := pc p in
  match getCell (newGrid s) r c with
  | None => s
  | Some color =>
      if color =? EMPTY then s
      else
        match getBottomNeighbors r c with
        | [dl; dr] =>
            let canGoDL := canGo (newGrid s) dl in
            let canGoDR := canGo (newGrid s) dr in
            if canGoDL && canGoDR then
              if Qlt_le_dec (rand (draws s)) (1 # 2)
              then MkPhys (moveBall (newGrid s) r c dl color) true (S (draws s))
              else MkPhys (moveBall (newGrid s) r c dr color) true (S (draws s))
            else if canGoDL then
              MkPhys (moveBall (newGrid s) r c dl color) true (draws s)
            else if canGoDR then
              MkPhys (moveBall (newGrid s) r c dr color) true (draws s)
            else s
        | _ => s
        end
  end.

(** [for (let r = TOTAL_ROWS - 2; r >= 0; r--)] *)
Definition physRows : list Z := reverse (seqZ 0 (TOTAL_ROWS - 1)).

Definition physCells : list Position := cellsOf physRows.

(** The state of the scan after the cells [cells] have been handled. *)
Definition physRun (rand : nat → Q) (n : nat) (currentGrid : Grid)
    (cells : list Position) : PhysState :=
  foldl (physicsCell rand) (MkPhys currentGrid false n) cells.

(** [runPhysicsStep(currentGrid)]; [n] is the number of random draws made
    before the call, and the final state carries the number made after. *)
Definition runPhysicsStep (rand : nat → Q) (n : nat) (currentGrid : Grid) : PhysState :=
  physRun rand n currentGrid physCells.

(** ** The falling piece *)

Record BallRelative : Type := MkBall { dx : Q; dy : Q; color : Z }.

Record FloatingPiece : Type :=
  MkPiece { x : Q; y : Q; balls : list BallRelative; rotationState : Z }.

Inductive Dir : Type := CW | CCW.

(** A three-element colour array, as produced by [generateNextColors]. *)
Definition Colors : Type := (Z * Z * Z)%type.

(** [generateNextColors]: three draws, each [Math.floor(Math.random() * 6)]. *)
Definition generateNextColors (rand : nat → Q) (n : nat) : Colors * nat :=
  ((Qfloor (rand n * 6), Qfloor (rand (S n) * 6), Qfloor (rand (S (S n)) * 6)),
   S (S (S n))).

(** The piece built by [spawnPiece(colors)]. *)
Definition spawnPiece (colors : Colors) : FloatingPiece :=
  let '(c0, c1, c2) := colors in
  MkPiece (7 # 2) 2
    [ MkBall 0 0 c0; MkBall (- (1 # 2)) (- 1) c1; MkBall (1 # 2) (- 1) c2 ]
    0.

(** One iteration of the loop of [checkCollision]: does ball [b] collide
    when the anchor is at [(px, py)]?  [Math.round v] is [floor (v + 1/2)]. *)
Definition ballCollides (g : Grid) (px py : Q) (b : BallRelative) : bool :=
  let r := Qfloor (py + dy b + (1 # 2)) in
  let visualX := (px + dx b)%Q in
  let isOdd := isOddRow r in
  let c := Qfloor (visualX - (if isOdd then 1 # 2 else 0)) in
  if r >=? TOTAL_ROWS then true
  else if (c <? 0) || (c >=? COLS) then true
  else if (r >=? 0) && negb (bool_decide (getCell g r c = Some EMPTY)) then true
  else false.

Definition checkCollision (g : Grid) (px py : Q) (balls : list BallRelative) : bool :=
  existsb (ballCollides g px py) balls.

(** Outcome of the state updater inside [movePiece]: the new value of
    [activePiece] and, when the piece is given up, the piece handed to
    [lockPiece] by the [setTimeout]. *)
Record MoveResult : Type :=
  MkMove { nextPiece : option FloatingPiece; toLock : option FloatingPiece }.

Definition movePiece (g : Grid) (ddx ddy : Q) (prev : option FloatingPiece) : MoveResult :=
  match prev with
  | None => MkMove None None
  | Some prev =>
      let nextX :=
        if negb (Qeq_bool ddx 0) then
          let testX := (x prev + ddx)%Q in
          if negb (checkCollision g testX (y prev) (balls prev)) then testX else x prev
        else x prev in
      if negb (Qeq_bool ddy 0) then
        let testY := (y prev + ddy)%Q in
        if negb (checkCollision g nextX testY (balls prev)) then
          MkMove (Some (MkPiece nextX testY (balls prev) (rotationState prev))) None
        else if Qlt_le_dec 0 ddy then
          let pushRightX := (nextX + (1 # 2))%Q in
          let pushLeftX := (nextX - (1 # 2))%Q in
          if negb (checkCollision g pushRightX testY (balls prev)) then
            MkMove (Some (MkPiece pushRightX testY (balls prev) (rotationState prev))) None
          else if negb (checkCollision g pushLeftX testY (balls prev)) then
            MkMove (Some (MkPiece pushLeftX testY (balls prev) (rotationState prev))) None
          else
            MkMove None (Some (MkPiece nextX (y prev) (balls prev) (rotationState prev)))
        else
          MkMove (Some (MkPiece nextX (y prev) (balls prev) (rotationState prev))) None
      else
        MkMove (Some (MkPiece nextX (y prev) (balls prev) (rotationState prev))) None
  end.

(** [lockPiece]: the grid after the balls of [piece] have been written. *)
Definition lockPiece (g : Grid) (piece : FloatingPiece) : Grid :=
  foldl (λ newGrid b,
           let r := Qfloor (y piece + dy b + (1 # 2)) in
           let visualX := (x piece + dx b)%Q in
           let isOdd := isOddRow r in
           let c := Qfloor (visualX - (if isOdd then 1 # 2 else 0)) in
           if (r >=? 0) && (r <? TOTAL_ROWS) && (c >=? 0) && (c <? COLS)
           then setCell newGrid r c (color b) else newGrid)
        g (balls piece).

Definition shape0 : list (Q * Q) := [ (0, 0); (- (1 # 2), - 1); (1 # 2, - 1) ]%Q.
Definition shape1 : list (Q * Q) := [ (0, - 1); (- (1 # 2), 0); (1 # 2, 0) ]%Q.

(** The state updater inside [rotatePiece].  Every piece has three balls
    (it comes from [spawnPiece] or from a previous rotation); the last
    branch of the [match] is not reachable. *)
Definition rotatePiece (g : Grid) (dir : Dir) (prev : option FloatingPiece)
    : option FloatingPiece :=
  match prev with
  | None => None
  | Some prev =>
      let nextState := if rotationState prev =? 0 then 1 else 0 in
      match balls prev with
      | [b0; b1; b2] =>
          let targetShape := if nextState =? 0 then shape0 else shape1 in
          let '(c0, c1, c2) :=
            if rotationState prev =? 0 then
              match dir with
              | CW => (color b1, color b0, color b2)
              | CCW => (color b2, color b1, color b0)
              end
            else
              match dir with
              | CW => (color b2, color b1, color b0)
              | CCW => (color b1, color b0, color b2)
              end in
          let newBalls :=
            zip_with (λ o col, MkBall o.1 o.2 col) targetShape [c0; c1; c2] in
          if checkCollision g (x prev) (y prev) newBalls then
            if negb (checkCollision g (x prev - (1 # 2)) (y prev) newBalls) then
              Some (MkPiece (x prev - (1 # 2)) (y prev) newBalls nextState)
            else if negb (checkCollision g (x prev + (1 # 2)) (y prev) newBalls) then
              Some (MkPiece (x prev + (1 # 2)) (y prev) newBalls nextState)
            else Some prev
          else Some (MkPiece (x prev) (y prev) newBalls nextState)
      | _ => Some prev
      end
  end.

(** ** Game loop *)

Inductive GameState : Type := START | PLAYING | SETTLING | GAME_OVER.

(** [checkGameOver]: some cell of the rows [0 .. HIDDEN_ROWS - 1] is not
    [EMPTY]. *)
Definition checkGameOver (g : Grid) : bool :=
  existsb (λ r, match g !! Z.to_nat r with
                | Some row => existsb (λ c, negb (c =? EMPTY)) row
                | None => false
                end)
          (seqZ 0 HIDDEN_ROWS).

(** What [checkMatches] hands back: the grid, the points, and the label
    passed to [setComboMessage] (if any). *)
Record MatchResult : Type :=
  MkMatch { mGrid : Grid; points : Z; combo : option string }.

(** The mutable state the game loop works on ([gridRef.current] and the
    React state cells), with the random-draw counter. *)
Record Game : Type :=
  MkGame {
    grid : Grid;
    activePiece : option FloatingPiece;
    nextColors : Colors;
    score : Z;
    gameState : GameState;
    message : string;
    comboMessage : string;
    settleTimer : Q;
    randomDraws : nat
  }.

Definition SETTLE_INTERVAL : Q := 50.

(** The [gameState === 'SETTLING'] branch of [update], for a frame that
    took [deltaTime] milliseconds.  [checkMatches] is the match detector
    in use (the two source files differ only there). *)
Definition updateSettling (checkMatches : Grid → MatchResult) (rand : nat → Q)
    (deltaTime : Q) (s : Game) : Game :=
  let timer := (settleTimer s + deltaTime)%Q in
  if Qlt_le_dec SETTLE_INTERVAL timer then
    let ph := runPhysicsStep rand (randomDraws s) (grid s) in
    if negb (moved ph) then
      let matchResult := checkMatches (newGrid ph) in
      if 0 <? points matchResult then
        MkGame (mGrid matchResult) (activePiece s) (nextColors s)
               (score s + points matchResult) (gameState s) (message s)
               (default (comboMessage s) (combo matchResult)) 0 (draws ph)
      else if checkGameOver (newGrid ph) then
        MkGame (newGrid ph) (activePiece s) (nextColors s) (score s)
               GAME_OVER "Game Over!" (default (comboMessage s) (combo matchResult))
               0 (draws ph)
      else
        let '(fresh, n') := generateNextColors rand (draws ph) in
        MkGame (newGrid ph) (Some (spawnPiece (nextColors s))) fresh (score s)
               PLAYING (message s) (default (comboMessage s) (combo matchResult))
               0 n'
    else
      MkGame (newGrid ph) (activePiece s) (nextColors s) (score s) (gameState s)
             (message s) (comboMessage s) 0 (draws ph)
  else
    MkGame (grid s) (activePiece s) (nextColors s) (score s) (gameState s)
           (message s) (comboMessage s) timer (randomDraws s).

(** The [while (queue.length > 0)] loops of the two match detectors run
    once per cell taken from the queue, and a cell enters the queue at most
    once; [bfsFuel] bounds the number of iterations
    (see [GroupFirst_bfs_fuel_suffices]). *)
Definition bfsFuel : nat := S (Z.to_nat (TOTAL_ROWS * COLS)).

(** [group.forEach(p => { nextGrid[p.r][p.c] = EMPTY; })] *)
Definition clearCells (g : Grid) (cells : list Position) : Grid :=
  foldl (λ g p, setCell g (pr p) (pc p) EMPTY) g cells.

(** [for (let k = 1; k < 6; k++)] *)
Definition runSteps : list Z := seqZ 1 5.

(** ** Match detection of [src/6ball.tsx]: group first, then classify *)

Module GroupFirst.

(** [hasHexagonInGroup]; the [grid] argument is not used by the source. *)
Definition hasHexagonInGroup (groupSet : gset Position) (grid : Grid) : bool :=
  existsb (λ p,
             let neighbors := getNeighbors (pr p) (pc p) in
             if negb (length neighbors =? 6)%nat then false
             else forallb (λ n, bool_decide (n ∈ groupSet)) neighbors)
          boardCells.

Inductive PyramidDir : Type := UP | DOWN.

(** Order-preserving removal of duplicates ([row3Unique] / [row3Points]). *)
Definition dedupPush (candidates : list Position) : list Position :=
  (foldl (λ '(seen, points) p,
            if bool_decide (p ∈ seen) then (seen, points)
            else ({[p]} ∪ seen, points ++ [p]))
         ((∅ : gset Position), []) candidates).2.

Definition checkPyramidStructure (r c : Z) (groupSet : gset Position)
    (dir : PyramidDir) : bool :=
  let getNext := match dir with DOWN => getBottomNeighbors | UP => getTopNeighbors end in
  let row2 := getNext r c in
  if negb (length row2 =? 2)%nat then false
  else if negb (forallb (λ p, bool_decide (p ∈ groupSet)) row2) then false
  else
    let row3Candidates := flat_map (λ p, getNext (pr p) (pc p)) row2 in
    let row3Points := dedupPush row3Candidates in
    if negb (length row3Points =? 3)%nat then false
    else if negb (forallb (λ p, bool_decide (p ∈ groupSet)) row3Points) then false
    else true.

(** [for (const key of Array.from(groupSet))]: the answer does not depend
    on the order in which the members are visited. *)
Definition hasPyramidInGroup (groupSet : gset Position) : bool :=
  existsb (λ p,
             checkPyramidStructure (pr p) (pc p) groupSet DOWN
             || checkPyramidStructure (pr p) (pc p) groupSet UP)
          (elements groupSet).

(** The counting loop of the horizontal check:
    [if (groupSet.has(`${startR},${startC + k}`)) count++; else break;] *)
Definition countRight (groupSet : gset Position) (startR startC : Z) : Z :=
  (foldl (λ '(count, stop) k,
            if (stop : bool) then (count, stop)
            else if bool_decide (Pos startR (startC + k) ∈ groupSet)
                 then (count + 1, false) else (count, true))
         (1, false) runSteps).1.

(** The counting loop of the two diagonal checks; [pick] is [1] for the
    lower-right neighbour and [0] for the lower-left one. *)
Definition countDiagonal (groupSet : gset Position) (pick : nat) (startR startC : Z) : Z :=
  (foldl (λ '(count, curr, stop) (k : Z),
            if (stop : bool) then (count, curr, stop)
            else
              match getBottomNeighbors (pr curr) (pc curr) !! pick with
              | Some next =>
                  if bool_decide (next ∈ groupSet)
                  then (count + 1, next, false) else (count, curr, true)
              | None => (count, curr, true)
              end)
         (1, Pos startR startC, false) runSteps).1.1.

Definition hasStraightInGroup (groupSet : gset Position) : bool :=
  existsb (λ p,
             let startR := pr p in
             let startC := pc p in
             if countRight groupSet startR startC >=? 6 then true
             else if countDiagonal groupSet 1 startR startC >=? 6 then true
             else if countDiagonal groupSet 0 startR startC >=? 6 then true
             else false)
          (elements groupSet).

(** State of the breadth-first search of [getConnectedGroup];
    [seenGlobal] is the caller's [visitedGlobal], updated in place. *)
Record BfsState : Type :=
  MkBfs { queue : list Position; group : list Position;
          visitedLocal : gset Position; seenGlobal : gset Position }.

(** Body of [for (const n of neighbors)]. *)
Definition visitNeighbor (grid : Grid) (color : option Z) (s : BfsState)
    (n : Position) : BfsState :=
  if bool_decide (n ∉ seenGlobal s) && bool_decide (n ∉ visitedLocal s)
     && bool_decide (getCell grid (pr n) (pc n) = color)
  then MkBfs (queue s ++ [n]) (group s ++ [n])
             ({[n]} ∪ visitedLocal s) ({[n]} ∪ seenGlobal s)
  else s.

(** [while (queue.length > 0) { const curr = queue.shift()!; ... }] *)
Fixpoint bfsLoop (fuel : nat) (grid : Grid) (color : option Z) (s : BfsState) : BfsState :=
  match fuel with
  | O => s
  | S fuel' =>
      match queue s with
      | [] => s
      | curr :: rest =>
          bfsLoop fuel' grid color
            (foldl (visitNeighbor grid color)
                   (MkBfs rest (group s) (visitedLocal s) (seenGlobal s))
                   (getNeighbors (pr curr) (pc curr)))
      end
  end.

Definition bfsStart (startR startC : Z) (visitedGlobal : gset Position) : BfsState :=
  let start := Pos startR startC in
  MkBfs [start] [start] {[start]} ({[start]} ∪ visitedGlobal).

(** [getConnectedGroup]: the group, and [visitedGlobal] after the call. *)
Definition getConnectedGroup (startR startC : Z) (grid : Grid)
    (visitedGlobal : gset Position) : list Position * gset Position :=
  let color := getCell grid startR startC in
  let s := bfsLoop bfsFuel grid color (bfsStart startR startC visitedGlobal) in
  (group s, seenGlobal s).

(** Loop state of [checkMatches]. *)
Record MatchState : Type :=
  MkMS { nextGrid : Grid; totalPoints : Z; visitedGlobal : gset Position;
         maxComboName : string; maxPriority : Z }.

(** The [if / else if] chain that picks the shape of a group:
    bonus points, label, priority. *)
Definition classify (groupSet : gset Position) (nextGrid : Grid) : Z * string * Z :=
  if hasHexagonInGroup groupSet nextGrid then (1000, "ヘキサゴン！"%string, 3)
  else if hasPyramidInGroup groupSet then (800, "ピラミッド！"%string, 2)
  else if hasStraightInGroup groupSet then (500, "ストレート！"%string, 1)
  else (0, "マッチ！"%string, 0).

(** Body of the scan of [checkMatches] at cell [p]. *)
Definition matchCell (s : MatchState) (p : Position) : MatchState :=
  if bool_decide (getCell (nextGrid s) (pr p) (pc p) = Some EMPTY)
     || bool_decide (p ∈ visitedGlobal s)
  then s
  else
    let '(group, visited') :=
      getConnectedGroup (pr p) (pc p) (nextGrid s) (visitedGlobal s) in
    if (6 <=? length group)%nat then
      let groupSet : gset Position := list_to_set group in
      let '(pts, comboName, priority) := classify groupSet (nextGrid s) in
      let ballPoints := Z.of_nat (length group) * 100
                        + (Z.of_nat (length group) - 6) * 50 in
      MkMS (clearCells (nextGrid s) group)
           (totalPoints s + (ballPoints + pts))
           visited'
           (if maxPriority s <? priority then comboName else maxComboName s)
           (if maxPriority s <? priority then priority else maxPriority s)
    else
      MkMS (nextGrid s) (totalPoints s) visited' (maxComboName s) (maxPriority s).

Definition matchInit (currentGrid : Grid) : MatchState :=
  MkMS currentGrid 0 ∅ "" (-1).

Definition matchRun (currentGrid : Grid) (cells : list Position) : MatchState :=
  foldl matchCell (matchInit currentGrid) cells.

Definition checkMatches (currentGrid : Grid) : MatchResult :=
  let s := matchRun currentGrid boardCells in
  MkMatch (nextGrid s) (totalPoints s)
          (if String.eqb (maxComboName s) "" then None else Some (maxComboName s)).

End GroupFirst.

(** ** Match detection of [src/unnamed/part_000]: classify first, then
    fall back to plain groups *)

Module ClassifyFirst.

Definition getDirectionVector (r : Z) (dirIndex : nat) : Z * Z :=
  let offsets :=
    if isOddRow r
    then [(-1, 0); (-1, 1); (0, 1); (1, 1); (1, 0); (0, -1)]
    else [(-1, -1); (-1, 0); (0, 1); (1, 0); (1, -1); (0, -1)] in
  default (0, 0) (offsets !! dirIndex).

(** [isValidPos(n.r, n.c) && currentGrid[n.r][n.c] === color] *)
Definition cellHas (g : Grid) (color : Z) (n : Position) : bool :=
  isValidPos (pr n) (pc n) && bool_decide (getCell g (pr n) (pc n) = Some color).

Definition checkHexagon (currentGrid : Grid) (centerR centerC color : Z)
    : option (list Position) :=
  let neighbors := getNeighbors centerR centerC in
  if negb (length neighbors =? 6)%nat then None
  else if negb (forallb (cellHas currentGrid color) neighbors) then None
  else
    let hexGroup := neighbors in
    if (length hexGroup =? 6)%nat then
      if negb (bool_decide (getCell currentGrid centerR centerC = Some EMPTY))
      then Some (hexGroup ++ [Pos centerR centerC])
      else Some hexGroup
    else None.

Inductive PyramidDir : Type := UP | DOWN.

(** The de-duplication loop of [checkPyramidDirectional], which also drops
    the candidates that fall off the board. *)
Definition row3UniqueOf (candidates : list Position) : list Position :=
  (foldl (λ '(keys, uniq) p,
            if negb (isValidPos (pr p) (pc p)) then (keys, uniq)
            else if bool_decide (p ∈ keys) then (keys, uniq)
            else ({[p]} ∪ keys, uniq ++ [p]))
         ((∅ : gset Position), []) candidates).2.

Definition checkPyramidDirectional (currentGrid : Grid) (r c color : Z)
    (direction : PyramidDir) : option (list Position) :=
  if negb (bool_decide (getCell currentGrid r c = Some color)) then None
  else
    let getNextLevelNeighbors :=
      match direction with DOWN => getBottomNeighbors | UP => getTopNeighbors end in
    match getNextLevelNeighbors r c with
    | [pos2A; pos2B] =>
        if negb (cellHas currentGrid color pos2A) then None
        else if negb (cellHas currentGrid color pos2B) then None
        else
          let row3Candidates :=
            getNextLevelNeighbors (pr pos2A) (pc pos2A)
            ++ getNextLevelNeighbors (pr pos2B) (pc pos2B) in
          let row3Unique := row3UniqueOf row3Candidates in
          if negb (length row3Unique =? 3)%nat then None
          else if negb (forallb (λ p, bool_decide
                           (getCell currentGrid (pr p) (pc p) = Some color))
                        row3Unique) then None
          else
            let pyramidGroup := [Pos r c; pos2A; pos2B] ++ row3Unique in
            if (length pyramidGroup =? 6)%nat then Some pyramidGroup else None
    | _ => None
    end.

Definition checkPyramid (currentGrid : Grid) (r c color : Z) : option (list Position) :=
  match checkPyramidDirectional currentGrid r c color DOWN with
  | Some m => Some m
  | None => checkPyramidDirectional currentGrid r c color UP
  end.

(** One of the two counting loops of [checkStraight]: the cells reached,
    in order, along direction [dirIndex] before the first mismatch. *)
Definition straightArm (currentGrid : Grid) (r c color : Z) (dirIndex : nat)
    : list Position :=
  (foldl (λ '(arm, stop) k,
            if (stop : bool) then (arm, stop)
            else
              let dir := getDirectionVector r dirIndex in
              let nr := r + dir.1 * k in
              let nc := c + dir.2 * k in
              if cellHas currentGrid color (Pos nr nc)
              then (arm ++ [Pos nr nc], false) else (arm, true))
         ([], false) runSteps).1.

Definition checkStraight (currentGrid : Grid) (r c color : Z) : option (list Position) :=
  if bool_decide (getCell currentGrid r c = Some EMPTY)
     || negb (bool_decide (getCell currentGrid r c = Some color))
  then None
  else
    foldl (λ found i,
             match found with
             | Some _ => found
             | None =>
                 let arm1 := straightArm currentGrid r c color i in
                 let arm2 := straightArm currentGrid r c color (i + 3) in
                 let group := [Pos r c] ++ arm1 ++ arm2 in
                 if (6 <=? length arm1 + length arm2 + 1)%nat then Some group else None
             end)
          None [0; 1; 2]%nat.

(** State of the first scan of [checkMatches] (the shape scan). *)
Record ShapeState : Type :=
  MkShape { matchedPositions : gset Position; totalPoints : Z;
            currentComboMessage : string }.

Definition BASE_MATCH_POINTS : Z := 100.
Definition STRAIGHT_BONUS : Z := 500.
Definition PYRAMID_BONUS : Z := 800.
Definition HEXAGON_BONUS : Z := 1000.

(** The hexagon test made at the scanned cell [(r, c)].  The neighbours
    are cells of the board, so their colours are defined. *)
Definition hexagonAt (nextGrid : Grid) (r c : Z) : option (list Position) :=
  let neighbors := getNeighbors r c in
  if (length neighbors =? 6)%nat then
    let neighborColors := omap (λ n, getCell nextGrid (pr n) (pc n)) neighbors in
    let nonEmptyNeighbors := List.filter (λ nc, negb (nc =? EMPTY)) neighborColors in
    match nonEmptyNeighbors with
    | hexagonColor :: _ =>
        if (length nonEmptyNeighbors =? 6)%nat
           && forallb (λ nc, nc =? hexagonColor) nonEmptyNeighbors
        then checkHexagon nextGrid r c hexagonColor
        else None
    | [] => None
    end
  else None.

(** Body of the shape scan at cell [p]: hexagon, then straight, then
    pyramid, as the source orders them. *)
Definition shapeCell (nextGrid : Grid) (s : ShapeState) (p : Position) : ShapeState :=
  let r := pr p in
  let c := pc p in
  match getCell nextGrid r c with
  | None => s
  | Some color =>
      if color =? EMPTY then s
      else if bool_decide (p ∈ matchedPositions s) then s
      else
        let m1 :=
          match hexagonAt nextGrid r c with
          | Some hexagonMatch => Some (hexagonMatch, HEXAGON_BONUS, "ヘキサゴン！"%string)
          | None => None
          end in
        let m2 :=
          match m1 with
          | Some _ => m1
          | None =>
              match checkStraight nextGrid r c color with
              | Some straightMatch =>
                  if (6 <=? length straightMatch)%nat
                  then Some (straightMatch, STRAIGHT_BONUS, "ストレート！"%string)
                  else None
              | None => None
              end
          end in
        let m3 :=
          match m2 with
          | Some _ => m2
          | None =>
              match checkPyramid nextGrid r c color with
              | Some pyramidMatch => Some (pyramidMatch, PYRAMID_BONUS, "ピラミッド！"%string)
              | None => None
              end
          end in
        match m3 with
        | Some (matchGroup, bonusPoints, comboName) =>
            if forallb (λ q, negb (bool_decide (q ∈ matchedPositions s))) matchGroup
            then MkShape (list_to_set matchGroup ∪ matchedPositions s)
                         (totalPoints s
                          + (Z.of_nat (length matchGroup) * BASE_MATCH_POINTS + bonusPoints))
                         comboName
            else s
        | None => s
        end
  end.

(** State of the inline breadth-first search of the second scan. *)
Record BfsState : Type :=
  MkBfs { queue : list Position; group : list Position; visited : gset Position }.

Definition visitNeighbor (nextGrid : Grid) (color : Z) (s : BfsState)
    (n : Position) : BfsState :=
  if bool_decide (getCell nextGrid (pr n) (pc n) = Some color)
     && bool_decide (n ∉ visited s)
  then MkBfs (queue s ++ [n]) (group s ++ [n]) ({[n]} ∪ visited s)
  else s.

Fixpoint bfsLoop (fuel : nat) (nextGrid : Grid) (color : Z) (s : BfsState) : BfsState :=
  match fuel with
  | O => s
  | S fuel' =>
      match queue s with
      | [] => s
      | curr :: rest =>
          bfsLoop fuel' nextGrid color
            (foldl (visitNeighbor nextGrid color)
                   (MkBfs rest (group s) (visited s))
                   (getNeighbors (pr curr) (pc curr)))
      end
  end.

(** State of the second scan (plain groups of six or more). *)
Record RegularState : Type :=
  MkRegular { rVisited : gset Position; regularMatches : list Position;
              rMatched : gset Position }.

Definition regularCell (nextGrid : Grid) (s : RegularState) (p : Position) : RegularState :=
  match getCell nextGrid (pr p) (pc p) with
  | None => s
  | Some color =>
      if (color =? EMPTY) || bool_decide (p ∈ rVisited s) then s
      else
        let b := bfsLoop bfsFuel nextGrid color (MkBfs [p] [p] ({[p]} ∪ rVisited s)) in
        if (6 <=? length (group b))%nat
        then MkRegular (visited b) (regularMatches s ++ group b)
                       (list_to_set (group b) ∪ rMatched s)
        else MkRegular (visited b) (regularMatches s) (rMatched s)
  end.

Definition checkMatches (currentGrid : Grid) : MatchResult :=
  let nextGrid := currentGrid in
  let sh := foldl (shapeCell nextGrid) (MkShape ∅ 0 "") boardCells in
  let rg := foldl (regularCell nextGrid)
                  (MkRegular (matchedPositions sh) [] (matchedPositions sh))
                  boardCells in
  let n := Z.of_nat (length (regularMatches rg)) in
  let totalPoints' :=
    if (0 <? n) then totalPoints sh + (n * BASE_MATCH_POINTS + (n - 6) * 50)
    else totalPoints sh in
  let currentComboMessage' :=
    if (0 <? n) && String.eqb (currentComboMessage sh) ""
    then "マッチ！"%string else currentComboMessage sh in
  if (0 <? Z.of_nat (size (rMatched rg))) then
    MkMatch (clearCells nextGrid (elements (rMatched rg))) totalPoints'
            (if String.eqb currentComboMessage' "" then None
             else Some currentComboMessage')
  else MkMatch currentGrid 0 None.

End ClassifyFirst.

(** ** Notions used to state the properties of the physics step *)

(** [d] is a cell of the board and it is empty. *)
Definition freeCell (g : Grid) (d : Position) : Prop :=
  validPos d ∧ getCell g (pr d) (pc d) = Some EMPTY.

(** Neither down-neighbour of [p] is free. *)
Definition stuckAt (g : Grid) (p : Position) : Prop :=
  ∀ d, d ∈ getBottomNeighbors (pr p) (pc p) → ¬ freeCell g d.

(** Every ball above the bottom row rests on something. *)
Definition settled (g : Grid) : Prop :=
  ∀ p v, validPos p → pr p < TOTAL_ROWS - 1 →
         getCell g (pr p) (pc p) = Some v → v ≠ EMPTY → stuckAt g p.

(** Executable form of [settled]. *)
Definition isSettled (g : Grid) : bool :=
  forallb (λ p, match getCell g (pr p) (pc p) with
                | Some v => (v =? EMPTY)
                            || forallb (λ d, negb (canGo g d))
                                       (getBottomNeighbors (pr p) (pc p))
                | None => true
                end)
          physCells.

(** What the loop body may do at one scanned cell [p] in state [s]:
    nothing when the cell is empty or the ball is stuck; otherwise the
    ball goes to a free down-neighbour [d], the source is emptied, and
    [moved] is raised.  When both down-neighbours are free ([tie]) one
    random number is drawn and selects the left one below one half. *)
Inductive cellOutcome (rand : nat → Q) (s : PhysState) (p : Position)
    : PhysState → Prop :=
| outcome_empty :
    getCell (newGrid s) (pr p) (pc p) = Some EMPTY →
    cellOutcome rand s p s
| outcome_stuck v :
    getCell (newGrid s) (pr p) (pc p) = Some v → v ≠ EMPTY →
    stuckAt (newGrid s) p →
    cellOutcome rand s p s
| outcome_fall v d (tie : bool) :
    getCell (newGrid s) (pr p) (pc p) = Some v → v ≠ EMPTY →
    d ∈ getBottomNeighbors (pr p) (pc p) →
    freeCell (newGrid s) d →
    (tie = true ↔ ∀ d', d' ∈ getBottomNeighbors (pr p) (pc p) → freeCell (newGrid s) d') →
    (tie = true →
     getBottomNeighbors (pr p) (pc p)
       !! (if Qlt_le_dec (rand (draws s)) (1 # 2) then 0 else 1)%nat = Some d) →
    (tie = false →
     ∀ d', d' ∈ getBottomNeighbors (pr p) (pc p) → freeCell (newGrid s) d' → d' = d) →
    cellOutcome rand s p
      (MkPhys (setCell (setCell (newGrid s) (pr d) (pc d) v) (pr p) (pc p) EMPTY)
              true
              (if tie then S (draws s) else draws s)).

(** ** Example boards *)

(** [paint v cells g]: the cells [cells] of [g] set to colour [v]. *)
Definition paint (v : Z) (cells : list (Z * Z)) (g : Grid) : Grid :=
  foldl (λ g p, setCell g p.1 p.2 v) g cells.

(** A ring of colour 2 around the cell [(18, 4)], whose ball has colour 3,
    resting on the floor; two balls of other colours hold up the sides.
<<
    row 17:        2 2
    row 18:       2 3 2
    row 19:      4 2 2 5
>> *)
Definition centredRing : Grid :=
  paint 5 [(19, 5)] (paint 4 [(19, 2)] (paint 3 [(18, 4)]
    (paint 2 [(17, 3); (17, 4); (18, 3); (18, 5); (19, 3); (19, 4)] emptyGrid))).


(** One group of colour 1 made of a horizontal run of six in row 17 and of
    the pyramid hanging from its leftmost ball; the other cells of rows 18
    and 19 hold balls of alternating colours. *)
Definition straightOverPyramid : Grid :=
  paint 5 [(19, 4); (19, 6); (19, 8)] (paint 4 [(19, 3); (19, 5); (19, 7)]
    (paint 3 [(18, 4); (18, 6)] (paint 2 [(18, 3); (18, 5); (18, 7)]
      (paint 1 [(17, 1); (17, 2); (17, 3); (17, 4); (17, 5); (17, 6);
                (18, 1); (18, 2); (19, 0); (19, 1); (19, 2)] emptyGrid)))).

#[global] Instance wf_grid_dec g : Decision (wf_grid g).
Proof. unfold wf_grid. apply _. Defined.

(** ** Notions used to state the properties of match detection *)

(** Two touching cells that hold the same value; [a] is on the board (and
    so is [b], as a neighbour). *)
Definition sameColorAdj (g : Grid) (a b : Position) : Prop :=
  validPos a ∧ b ∈ getNeighbors (pr a) (pc a)
  ∧ getCell g (pr a) (pc a) = getCell g (pr b) (pc b).

(** [b] is reached from [a] through touching cells of one colour. *)
Definition connected (g : Grid) : relation Position := rtc (sameColorAdj g).

(** [G] lists, without repetition, a maximal connected group of balls of
    one colour [v]. *)
Definition isGroup (g : Grid) (G : list Position) : Prop :=
  NoDup G
  ∧ ∃ s v, s ∈ G ∧ validPos s ∧ getCell g (pr s) (pc s) = Some v ∧ v ≠ EMPTY
           ∧ ∀ p, p ∈ G ↔ connected g s p.

(** The groups the scan of [GroupFirst.checkMatches] meets, in scan order:
    the same loop with the scoring and the clearing left out, run on the
    input grid. *)
Definition groupsCell (g : Grid) (st : gset Position * list (list Position))
    (p : Position) : gset Position * list (list Position) :=
  if bool_decide (getCell g (pr p) (pc p) = Some EMPTY) || bool_decide (p ∈ st.1)
  then st
  else
    let '(group, visited') := GroupFirst.getConnectedGroup (pr p) (pc p) g st.1 in
    (visited', st.2 ++ [group]).

Definition groupsRun (g : Grid) (cells : list Position)
    : gset Position * list (list Position) :=
  foldl (groupsCell g) (∅, []) cells.

Definition foundGroups (g : Grid) : list (list Position) :=
  (groupsRun g boardCells).2.

Definition eligible (G : list Position) : Prop := (6 ≤ length G)%nat.

#[global] Instance eligible_dec G : Decision (eligible G).
Proof. unfold eligible. apply _. Defined.

(** The groups of six balls or more. *)
Definition eligibleGroups (g : Grid) : list (list Position) :=
  filter eligible (foundGroups g).

(** The base points of the specification for a group of [size] balls:
    [size × 100 + max(0, size − 6) × 50]. *)
Definition basePoints (size : Z) : Z := size * 100 + Z.max 0 (size - 6) * 50.

(** The three shape tests of [src/6ball.tsx] on a group given as a list. *)
Definition isHexagon (G : list Position) : bool :=
  GroupFirst.hasHexagonInGroup (list_to_set G) [].
Definition isPyramid (G : list Position) : bool :=
  GroupFirst.hasPyramidInGroup (list_to_set G).
Definition isStraight (G : list Position) : bool :=
  GroupFirst.hasStraightInGroup (list_to_set G).

(** The bonus of the best shape present in [G], by the table
    hexagon 1000 > pyramid 800 > straight 500 > plain 0. *)
Definition highestBonus (G : list Position) : Z :=
  Z.max (if isHexagon G then 1000 else 0)
        (Z.max (if isPyramid G then 800 else 0)
               (if isStraight G then 500 else 0)).

(** What the group-first detector adds to the total for the group [G]. *)
Definition groupScore (g : Grid) (G : list Position) : Z :=
  Z.of_nat (length G) * 100 + (Z.of_nat (length G) - 6) * 50
  + (GroupFirst.classify (list_to_set G) g).1.1.

(** The running choice of the combo label over a list of groups. *)
Definition comboStep (g : Grid) (acc : string * Z) (G : list Position) : string * Z :=
  let '(_, comboName, priority) := GroupFirst.classify (list_to_set G) g in
  if acc.2 <? priority then (comboName, priority) else acc.

Definition sumZ (l : list Z) : Z := foldr Z.add 0 l.

(** ** Invariants of the search and of the scan (used in the proofs) *)

(** [V] is a union of whole groups of [g]. *)
Definition closedSet (g : Grid) (V : gset Position) : Prop :=
  ∀ a b, a ∈ V → sameColorAdj g a b → b ∈ V.

(** Invariant of the loop of [GroupFirst.getConnectedGroup] started at the
    ball [p] of colour [v] with [visitedGlobal = V]; [prog] lists the cells
    whose neighbours are being visited. *)
Record bfsInv (g : Grid) (v : Z) (p : Position) (V : gset Position)
    (prog : list Position) (st : GroupFirst.BfsState) : Prop :=
  MkBfsInv {
    inv_local : GroupFirst.visitedLocal st = list_to_set (GroupFirst.group st);
    inv_global : GroupFirst.seenGlobal st = V ∪ list_to_set (GroupFirst.group st);
    inv_nodup : NoDup (GroupFirst.group st);
    inv_fresh : ∀ q, q ∈ GroupFirst.group st → q ∉ V;
    inv_sound : ∀ q, q ∈ GroupFirst.group st →
                validPos q ∧ getCell g (pr q) (pc q) = Some v ∧ connected g p q;
    inv_queue : ∀ q, q ∈ GroupFirst.queue st → q ∈ GroupFirst.group st;
    inv_done : ∀ q, q ∈ GroupFirst.group st →
               q ∈ GroupFirst.queue st ∨ q ∈ prog
               ∨ ∀ b, sameColorAdj g q b → b ∈ GroupFirst.seenGlobal st;
    inv_start : p ∈ GroupFirst.group st
  }.

(** Invariant of the scan that collects the groups, after the cells
    [done] have been handled. *)
Record groupsInv (g : Grid) (done : list Position)
    (st : gset Position * list (list Position)) : Prop :=
  MkGroupsInv {
    ginv_closed : closedSet g st.1;
    ginv_union : ∀ q, q ∈ st.1 ↔ ∃ G, G ∈ st.2 ∧ q ∈ G;
    ginv_groups : Forall (isGroup g) st.2;
    ginv_disjoint : NoDup (concat st.2);
    ginv_cover : ∀ q v, q ∈ done → getCell g (pr q) (pc q) = Some v → v ≠ EMPTY →
                 q ∈ st.1
  }.

(** The state [GroupFirst.checkMatches] is in when the groups [Gs] have
    been met and [V] is the set of their cells. *)
Definition matchStateOf (g : Grid) (st : gset Position * list (list Position))
    : GroupFirst.MatchState :=
  let Es := filter eligible st.2 in
  let best := foldl (comboStep g) (EmptyString, -1) Es in
  GroupFirst.MkMS (clearCells g (concat Es))
                  (sumZ (groupScore g <$> Es))
                  st.1 best.1 best.2.

(** ** Further parts of the program *)

(** The loop of [hardDrop]:
    [while (!checkCollision(prev.x, currentY + 1, prev.balls)) currentY += 1].
    [None] when [fuel] iterations were not enough. *)
Fixpoint hardDropLoop (fuel : nat) (g : Grid) (px currentY : Q)
    (balls : list BallRelative) : option Q :=
  match fuel with
  | O => None
  | S fuel' =>
      if negb (checkCollision g px (currentY + 1) balls)
      then hardDropLoop fuel' g px (currentY + 1) balls
      else Some currentY
  end.

(** The state updater inside [hardDrop]: the active piece is given up and
    the dropped piece is handed to [lockPiece]. *)
Definition hardDrop (fuel : nat) (g : Grid) (prev : option FloatingPiece)
    : option MoveResult :=
  match prev with
  | None => Some (MkMove None None)
  | Some prev =>
      match hardDropLoop fuel g (x prev) (y prev) (balls prev) with
      | Some currentY =>
          Some (MkMove None
                  (Some (MkPiece (x prev) currentY (balls prev) (rotationState prev))))
      | None => None
      end
  end.

(** [initGame], run in state [s]: the colours set by
    [setNextColors(initialNext)] are replaced, in the same batch of
    updates, by those drawn inside [spawnPiece].  The settle timer is a
    ref that [initGame] does not touch. *)
Definition initGame (rand : nat → Q) (s : Game) : Game :=
  let '(initialNext, n1) := generateNextColors rand (randomDraws s) in
  let '(first, n2) := generateNextColors rand n1 in
  let '(next, n3) := generateNextColors rand n2 in
  MkGame emptyGrid (Some (spawnPiece first)) next 0 PLAYING "" "" (settleTimer s) n3.

(** The cell a ball of the piece anchored at [(px, py)] occupies, as
    computed by [checkCollision] and by [lockPiece]. *)
Definition ballCell (px py : Q) (b : BallRelative) : Position :=
  let r := Qfloor (py + dy b + (1 # 2)) in
  Pos r (Qfloor (px + dx b - (if isOddRow r then 1 # 2 else 0))).

(** The sum of the row numbers of the balls on the board. *)
Definition ballDepth (g : Grid) (p : Position) : Z :=
  match getCell g (pr p) (pc p) with
  | Some v => if v =? EMPTY then 0 else pr p
  | None => 0
  end.

Definition depth (g : Grid) : Z := sumZ (ballDepth g <$> boardCells).

(** [k] gravity steps in a row, as the SETTLING loop makes them while
    balls keep moving. *)
Fixpoint gravityRun (rand : nat → Q) (n : nat) (g : Grid) (k : nat) : PhysState :=
  match k with
  | O => MkPhys g true n
  | S k' =>
      let s := gravityRun rand n g k' in
      runPhysicsStep rand (draws s) (newGrid s)
  end.

(** [p] is a cell of the board and holds a ball. *)
Definition ballAt (g : Grid) (p : Position) : Prop :=
  validPos p ∧ ∃ v, getCell g (pr p) (pc p) = Some v ∧ v ≠ EMPTY.




(** ** Facts about the geometry *)

Lemma isValidPos_true r c :
  isValidPos r c = true ↔ 0 ≤ r < TOTAL_ROWS ∧ 0 ≤ c < COLS.
Proof.
  unfold isValidPos, TOTAL_ROWS, VISIBLE_ROWS, HIDDEN_ROWS, COLS.
  destruct (r <? 0) eqn:E1, (r >=? 15 + 5) eqn:E2,
           (c <? 0) eqn:E3, (c >=? 9) eqn:E4; simpl; lia.
Qed.

Lemma isOddRow_odd r : isOddRow r = Z.odd r.
Proof.
  unfold isOddRow. rewrite Zodd_mod.
  pose proof (Z.rem_mod_nonneg (Z.abs r) 2).
  destruct (Z.rem r 2 =? 0) eqn:E.
  - apply Z.eqb_eq in E. apply Z.rem_divide in E; [|lia].
    apply Z.mod_divide in E; [|lia]. rewrite E. reflexivity.
  - apply Z.eqb_neq in E.
    destruct (Z.eq_dec (r mod 2) 0) as [Hm|Hm].
    + exfalso. apply E. apply Z.rem_divide; [lia|].
      apply Z.mod_divide; [lia|done].
    + pose proof (Z.mod_pos_bound r 2 ltac:(lia)).
      assert (r mod 2 = 1) as -> by lia. reflexivity.
Qed.

Lemma validPos_isValidPos p : validPos p ↔ isValidPos (pr p) (pc p) = true.
Proof. unfold validPos. by rewrite isValidPos_true. Qed.

(** The push loop of [getNeighbors] keeps, in order, the offsets that land
    on the board. *)
Lemma foldl_push_valid r c (offs : list (Z * Z)) (acc : list Position) :
  foldl (λ neighbors o,
           let nr := r + o.1 in
           let nc := c + o.2 in
           if isValidPos nr nc then neighbors ++ [Pos nr nc] else neighbors)
        acc offs
  = acc ++ filter validPos ((λ o, Pos (r + o.1) (c + o.2)) <$> offs).
Proof.
  revert acc. induction offs as [|o offs IH]; intros acc; simpl.
  - by rewrite app_nil_r.
  - rewrite IH. rewrite filter_cons. case_decide as Hv.
    + apply validPos_isValidPos in Hv. simpl in Hv. rewrite Hv.
      by rewrite <- app_assoc.
    + rewrite validPos_isValidPos in Hv. simpl in Hv.
      by destruct (isValidPos (r + o.1) (c + o.2)).
Qed.

Lemma getNeighbors_filter r c :
  getNeighbors r c =
    filter validPos ((λ o, Pos (r + o.1) (c + o.2)) <$> neighborOffsets r).
Proof. unfold getNeighbors. by rewrite foldl_push_valid. Qed.

Lemma elem_of_getNeighbors r c p :
  p ∈ getNeighbors r c ↔
    validPos p ∧
    ((pr p = r ∧ (pc p = c - 1 ∨ pc p = c + 1)) ∨
     ((pr p = r - 1 ∨ pr p = r + 1) ∧
      if Z.odd r then pc p = c ∨ pc p = c + 1 else pc p = c - 1 ∨ pc p = c)).
Proof.
  rewrite getNeighbors_filter, list_elem_of_filter.
  unfold neighborOffsets. rewrite isOddRow_odd.
  destruct p as [a b]. simpl.
  split.
  - intros [Hv Hin]. split; [done|].
    destruct (Z.odd r); simpl in Hin;
      rewrite ?elem_of_cons, ?elem_of_nil in Hin;
      repeat destruct Hin as [Hin|Hin]; try done;
      injection Hin as -> ->; lia.
  - intros [Hv H]. split; [done|].
    destruct (Z.odd r); simpl; rewrite ?elem_of_cons;
      assert (∀ x y, a = x → b = y → Pos a b = Pos x y) as HP
        by (by intros ?? -> ->);
      destruct H as [[-> [->| ->]]|[[-> | ->] [-> | ->]]];
      repeat (first [left; apply HP; lia | right]).
Qed.

Lemma getNeighbors_length r c : (length (getNeighbors r c) ≤ 6)%nat.
Proof.
  rewrite getNeighbors_filter.
  etransitivity; [apply length_filter|].
  rewrite length_fmap. unfold neighborOffsets.
  by destruct (isOddRow r).
Qed.

Lemma getNeighbors_valid r c p : p ∈ getNeighbors r c → validPos p.
Proof. rewrite elem_of_getNeighbors. tauto. Qed.

Lemma getNeighbors_sym a b :
  validPos a → b ∈ getNeighbors (pr a) (pc a) → a ∈ getNeighbors (pr b) (pc b).
Proof.
  intros Ha. rewrite !elem_of_getNeighbors. intros [Hb H]. split; [done|].
  destruct H as [[Hr Hc]|[Hr Hc]].
  - left. lia.
  - right. split; [lia|].
    assert (Z.odd (pr b) = negb (Z.odd (pr a))) as ->.
    { destruct Hr as [-> | ->].
      - by rewrite Z.odd_sub.
      - by rewrite Z.odd_add. }
    destruct (Z.odd (pr a)); simpl; lia.
Qed.

(** C7. For every coordinate [(r, c)], [getNeighbors r c] returns at most
    six coordinates, each of them inside the board
    ([0 ≤ r < TOTAL_ROWS], [0 ≤ c < COLS]); and between cells of the board
    the neighbour relation is symmetric: [b] is a neighbour of [a] exactly
    when [a] is a neighbour of [b]. *)
Theorem getNeighbors_bounded_symmetric :
  (∀ r c, (length (getNeighbors r c) ≤ 6)%nat
          ∧ ∀ p, p ∈ getNeighbors r c → isValidPos (pr p) (pc p) = true)
  ∧ (∀ a b, isValidPos (pr a) (pc a) = true → isValidPos (pr b) (pc b) = true →
            (b ∈ getNeighbors (pr a) (pc a) ↔ a ∈ getNeighbors (pr b) (pc b))).
Proof.
  split.
  - intros r c. split; [apply getNeighbors_length|].
    intros p Hp. apply validPos_isValidPos. by eapply getNeighbors_valid.
  - intros a b Ha Hb. apply validPos_isValidPos in Ha, Hb.
    split; by apply getNeighbors_sym.
Qed.

Lemma getNeighbors_bounded_symmetric_witness :
  (Pos 2 4 ∈ getNeighbors 3 4 ↔ Pos 3 4 ∈ getNeighbors 2 4)
  ∧ isValidPos 2 4 = true.
Proof.
  split.
  - apply (proj2 getNeighbors_bounded_symmetric (Pos 3 4) (Pos 2 4)); reflexivity.
  - apply (proj2 (proj1 getNeighbors_bounded_symmetric 3 4) (Pos 2 4)).
    vm_compute. apply list_elem_of_here.
Defined.

(** ** Reading and writing cells *)

Lemma getCell_nonneg g r c :
  0 ≤ r → 0 ≤ c → getCell g r c = g !! Z.to_nat r ≫= λ row, row !! Z.to_nat c.
Proof.
  intros Hr Hc. unfold getCell.
  destruct (r <? 0) eqn:Er; [lia|]. destruct (c <? 0) eqn:Ec; [lia|]. done.
Qed.

Lemma getCell_Some_inv g r c v :
  getCell g r c = Some v →
  0 ≤ r ∧ 0 ≤ c ∧ ∃ row, g !! Z.to_nat r = Some row ∧ row !! Z.to_nat c = Some v.
Proof.
  unfold getCell. destruct (r <? 0) eqn:Er, (c <? 0) eqn:Ec; simpl; try done.
  intros H. destruct (g !! Z.to_nat r) as [row|] eqn:Hrow; simpl in H; [|done].
  split; [lia|]. split; [lia|]. eauto.
Qed.

Lemma getCell_Some_valid g r c v :
  wf_grid g → getCell g r c = Some v → validPos (Pos r c).
Proof.
  intros [Hlen Hrows] H. apply getCell_Some_inv in H as (Hr & Hc & row & Hrow & Hv).
  pose proof (lookup_lt_Some _ _ _ Hrow) as Hlt.
  pose proof (lookup_lt_Some _ _ _ Hv) as Hlt'.
  rewrite Forall_forall in Hrows.
  rewrite (Hrows row) in Hlt' by (by eapply list_elem_of_lookup_2).
  unfold validPos; simpl. lia.
Qed.

Lemma getCell_valid g p :
  wf_grid g → validPos p → is_Some (getCell g (pr p) (pc p)).
Proof.
  intros [Hlen Hrows] [Hr Hc]. rewrite getCell_nonneg by lia.
  destruct (lookup_lt_is_Some_2 g (Z.to_nat (pr p))) as [row Hrow]; [lia|].
  rewrite Hrow. simpl. apply lookup_lt_is_Some_2.
  rewrite Forall_forall in Hrows.
  rewrite (Hrows row) by (by eapply list_elem_of_lookup_2).
  lia.
Qed.

Lemma wf_setCell g r c v : wf_grid g → wf_grid (setCell g r c v).
Proof.
  intros [Hlen Hrows]. unfold setCell. split.
  - by rewrite length_alter.
  - apply Forall_alter; [done|]. intros row _ Hl. by rewrite length_insert.
Qed.

Lemma getCell_setCell_eq g r c v :
  wf_grid g → validPos (Pos r c) → getCell (setCell g r c v) r c = Some v.
Proof.
  intros Hwf Hv. destruct (getCell_valid g _ Hwf Hv) as [w Hw]. simpl in Hw.
  apply getCell_Some_inv in Hw as (Hr & Hc & row & Hrow & Hcell).
  rewrite getCell_nonneg by lia. unfold setCell.
  rewrite list_lookup_alter_eq, Hrow. simpl.
  apply list_lookup_insert_eq. by eapply lookup_lt_Some.
Qed.

Lemma getCell_setCell_ne g r c v r' c' :
  0 ≤ r → 0 ≤ c → Pos r' c' ≠ Pos r c →
  getCell (setCell g r c v) r' c' = getCell g r' c'.
Proof.
  intros Hr Hc Hne.
  destruct (decide (0 ≤ r' ∧ 0 ≤ c')) as [[Hr' Hc']|Hneg].
  2:{ unfold getCell. destruct (r' <? 0) eqn:Er; [done|].
      destruct (c' <? 0) eqn:Ec; [done|]. lia. }
  rewrite !getCell_nonneg by lia. unfold setCell.
  destruct (decide (Z.to_nat r = Z.to_nat r')) as [Heq|Hneq].
  - rewrite <- Heq, list_lookup_alter_eq.
    destruct (g !! Z.to_nat r) as [row|]; simpl; [|done].
    apply list_lookup_insert_ne. intros Hcc. apply Hne. f_equal; lia.
  - by rewrite list_lookup_alter_ne.
Qed.

Lemma alter_middle {A} (f : A → A) (l : list A) i a :
  l !! i = Some a → alter f i l = take i l ++ f a :: drop (S i) l.
Proof.
  revert i. induction l as [|b l IH]; intros [|i] H; simpl in *; try done.
  - by injection H as ->.
  - f_equal. by apply IH.
Qed.

(** Overwriting one cell replaces one entry of the bag of cell values. *)
Lemma concat_setCell g r c a b :
  getCell g r c = Some a →
  ∃ l, concat g ≡ₚ a :: l ∧ concat (setCell g r c b) ≡ₚ b :: l.
Proof.
  intros H. apply getCell_Some_inv in H as (Hr & Hc & row & Hrow & Hcell).
  exists (concat (take (Z.to_nat r) g) ++ take (Z.to_nat c) row
          ++ drop (S (Z.to_nat c)) row ++ concat (drop (S (Z.to_nat r)) g)).
  unfold setCell. rewrite (alter_middle _ _ _ _ Hrow).
  rewrite <- (take_drop_middle g _ _ Hrow) at 1.
  rewrite !concat_app, !concat_cons.
  rewrite insert_take_drop by (by eapply lookup_lt_Some).
  rewrite <- (take_drop_middle row _ _ Hcell) at 1.
  split; rewrite <- !app_assoc; simpl;
    rewrite (app_assoc (concat _) (take _ _));
    rewrite <- Permutation_middle; by rewrite <- app_assoc.
Qed.

(** ** The scan lists *)

Lemma elem_of_cellsOf rows p :
  p ∈ cellsOf rows ↔ pr p ∈ rows ∧ 0 ≤ pc p < COLS.
Proof.
  unfold cellsOf. rewrite list_elem_of_bind. split.
  - intros (r & Hp & Hr). apply list_elem_of_bind in Hp as (c & Hp & Hc).
    apply list_elem_of_singleton in Hp as ->. simpl.
    apply elem_of_seqZ in Hc. split; [done|lia].
  - intros [Hr Hc]. exists (pr p). split; [|done].
    apply list_elem_of_bind. exists (pc p). split.
    + destruct p. simpl. apply list_elem_of_singleton. done.
    + apply elem_of_seqZ. lia.
Qed.

Lemma elem_of_boardCells p : p ∈ boardCells ↔ validPos p.
Proof.
  unfold boardCells. rewrite elem_of_cellsOf, elem_of_seqZ. unfold validPos. lia.
Qed.

Lemma elem_of_physCells p :
  p ∈ physCells ↔ validPos p ∧ pr p < TOTAL_ROWS - 1.
Proof.
  unfold physCells, physRows.
  rewrite elem_of_cellsOf, elem_of_reverse, elem_of_seqZ.
  unfold validPos, TOTAL_ROWS, VISIBLE_ROWS, HIDDEN_ROWS. lia.
Qed.

(** ** The physics step *)

Lemma canGo_free g d : canGo g d = true ↔ freeCell g d.
Proof.
  unfold canGo, freeCell.
  rewrite andb_true_iff, bool_decide_eq_true, <- validPos_isValidPos. done.
Qed.

Lemma canGo_not_free g d : canGo g d = false ↔ ¬ freeCell g d.
Proof. rewrite <- canGo_free. by destruct (canGo g d). Qed.

Lemma getBottomNeighbors_two r c :
  ∃ dl dr, getBottomNeighbors r c = [dl; dr] ∧ pr dl = r + 1 ∧ pr dr = r + 1.
Proof. unfold getBottomNeighbors. destruct (isOddRow r); eauto. Qed.

Lemma getBottomNeighbors_row r c d : d ∈ getBottomNeighbors r c → pr d = r + 1.
Proof.
  destruct (getBottomNeighbors_two r c) as (dl & dr & -> & Hl & Hr).
  rewrite !elem_of_cons, elem_of_nil. intros [->|[->|[]]]; done.
Qed.

Lemma physicsCell_wf rand s p :
  wf_grid (newGrid s) → wf_grid (newGrid (physicsCell rand s p)).
Proof.
  intros Hwf. unfold physicsCell, moveBall.
  repeat case_match; simpl; auto using wf_setCell.
Qed.

Lemma physRun_snoc rand n g cells p :
  physRun rand n g (cells ++ [p]) = physicsCell rand (physRun rand n g cells) p.
Proof. unfold physRun. by rewrite foldl_app. Qed.

Lemma physRun_wf rand n g cells :
  wf_grid g → wf_grid (newGrid (physRun rand n g cells)).
Proof.
  intros Hwf. induction cells as [|p cells IH] using rev_ind; [done|].
  rewrite physRun_snoc. by apply physicsCell_wf.
Qed.

Lemma physicsCell_outcome rand s p :
  wf_grid (newGrid s) → validPos p →
  cellOutcome rand s p (physicsCell rand s p).
Proof.
  intros Hwf Hp. unfold physicsCell, moveBall.
  destruct (getCell_valid _ _ Hwf Hp) as [v Hv]. rewrite Hv.
  destruct (v =? EMPTY) eqn:Ev.
  { apply Z.eqb_eq in Ev as ->. by apply outcome_empty. }
  apply Z.eqb_neq in Ev.
  destruct (getBottomNeighbors_two (pr p) (pc p)) as (dl & dr & Hnb & _ & _).
  rewrite Hnb.
  assert (dl ∈ [dl; dr]) as Hinl by apply list_elem_of_here.
  assert (dr ∈ [dl; dr]) as Hinr by apply list_elem_of_further, list_elem_of_here.
  assert (∀ (P : Position → Prop), P dl → P dr → ∀ d', d' ∈ [dl; dr] → P d') as Hboth.
  { intros P Hl Hr d'. rewrite !elem_of_cons, elem_of_nil.
    intros [->|[->|[]]]; done. }
  destruct (canGo (newGrid s) dl) eqn:Hl, (canGo (newGrid s) dr) eqn:Hr; simpl.
  - apply canGo_free in Hl, Hr.
    destruct (Qlt_le_dec (rand (draws s)) (1 # 2)) as [Hq|Hq] eqn:Eq.
    + apply (outcome_fall rand s p v dl true); rewrite ?Hnb; try done.
      * split; [|done]. intros _. by apply (Hboth (freeCell (newGrid s))).
      * intros _. by rewrite Eq.
    + apply (outcome_fall rand s p v dr true); rewrite ?Hnb; try done.
      * split; [|done]. intros _. by apply (Hboth (freeCell (newGrid s))).
      * intros _. by rewrite Eq.
  - apply canGo_free in Hl. apply canGo_not_free in Hr.
    apply (outcome_fall rand s p v dl false); rewrite ?Hnb; try done.
    + split; [done|]. intros H. exfalso. by apply Hr, H.
    + intros _. by apply (Hboth (λ d', freeCell (newGrid s) d' → d' = dl)).
  - apply canGo_not_free in Hl. apply canGo_free in Hr.
    apply (outcome_fall rand s p v dr false); rewrite ?Hnb; try done.
    + split; [done|]. intros H. exfalso. by apply Hl, H.
    + intros _. by apply (Hboth (λ d', freeCell (newGrid s) d' → d' = dr)).
  - apply canGo_not_free in Hl, Hr.
    apply (outcome_stuck rand s p v); try done.
    unfold stuckAt. rewrite Hnb.
    by apply (Hboth (λ d', ¬ freeCell (newGrid s) d')).
Qed.

(** A fall exchanges the values of two cells. *)
Lemma cellOutcome_perm rand s p s' :
  wf_grid (newGrid s) → validPos p → cellOutcome rand s p s' →
  concat (newGrid s') ≡ₚ concat (newGrid s).
Proof.
  intros Hwf Hp H. destruct H as [| |v d tie Hv Hne Hd [Hdv Hfree] _ _ _]; try done.
  simpl.
  destruct (concat_setCell _ _ _ _ v Hfree) as (l1 & H1 & H1').
  assert (getCell (setCell (newGrid s) (pr d) (pc d) v) (pr p) (pc p) = Some v) as Hv'.
  { rewrite getCell_setCell_ne; [done|apply Hdv|apply Hdv|].
    apply getBottomNeighbors_row in Hd. intros Heq.
    apply (f_equal pr) in Heq. simpl in Heq. lia. }
  destruct (concat_setCell _ _ _ _ EMPTY Hv') as (l2 & H2 & H2').
  rewrite H2', H1. f_equiv. apply (Permutation_cons_inv (a:=v)).
  by rewrite <- H2, <- H1'.
Qed.

Lemma physRun_perm rand n g cells :
  wf_grid g → Forall validPos cells →
  concat (newGrid (physRun rand n g cells)) ≡ₚ concat g.
Proof.
  intros Hwf. induction cells as [|p cells IH] using rev_ind; [done|].
  intros Hall. apply Forall_app in Hall as [Hcells Hp].
  apply Forall_cons in Hp as [Hp _].
  rewrite physRun_snoc.
  rewrite (cellOutcome_perm rand (physRun rand n g cells) p); auto.
  - by apply physRun_wf.
  - apply physicsCell_outcome; [by apply physRun_wf|done].
Qed.

Lemma physCells_valid : Forall validPos physCells.
Proof. apply Forall_forall. intros p Hp. by apply elem_of_physCells in Hp as [? _]. Qed.

(** While [moved] is still [false] nothing has been written, and every
    ball scanned so far is stuck. *)
Lemma physRun_unmoved rand n g cells :
  wf_grid g → Forall validPos cells →
  moved (physRun rand n g cells) = false →
  physRun rand n g cells = MkPhys g false n
  ∧ ∀ p v, p ∈ cells → getCell g (pr p) (pc p) = Some v → v ≠ EMPTY → stuckAt g p.
Proof.
  intros Hwf. induction cells as [|p cells IH] using rev_ind.
  { intros _ _. split; [done|]. intros p v Hp. by apply elem_of_nil in Hp. }
  intros Hall. apply Forall_app in Hall as [Hcells Hp].
  apply Forall_cons in Hp as [Hp _].
  rewrite physRun_snoc.
  pose proof (physicsCell_outcome rand (physRun rand n g cells) p
                (physRun_wf rand n g cells Hwf) Hp) as Hout.
  inversion Hout as [Hv Heq|v Hv Hne Hst Heq|v d tie Hv Hne Hd Hfree Ht1 Ht2 Ht3 Heq].
  - intros Hm. destruct (IH Hcells Hm) as [Hs Hst].
    split; [done|]. intros q w [Hq|Hq%list_elem_of_singleton]%elem_of_app Hw Hwne.
    + by eapply Hst.
    + subst q. rewrite Hs in Hv. simpl in Hv. congruence.
  - intros Hm. destruct (IH Hcells Hm) as [Hs Hst'].
    split; [done|]. intros q w [Hq|Hq%list_elem_of_singleton]%elem_of_app Hw Hwne.
    + by eapply Hst'.
    + subst q. by rewrite Hs in Hst.
  - simpl. done.
Qed.

Lemma physRun_settled rand n g cells :
  wf_grid g → settled g → (∀ p, p ∈ cells → p ∈ physCells) →
  physRun rand n g cells = MkPhys g false n.
Proof.
  intros Hwf Hset. induction cells as [|p cells IH] using rev_ind; [done|].
  intros Hin. rewrite physRun_snoc.
  assert (p ∈ physCells) as Hp
    by (apply Hin, elem_of_app; right; apply list_elem_of_here).
  apply elem_of_physCells in Hp as [Hp Hrow].
  rewrite IH by (intros q Hq; apply Hin, elem_of_app; by left).
  pose proof (physicsCell_outcome rand (MkPhys g false n) p Hwf Hp) as Hout.
  inversion Hout as [Hv Heq|v Hv Hne Hst Heq|v d tie Hv Hne Hd Hfree Ht1 Ht2 Ht3 Heq];
    try done.
  simpl in *. exfalso. by apply (Hset p v Hp Hrow Hv Hne d Hd).
Qed.

Lemma physRun_step_outcome rand n g pre p post :
  wf_grid g → cellsOf physRows = pre ++ p :: post →
  cellOutcome rand (physRun rand n g pre) p (physRun rand n g (pre ++ [p])).
Proof.
  intros Hwf Hsplit. rewrite physRun_snoc.
  apply physicsCell_outcome; [by apply physRun_wf|].
  pose proof physCells_valid as Hall. unfold physCells in Hall.
  rewrite Hsplit in Hall. apply Forall_app in Hall as [_ Hall].
  by apply Forall_cons in Hall as [? _].
Qed.

Lemma runPhysicsStep_eq rand n g :
  runPhysicsStep rand n g = physRun rand n g physCells.
Proof. reflexivity. Qed.

(** C4. One gravity step scans the cells from the second-to-last row up to
    row 0 (left to right within a row).  At each scanned cell, in the grid
    as it is at that moment: an empty cell and a ball without a free
    down-neighbour are left alone; otherwise the ball moves to one of its
    two parity-dependent down-neighbours, which is on the board and empty
    (the random draw decides when both are free).  The step reports
    [moved = false] only if the returned grid is the input grid and every
    ball above the bottom row has no free down-neighbour; and it does
    report [false] on such a grid. *)
Theorem runPhysicsStep_scan_and_settle rand n g :
  wf_grid g →
  physRows = [18; 17; 16; 15; 14; 13; 12; 11; 10; 9; 8; 7; 6; 5; 4; 3; 2; 1; 0]
  ∧ runPhysicsStep rand n g = physRun rand n g (cellsOf physRows)
  ∧ (∀ pre p post, cellsOf physRows = pre ++ p :: post →
       cellOutcome rand (physRun rand n g pre) p (physRun rand n g (pre ++ [p])))
  ∧ (moved (runPhysicsStep rand n g) = false →
       newGrid (runPhysicsStep rand n g) = g ∧ settled g)
  ∧ (settled g → moved (runPhysicsStep rand n g) = false).
Proof.
  intros Hwf. split; [by vm_compute|].
  split; [by unfold runPhysicsStep, physCells|]. split; [|split].
  - intros pre p post Hsplit. by eapply physRun_step_outcome.
  - rewrite runPhysicsStep_eq. intros Hm.
    destruct (physRun_unmoved rand n g physCells Hwf physCells_valid Hm) as [Hs Hst].
    rewrite Hs. split; [done|].
    intros p v Hp Hrow Hv Hne. apply (Hst p v); try done.
    by apply elem_of_physCells.
  - intros Hset. rewrite runPhysicsStep_eq.
    by rewrite (physRun_settled rand n g physCells Hwf Hset).
Qed.

Lemma runPhysicsStep_scan_and_settle_witness :
  wf_grid centredRing
  ∧ newGrid (runPhysicsStep (λ _, 0%Q) 0 centredRing) = centredRing
  ∧ settled centredRing.
Proof.
  assert (wf_grid centredRing) as Hwf by (apply (bool_decide_unpack _); vm_compute; exact I).
  split; [exact Hwf|].
  destruct (runPhysicsStep_scan_and_settle (λ _, 0%Q) 0 centredRing Hwf)
    as (_ & _ & _ & H & _).
  apply H. vm_compute. reflexivity.
Defined.

(** C10. One gravity step permutes the cell values of the board, whatever
    the random draws: each scanned cell either leaves the grid as it is or
    writes the colour of the ball at that cell into a down-neighbour that
    was empty and empties the source, so the bag of colours on the board
    (and the number of cells of each colour) is the same before and after
    the step. *)
Theorem runPhysicsStep_preserves_colors rand n g :
  wf_grid g →
  (∀ pre p post, cellsOf physRows = pre ++ p :: post →
     let before := newGrid (physRun rand n g pre) in
     let after := newGrid (physRun rand n g (pre ++ [p])) in
     after = before
     ∨ ∃ d v, v ≠ EMPTY
              ∧ getCell before (pr p) (pc p) = Some v
              ∧ getCell before (pr d) (pc d) = Some EMPTY
              ∧ after = setCell (setCell before (pr d) (pc d) v) (pr p) (pc p) EMPTY)
  ∧ wf_grid (newGrid (runPhysicsStep rand n g))
  ∧ concat (newGrid (runPhysicsStep rand n g)) ≡ₚ concat g
  ∧ ∀ v, count_occ Z.eq_dec (concat (newGrid (runPhysicsStep rand n g))) v
         = count_occ Z.eq_dec (concat g) v.
Proof.
  intros Hwf.
  assert (concat (newGrid (runPhysicsStep rand n g)) ≡ₚ concat g) as Hperm.
  { rewrite runPhysicsStep_eq. apply physRun_perm; [done|apply physCells_valid]. }
  split; [|split; [|split]].
  - intros pre p post Hsplit before after.
    pose proof (physRun_step_outcome rand n g pre p post Hwf Hsplit) as Hstep.
    fold before in Hstep.
    inversion Hstep as [Hv Heq|v Hv Hne Hst Heq|v d tie Hv Hne Hd Hfree Ht1 Ht2 Ht3 Heq].
    + left. subst after. by rewrite <- Heq.
    + left. subst after. by rewrite <- Heq.
    + right. exists d, v. subst after. rewrite <- Heq. simpl.
      destruct Hfree as [_ Hfree]. done.
  - rewrite runPhysicsStep_eq. by apply physRun_wf.
  - done.
  - by apply Permutation_count_occ.
Qed.

Lemma runPhysicsStep_preserves_colors_witness :
  wf_grid (paint 2 [(3, 4)] centredRing)
  ∧ count_occ Z.eq_dec
      (concat (newGrid (runPhysicsStep (λ _, 0%Q) 0 (paint 2 [(3, 4)] centredRing)))) 2
    = 7%nat.
Proof.
  assert (wf_grid (paint 2 [(3, 4)] centredRing)) as Hwf
    by (apply (bool_decide_unpack _); vm_compute; exact I).
  split; [exact Hwf|].
  destruct (runPhysicsStep_preserves_colors (λ _, 0%Q) 0 _ Hwf) as (_ & _ & _ & H).
  rewrite H. vm_compute. reflexivity.
Defined.

(** ** The falling piece *)

Lemma rotatePiece_cw_twice c0 c1 c2 :
  rotatePiece emptyGrid CW (rotatePiece emptyGrid CW (Some (spawnPiece (c0, c1, c2))))
  = Some (spawnPiece (c2, c0, c1)).
Proof. vm_compute. reflexivity. Qed.

(** C6, as stated, fails: on the empty 9 x 20 grid a piece spawned with the
    colours 0, 1, 2 is back in rotation state 0 after two clockwise
    rotations, but its colours are 2, 0, 1. *)
Lemma rotate_cw_twice_counterexample :
  rotationState <$> rotatePiece emptyGrid CW
      (rotatePiece emptyGrid CW (Some (spawnPiece (0, 1, 2)))) = Some 0
  ∧ (map color ∘ balls) <$> rotatePiece emptyGrid CW
      (rotatePiece emptyGrid CW (Some (spawnPiece (0, 1, 2)))) = Some [2; 0; 1]
  ∧ rotatePiece emptyGrid CW (rotatePiece emptyGrid CW (Some (spawnPiece (0, 1, 2))))
    ≠ Some (spawnPiece (0, 1, 2)).
Proof.
  rewrite rotatePiece_cw_twice. split; [reflexivity|]. split; [reflexivity|].
  intros H. discriminate H.
Qed.

(** C6, amended. On the empty 9 x 20 grid, two successive clockwise
    rotations of a piece spawned at the default anchor bring it back to
    rotation state 0 at the same anchor and with the same three offsets,
    and move every colour one slot round: slot 0 receives the colour of
    slot 2, slot 1 that of slot 0, slot 2 that of slot 1.  The colours are
    back in their original slots after six clockwise rotations, or after a
    clockwise rotation followed by a counter-clockwise one. *)
Theorem rotate_cw_twice_cycles_colors c0 c1 c2 :
  let rot := rotatePiece emptyGrid CW in
  rot (rot (Some (spawnPiece (c0, c1, c2)))) = Some (spawnPiece (c2, c0, c1))
  ∧ rot (rot (rot (rot (rot (rot (Some (spawnPiece (c0, c1, c2)))))))) =
      Some (spawnPiece (c0, c1, c2))
  ∧ rotatePiece emptyGrid CCW (rot (Some (spawnPiece (c0, c1, c2)))) =
      Some (spawnPiece (c0, c1, c2)).
Proof.
  intros rot. subst rot. split; [apply rotatePiece_cw_twice|]. split.
  - by rewrite !rotatePiece_cw_twice.
  - vm_compute. reflexivity.
Qed.

Lemma Qeq_bool_zero q : q == 0 → Qeq_bool q 0 = true.
Proof. apply Qeq_bool_iff. Qed.

(** C9. A move without vertical component ([dy = 0]) never hands the piece
    to [lockPiece]; the piece keeps its [y], its balls and its rotation
    state; its [x] becomes [x + dx] when that position is free and stays as
    it was when it collides.  And whatever [dy] is, a horizontal component
    that collides is dropped without affecting the rest of the move: the
    result is that of the same move with [dx = 0]. *)
Theorem movePiece_horizontal_never_locks g ddx ddy prev :
  (ddy == 0 →
   toLock (movePiece g ddx ddy (Some prev)) = None
   ∧ ∃ x', nextPiece (movePiece g ddx ddy (Some prev))
           = Some (MkPiece x' (y prev) (balls prev) (rotationState prev))
     ∧ (checkCollision g (x prev + ddx) (y prev) (balls prev) = true → x' = x prev)
     ∧ (checkCollision g (x prev + ddx) (y prev) (balls prev) = false →
        ¬ ddx == 0 → x' = (x prev + ddx)%Q))
  ∧ (checkCollision g (x prev + ddx) (y prev) (balls prev) = true →
     movePiece g ddx ddy (Some prev) = movePiece g 0 ddy (Some prev)).
Proof.
  split.
  - intros Hdy. unfold movePiece. rewrite (Qeq_bool_zero _ Hdy). simpl.
    split; [done|]. eexists. split; [reflexivity|].
    destruct (Qeq_bool ddx 0) eqn:Hdx; simpl.
    + split; [done|]. intros _ Hne. exfalso. by apply Hne, Qeq_bool_iff.
    + split; intros ->; done.
  - intros Hcol. unfold movePiece. rewrite Hcol. simpl.
    by destruct (Qeq_bool ddx 0).
Qed.

(** A piece whose left ball sits in column 0 of row 1 is pushed left and
    down in one move: the push is dropped, the descent takes place. *)
Lemma movePiece_horizontal_never_locks_witness :
  toLock (movePiece emptyGrid (- (1 # 2)) 0
            (Some (MkPiece 1 2 (balls (spawnPiece (0, 1, 2))) 0))) = None
  ∧ movePiece emptyGrid (- (1 # 2)) 1
      (Some (MkPiece 1 2 (balls (spawnPiece (0, 1, 2))) 0))
    = MkMove (Some (MkPiece 1 (2 + 1) (balls (spawnPiece (0, 1, 2))) 0)) None.
Proof.
  split.
  - apply (proj1 (movePiece_horizontal_never_locks emptyGrid (- (1 # 2)) 0
                    (MkPiece 1 2 (balls (spawnPiece (0, 1, 2))) 0))).
    reflexivity.
  - rewrite (proj2 (movePiece_horizontal_never_locks emptyGrid (- (1 # 2)) 1
                      (MkPiece 1 2 (balls (spawnPiece (0, 1, 2))) 0))).
    + vm_compute. reflexivity.
    + vm_compute. reflexivity.
Defined.

(** ** The settling loop *)

Lemma checkGameOver_spec g :
  checkGameOver g = true ↔
  ∃ r c v, 0 ≤ r < HIDDEN_ROWS ∧ getCell g r c = Some v ∧ v ≠ EMPTY.
Proof.
  unfold checkGameOver. rewrite existsb_exists. split.
  - intros (r & Hr & H). apply list_elem_of_In, elem_of_seqZ in Hr.
    destruct (g !! Z.to_nat r) as [row|] eqn:Hrow; [|done].
    apply existsb_exists in H as (v & Hv & Hne).
    apply list_elem_of_In, list_elem_of_lookup in Hv as [i Hi].
    exists r, (Z.of_nat i), v. split; [lia|]. split.
    + rewrite getCell_nonneg by lia. rewrite Hrow. simpl. by rewrite Nat2Z.id.
    + apply negb_true_iff, Z.eqb_neq in Hne. done.
  - intros (r & c & v & Hr & Hv & Hne).
    apply getCell_Some_inv in Hv as (_ & _ & row & Hrow & Hv).
    exists r. split; [apply list_elem_of_In, elem_of_seqZ; lia|].
    rewrite Hrow. apply existsb_exists. exists v. split.
    + apply list_elem_of_In. by eapply list_elem_of_lookup_2.
    + by apply negb_true_iff, Z.eqb_neq.
Qed.



(** ** Connectivity *)

Lemma sameColorAdj_sym g a b : sameColorAdj g a b → sameColorAdj g b a.
Proof.
  intros (Ha & Hb & Hc). split; [by eapply getNeighbors_valid|].
  split; [by apply getNeighbors_sym|done].
Qed.

Lemma connected_sym g a b : connected g a b → connected g b a.
Proof.
  induction 1 as [|a b c Hab _ IH]; [apply rtc_refl|].
  eapply rtc_r; [exact IH|by apply sameColorAdj_sym].
Qed.

Lemma connected_color g a b :
  connected g a b → getCell g (pr a) (pc a) = getCell g (pr b) (pc b).
Proof.
  induction 1 as [|a b c (_ & _ & Hab) _ IH]; [done|]. by rewrite Hab.
Qed.

Lemma connected_valid g a b : connected g a b → validPos a → validPos b.
Proof.
  induction 1 as [|a b c (_ & Hab & _) _ IH]; [done|].
  intros _. apply IH. by eapply getNeighbors_valid.
Qed.

Lemma closedSet_connected g V a b :
  closedSet g V → a ∈ V → connected g a b → b ∈ V.
Proof.
  intros Hcl Ha Hab. induction Hab as [|a b c Hab _ IH]; [done|].
  apply IH. by eapply Hcl.
Qed.

Lemma boardCells_NoDup : NoDup boardCells.
Proof. apply (bool_decide_unpack _). vm_compute. exact I. Qed.

Lemma boardCells_length : length boardCells = 180%nat.
Proof. by vm_compute. Qed.

Lemma valid_list_bound (G : list Position) :
  NoDup G → (∀ q, q ∈ G → validPos q) → (length G ≤ 180)%nat.
Proof.
  intros Hnd Hval. rewrite <- boardCells_length.
  apply submseteq_length, NoDup_submseteq; [done|].
  intros q Hq. by apply elem_of_boardCells, Hval.
Qed.

(** ** The breadth-first search of [GroupFirst.getConnectedGroup] *)

Section BfsProof.
Import GroupFirst.

Variable g : Grid.
Variable v : Z.
Variable p : Position.
Variable V : gset Position.

Lemma visitNeighbor_inv prog st curr n :
  bfsInv g v p V prog st → curr ∈ group st →
  n ∈ getNeighbors (pr curr) (pc curr) →
  bfsInv g v p V prog (visitNeighbor g (Some v) st n)
  ∧ seenGlobal st ⊆ seenGlobal (visitNeighbor g (Some v) st n)
  ∧ (getCell g (pr n) (pc n) = Some v → n ∈ seenGlobal (visitNeighbor g (Some v) st n))
  ∧ (length (queue (visitNeighbor g (Some v) st n)) + length (group st)
     = length (queue st) + length (group (visitNeighbor g (Some v) st n)))%nat
  ∧ (∀ q, q ∈ group st → q ∈ group (visitNeighbor g (Some v) st n)).
Proof.
  intros [Hloc Hglob Hnd Hfresh Hsound Hqueue Hdone Hstart] Hcurr Hn.
  unfold visitNeighbor.
  destruct (bool_decide (n ∉ seenGlobal st) && bool_decide (n ∉ visitedLocal st)
            && bool_decide (getCell g (pr n) (pc n) = Some v)) eqn:Hcond.
  2:{ split; [done|]. split; [done|]. split; [|done].
      intros Hc. apply andb_false_iff in Hcond as [Hcond|Hcond].
      - apply andb_false_iff in Hcond as [Hcond|Hcond];
          apply bool_decide_eq_false, dec_stable in Hcond; [done|].
        rewrite Hglob. rewrite Hloc in Hcond. apply elem_of_union. by right.
      - by apply bool_decide_eq_false in Hcond. }
  apply andb_true_iff in Hcond as [Hcond E3].
  apply andb_true_iff in Hcond as [E1 E2].
  apply bool_decide_eq_true in E1, E2, E3.
  assert (n ∉ group st) as Hnew.
  { intros Hin. apply E2. rewrite Hloc. by apply elem_of_list_to_set. }
  destruct (Hsound curr Hcurr) as (Hcv & Hcc & Hcp).
  split; [|split; [|split; [|split]]].
  - split; simpl.
    + rewrite Hloc, list_to_set_app_L. simpl. set_solver.
    + rewrite Hglob, list_to_set_app_L. simpl. set_solver.
    + apply NoDup_app. split; [done|]. split; [|apply NoDup_singleton].
      intros q Hq Hq'. apply list_elem_of_singleton in Hq'. by subst.
    + intros q [Hq|Hq%list_elem_of_singleton]%elem_of_app; [by apply Hfresh|].
      subst q. rewrite Hglob in E1. set_solver.
    + intros q [Hq|Hq%list_elem_of_singleton]%elem_of_app; [by apply Hsound|].
      subst q. split; [by eapply getNeighbors_valid|]. split; [done|].
      eapply rtc_r; [exact Hcp|]. split; [done|]. split; [done|]. congruence.
    + intros q [Hq|Hq]%elem_of_app; apply elem_of_app; [left; by apply Hqueue|by right].
    + intros q [Hq|Hq%list_elem_of_singleton]%elem_of_app.
      * destruct (Hdone q Hq) as [H|[H|H]].
        -- left. apply elem_of_app. by left.
        -- right. by left.
        -- right. right. intros b Hb. apply elem_of_union. right. by apply H.
      * subst q. left. apply elem_of_app. right. apply list_elem_of_here.
    + apply elem_of_app. by left.
  - simpl. set_solver.
  - simpl. intros _. set_solver.
  - simpl. rewrite !length_app. simpl. lia.
  - simpl. intros q Hq. apply elem_of_app. by left.
Qed.

Lemma visitFold_inv prog curr nbrs : ∀ st,
  bfsInv g v p V prog st → curr ∈ group st →
  (∀ n, n ∈ nbrs → n ∈ getNeighbors (pr curr) (pc curr)) →
  bfsInv g v p V prog (foldl (visitNeighbor g (Some v)) st nbrs)
  ∧ seenGlobal st ⊆ seenGlobal (foldl (visitNeighbor g (Some v)) st nbrs)
  ∧ (∀ n, n ∈ nbrs → getCell g (pr n) (pc n) = Some v →
          n ∈ seenGlobal (foldl (visitNeighbor g (Some v)) st nbrs))
  ∧ (length (queue (foldl (visitNeighbor g (Some v)) st nbrs)) + length (group st)
     = length (queue st) + length (group (foldl (visitNeighbor g (Some v)) st nbrs)))%nat
  ∧ (∀ q, q ∈ group st → q ∈ group (foldl (visitNeighbor g (Some v)) st nbrs)).
Proof.
  induction nbrs as [|n nbrs IH]; intros st Hinv Hcurr Hnb; simpl.
  { split; [done|]. split; [done|]. split; [|by split].
    intros n Hn. by apply elem_of_nil in Hn. }
  destruct (visitNeighbor_inv prog st curr n Hinv Hcurr) as (H1 & H2 & H3 & H4 & H5).
  { apply Hnb, list_elem_of_here. }
  destruct (IH (visitNeighbor g (Some v) st n) H1 (H5 _ Hcurr)) as (I1 & I2 & I3 & I4 & I5).
  { intros m Hm. by apply Hnb, list_elem_of_further. }
  split; [done|]. split; [set_solver|]. split; [|split].
  - intros m [->|Hm]%elem_of_cons Hc; [|by apply I3]. apply I2. by apply H3.
  - lia.
  - intros q Hq. by apply I5, H5.
Qed.

Lemma bfsInv_group_bound prog st :
  bfsInv g v p V prog st → (length (group st) ≤ 180)%nat.
Proof.
  intros Hinv. apply valid_list_bound; [apply Hinv|].
  intros q Hq. by apply (inv_sound _ _ _ _ _ _ Hinv).
Qed.

Lemma bfsLoop_inv fuel : ∀ st,
  bfsInv g v p V [] st →
  (length (queue st) + 180 < fuel + length (group st))%nat →
  bfsInv g v p V [] (bfsLoop fuel g (Some v) st)
  ∧ queue (bfsLoop fuel g (Some v) st) = [].
Proof.
  induction fuel as [|fuel IH]; intros st Hinv Hfuel.
  { pose proof (bfsInv_group_bound _ _ Hinv). lia. }
  simpl. destruct (queue st) as [|curr rest] eqn:Hq; [done|].
  destruct Hinv as [Hloc Hglob Hnd Hfresh Hsound Hqueue Hdone Hstart].
  assert (curr ∈ group st) as Hcurr.
  { apply Hqueue. rewrite Hq. apply list_elem_of_here. }
  set (st0 := MkBfs rest (group st) (visitedLocal st) (seenGlobal st)).
  assert (bfsInv g v p V [curr] st0) as Hinv0.
  { split; simpl; try done.
    - intros q Hin. apply Hqueue. rewrite Hq. by apply list_elem_of_further.
    - intros q Hin. destruct (Hdone q Hin) as [H|[H|H]].
      + rewrite Hq in H. apply elem_of_cons in H as [->|H].
        * right. left. apply list_elem_of_here.
        * by left.
      + by apply elem_of_nil in H.
      + by right; right. }
  destruct (visitFold_inv [curr] curr (getNeighbors (pr curr) (pc curr)) st0 Hinv0 Hcurr)
    as (I1 & I2 & I3 & I4 & I5); [done|].
  apply IH.
  - destruct I1 as [Jloc Jglob Jnd Jfresh Jsound Jqueue Jdone Jstart].
    split; try done.
    intros q Hin. destruct (Jdone q Hin) as [H|[H|H]]; [by left| |by right; right].
    apply list_elem_of_singleton in H as ->.
    right. right. intros b (Hcv & Hb & Hcol). apply I3; [done|].
    rewrite <- Hcol. by apply Hsound.
  - simpl in I4. rewrite ?Hq in Hfuel. simpl in Hfuel. lia.
Qed.

Hypothesis Hp : validPos p.
Hypothesis Hv : getCell g (pr p) (pc p) = Some v.
Hypothesis Hclosed : closedSet g V.
Hypothesis HpV : p ∉ V.

Lemma bfsStart_inv : bfsInv g v p V [] (bfsStart (pr p) (pc p) V).
Proof.
  assert (Pos (pr p) (pc p) = p) as Hpp by (by destruct p).
  unfold bfsStart. rewrite Hpp. split; simpl.
  - set_solver.
  - set_solver.
  - apply NoDup_singleton.
  - intros q Hq%list_elem_of_singleton. by subst.
  - intros q Hq%list_elem_of_singleton. subst. split; [done|]. split; [done|].
    apply rtc_refl.
  - done.
  - intros q Hq. by left.
  - apply list_elem_of_here.
Qed.

(** The search returns exactly the cells connected to [p], each once, adds
    them to the visited set, and leaves that set closed; the loop ends
    with an empty queue before the fuel runs out. *)
Lemma getConnectedGroup_spec :
  queue (bfsLoop bfsFuel g (Some v) (bfsStart (pr p) (pc p) V)) = []
  ∧ NoDup (getConnectedGroup (pr p) (pc p) g V).1
  ∧ (∀ q, q ∈ (getConnectedGroup (pr p) (pc p) g V).1 ↔ connected g p q)
  ∧ (∀ q, q ∈ (getConnectedGroup (pr p) (pc p) g V).2
          ↔ q ∈ V ∨ q ∈ (getConnectedGroup (pr p) (pc p) g V).1)
  ∧ (∀ q, q ∈ (getConnectedGroup (pr p) (pc p) g V).1 → q ∉ V)
  ∧ closedSet g (getConnectedGroup (pr p) (pc p) g V).2.
Proof.
  unfold getConnectedGroup. rewrite Hv. cbn [fst snd].
  destruct (bfsLoop_inv bfsFuel (bfsStart (pr p) (pc p) V) bfsStart_inv) as [Hinv Hq].
  { change bfsFuel with 181%nat. unfold bfsStart. cbn [queue group length]. lia. }
  set (st := bfsLoop bfsFuel g (Some v) (bfsStart (pr p) (pc p) V)) in *.
  destruct Hinv as [Hloc Hglob Hnd Hfresh Hsound Hqueue Hdone Hstart].
  assert (∀ q b, q ∈ group st → sameColorAdj g q b → b ∈ group st) as Hstep.
  { intros q b Hin Hadj. destruct (Hdone q Hin) as [H|[H|H]].
    - rewrite Hq in H. by apply elem_of_nil in H.
    - by apply elem_of_nil in H.
    - specialize (H b Hadj). rewrite Hglob in H.
      apply elem_of_union in H as [H|H]; [|by apply elem_of_list_to_set in H].
      exfalso. apply (Hfresh q Hin).
      eapply Hclosed; [exact H|]. by apply sameColorAdj_sym. }
  assert (∀ a b, connected g a b → a ∈ group st → b ∈ group st) as Hreach.
  { clear -Hstep. intros a b Hc. induction Hc as [|a b c Hab _ IH]; [done|].
    intros Ha. apply IH. by eapply Hstep. }
  split; [done|]. split; [done|]. split; [|split; [|split]].
  - intros q. split; [by apply Hsound|]. intros Hc. by eapply Hreach.
  - intros q. rewrite Hglob. rewrite elem_of_union, elem_of_list_to_set. done.
  - done.
  - intros a b Ha Hab. rewrite Hglob in *.
    apply elem_of_union in Ha as [Ha|Ha]; apply elem_of_union.
    + left. by eapply Hclosed.
    + right. apply elem_of_list_to_set. apply elem_of_list_to_set in Ha.
      by eapply Hstep.
Qed.

End BfsProof.

(** ** Clearing cells *)

Lemma elem_of_concat {A} (x : A) (ls : list (list A)) :
  x ∈ concat ls ↔ ∃ l, l ∈ ls ∧ x ∈ l.
Proof.
  induction ls as [|l ls IH]; simpl.
  - split; [by intros H%elem_of_nil|]. intros (l & Hl & _). by apply elem_of_nil in Hl.
  - rewrite elem_of_app, IH. split.
    + intros [H|(l' & Hl' & H)].
      * exists l. split; [apply list_elem_of_here|done].
      * exists l'. split; [by apply list_elem_of_further|done].
    + intros (l' & [->|Hl']%elem_of_cons & H); [by left|]. right. by exists l'.
Qed.

Lemma clearCells_snoc g L q :
  clearCells g (L ++ [q]) = setCell (clearCells g L) (pr q) (pc q) EMPTY.
Proof. unfold clearCells. by rewrite foldl_app. Qed.

Lemma clearCells_app g L1 L2 :
  clearCells g (L1 ++ L2) = clearCells (clearCells g L1) L2.
Proof. unfold clearCells. by rewrite foldl_app. Qed.

Lemma wf_clearCells g L : wf_grid g → wf_grid (clearCells g L).
Proof.
  intros Hwf. induction L as [|q L IH] using rev_ind; [done|].
  rewrite clearCells_snoc. by apply wf_setCell.
Qed.

Lemma getCell_clearCells_notin g L p :
  (∀ q, q ∈ L → validPos q) → p ∉ L →
  getCell (clearCells g L) (pr p) (pc p) = getCell g (pr p) (pc p).
Proof.
  induction L as [|q L IH] using rev_ind; [done|].
  intros Hval Hp. rewrite clearCells_snoc.
  assert (validPos q) as [Hq1 Hq2] by (apply Hval, elem_of_app; right; apply list_elem_of_here).
  rewrite getCell_setCell_ne; [|lia|lia|].
  - apply IH.
    + intros q' Hq'. apply Hval, elem_of_app. by left.
    + intros Hin. apply Hp, elem_of_app. by left.
  - intros Heq. apply Hp, elem_of_app. right.
    destruct p, q. simpl in *. injection Heq as -> ->. apply list_elem_of_here.
Qed.

Lemma getCell_clearCells_in g L p :
  wf_grid g → (∀ q, q ∈ L → validPos q) → p ∈ L →
  getCell (clearCells g L) (pr p) (pc p) = Some EMPTY.
Proof.
  intros Hwf. induction L as [|q L IH] using rev_ind.
  { intros _ Hp. by apply elem_of_nil in Hp. }
  intros Hval Hp. rewrite clearCells_snoc.
  assert (validPos q) as Hq by (apply Hval, elem_of_app; right; apply list_elem_of_here).
  destruct (decide (p = q)) as [->|Hne].
  - apply getCell_setCell_eq; [by apply wf_clearCells|by destruct q].
  - rewrite getCell_setCell_ne; [|apply Hq|apply Hq|].
    + apply IH.
      * intros q' Hq'. apply Hval, elem_of_app. by left.
      * apply elem_of_app in Hp as [Hp|Hp%list_elem_of_singleton]; done.
    + intros Heq. apply Hne. destruct p, q. simpl in *. by injection Heq as -> ->.
Qed.

(** ** The scan that collects the groups *)

Lemma Pos_eta p : Pos (pr p) (pc p) = p.
Proof. by destruct p. Qed.

Lemma groupsCell_inv g done st p :
  wf_grid g → validPos p →
  groupsInv g done st → groupsInv g (done ++ [p]) (groupsCell g st p).
Proof.
  intros Hwf Hp [Hcl Hun Hgr Hdis Hcov]. unfold groupsCell.
  destruct (getCell_valid g p Hwf Hp) as [v Hv].
  destruct (bool_decide (getCell g (pr p) (pc p) = Some EMPTY)
            || bool_decide (p ∈ st.1)) eqn:Hcond.
  - split; try done.
    intros q w [Hq|Hq%list_elem_of_singleton]%elem_of_app Hw Hne; [by eapply Hcov|].
    subst q. apply orb_true_iff in Hcond as [Hc|Hc]; apply bool_decide_eq_true in Hc.
    + congruence.
    + done.
  - apply orb_false_iff in Hcond as [Hc1 Hc2].
    apply bool_decide_eq_false in Hc1, Hc2.
    assert (v ≠ EMPTY) as Hne by congruence.
    pose proof (getConnectedGroup_spec g v p st.1 Hp Hv Hcl Hc2)
      as (_ & Gnd & Gconn & Gvis & Gfresh & Gcl).
    destruct (GroupFirst.getConnectedGroup (pr p) (pc p) g st.1) as [G V'].
    simpl in *. split; simpl.
    + done.
    + intros q. rewrite Gvis, Hun. split.
      * intros [(G' & HG' & Hq)|Hq].
        -- exists G'. split; [|done]. apply elem_of_app. by left.
        -- exists G. split; [|done]. apply elem_of_app. right. apply list_elem_of_here.
      * intros (G' & [HG'|HG'%list_elem_of_singleton]%elem_of_app & Hq).
        -- left. by exists G'.
        -- right. by subst.
    + apply Forall_app. split; [done|]. apply Forall_singleton.
      split; [done|]. exists p, v. split; [apply Gconn, rtc_refl|]. done.
    + rewrite concat_app. simpl. rewrite app_nil_r.
      apply NoDup_app. split; [done|]. split; [|done].
      intros q Hq HqG. apply (Gfresh q HqG). apply Hun.
      by apply elem_of_concat in Hq.
    + intros q w [Hq|Hq%list_elem_of_singleton]%elem_of_app Hw Hwne.
      * apply Gvis. left. by eapply Hcov.
      * subst q. apply Gvis. right. apply Gconn, rtc_refl.
Qed.

Lemma groupsRun_snoc g cells p :
  groupsRun g (cells ++ [p]) = groupsCell g (groupsRun g cells) p.
Proof. unfold groupsRun. by rewrite foldl_app. Qed.

Lemma groupsRun_inv g cells :
  wf_grid g → Forall validPos cells → groupsInv g cells (groupsRun g cells).
Proof.
  intros Hwf. induction cells as [|p cells IH] using rev_ind.
  - intros _. split; simpl; try done.
    + intros q. split; [set_solver|]. intros (G & HG & _). by apply elem_of_nil in HG.
    + apply NoDup_nil_2.
    + intros q v Hq. by apply elem_of_nil in Hq.
  - intros Hall. apply Forall_app in Hall as [Hcells Hp].
    apply Forall_cons in Hp as [Hp _].
    rewrite groupsRun_snoc. apply groupsCell_inv; auto.
Qed.

Lemma boardCells_valid : Forall validPos boardCells.
Proof. apply Forall_forall. intros p Hp. by apply elem_of_boardCells. Qed.

(** The groups met by the scan are the maximal connected groups of balls
    of one colour: each is one, they are pairwise disjoint, and every ball
    of the board is in one of them. *)
Lemma foundGroups_spec g :
  wf_grid g →
  Forall (isGroup g) (foundGroups g)
  ∧ NoDup (concat (foundGroups g))
  ∧ ∀ q v, validPos q → getCell g (pr q) (pc q) = Some v → v ≠ EMPTY →
           ∃ G, G ∈ foundGroups g ∧ q ∈ G.
Proof.
  intros Hwf. unfold foundGroups.
  destruct (groupsRun_inv g boardCells Hwf boardCells_valid) as [Hcl Hun Hgr Hdis Hcov].
  split; [done|]. split; [done|].
  intros q v Hq Hv Hne. apply Hun. eapply Hcov; [|done..].
  by apply elem_of_boardCells.
Qed.

(** ** The search does not read visited cells *)

Lemma visitNeighbor_agree g1 g2 color st n :
  (∀ q, q ∉ GroupFirst.seenGlobal st →
        getCell g1 (pr q) (pc q) = getCell g2 (pr q) (pc q)) →
  GroupFirst.visitNeighbor g1 color st n = GroupFirst.visitNeighbor g2 color st n.
Proof.
  intros Hag. unfold GroupFirst.visitNeighbor.
  destruct (decide (n ∈ GroupFirst.seenGlobal st)) as [Hin|Hout].
  - rewrite (bool_decide_eq_false_2 (n ∉ GroupFirst.seenGlobal st)); [done|].
    by intros H.
  - by rewrite (Hag n Hout).
Qed.

Lemma visitNeighbor_seen_mono g color st n :
  GroupFirst.seenGlobal st ⊆ GroupFirst.seenGlobal (GroupFirst.visitNeighbor g color st n).
Proof.
  unfold GroupFirst.visitNeighbor. case_match; simpl; set_solver.
Qed.

Lemma visitFold_agree g1 g2 color nbrs : ∀ st,
  (∀ q, q ∉ GroupFirst.seenGlobal st →
        getCell g1 (pr q) (pc q) = getCell g2 (pr q) (pc q)) →
  foldl (GroupFirst.visitNeighbor g1 color) st nbrs
  = foldl (GroupFirst.visitNeighbor g2 color) st nbrs
  ∧ GroupFirst.seenGlobal st
    ⊆ GroupFirst.seenGlobal (foldl (GroupFirst.visitNeighbor g2 color) st nbrs).
Proof.
  induction nbrs as [|n nbrs IH]; intros st Hag; simpl; [done|].
  rewrite (visitNeighbor_agree g1 g2 color st n Hag).
  pose proof (visitNeighbor_seen_mono g2 color st n) as Hmono.
  destruct (IH (GroupFirst.visitNeighbor g2 color st n)) as [IH1 IH2].
  { intros q Hq. apply Hag. set_solver. }
  split; [done|]. set_solver.
Qed.

Lemma bfsLoop_agree fuel g1 g2 color : ∀ st,
  (∀ q, q ∉ GroupFirst.seenGlobal st →
        getCell g1 (pr q) (pc q) = getCell g2 (pr q) (pc q)) →
  GroupFirst.bfsLoop fuel g1 color st = GroupFirst.bfsLoop fuel g2 color st.
Proof.
  induction fuel as [|fuel IH]; intros st Hag; simpl; [done|].
  destruct (GroupFirst.queue st) as [|curr rest]; [done|].
  set (st0 := GroupFirst.MkBfs rest (GroupFirst.group st)
                (GroupFirst.visitedLocal st) (GroupFirst.seenGlobal st)).
  destruct (visitFold_agree g1 g2 color (getNeighbors (pr curr) (pc curr)) st0 Hag)
    as [Heq Hmono].
  rewrite Heq. apply IH. intros q Hq. apply Hag. set_solver.
Qed.

Lemma getConnectedGroup_agree g1 g2 p V :
  (∀ q, q ∉ V → getCell g1 (pr q) (pc q) = getCell g2 (pr q) (pc q)) →
  p ∉ V →
  GroupFirst.getConnectedGroup (pr p) (pc p) g1 V
  = GroupFirst.getConnectedGroup (pr p) (pc p) g2 V.
Proof.
  intros Hag Hp. unfold GroupFirst.getConnectedGroup.
  rewrite (Hag p Hp).
  rewrite (bfsLoop_agree _ g1 g2); [done|].
  intros q Hq. apply Hag. unfold GroupFirst.bfsStart in Hq. simpl in Hq. set_solver.
Qed.

Lemma classify_grid groupSet g1 g2 :
  GroupFirst.classify groupSet g1 = GroupFirst.classify groupSet g2.
Proof. reflexivity. Qed.

Lemma sumZ_app l1 l2 : sumZ (l1 ++ l2) = sumZ l1 + sumZ l2.
Proof. unfold sumZ. induction l1 as [|a l1 IH]; simpl; lia. Qed.

(** ** The scan of [GroupFirst.checkMatches] *)

Lemma groupsInv_valid g done st G q :
  groupsInv g done st → G ∈ st.2 → q ∈ G → validPos q.
Proof.
  intros Hinv HG Hq. pose proof (ginv_groups _ _ _ Hinv) as Hgr.
  rewrite Forall_forall in Hgr.
  destruct (Hgr G HG) as (_ & s & v & Hs & Hsv & _ & _ & Hconn).
  apply Hconn in Hq. by eapply connected_valid.
Qed.

Lemma matchCell_matchStateOf g done st p :
  wf_grid g → validPos p → groupsInv g done st →
  GroupFirst.matchCell (matchStateOf g st) p = matchStateOf g (groupsCell g st p).
Proof.
  intros Hwf Hp Hinv. unfold GroupFirst.matchCell, groupsCell.
  set (Es := filter eligible st.2).
  assert (∀ q, q ∈ concat Es → validPos q) as Hval.
  { intros q (G & HG & Hq)%elem_of_concat.
    apply list_elem_of_filter in HG as [_ HG]. by eapply groupsInv_valid. }
  assert (∀ q, q ∉ st.1 →
            getCell (clearCells g (concat Es)) (pr q) (pc q) = getCell g (pr q) (pc q))
    as Hag.
  { intros q Hq. apply getCell_clearCells_notin; [done|].
    intros (G & HG & HqG)%elem_of_concat. apply Hq.
    apply (ginv_union _ _ _ Hinv). exists G. split; [|done].
    by apply list_elem_of_filter in HG as [_ HG]. }
  change (GroupFirst.nextGrid (matchStateOf g st)) with (clearCells g (concat Es)).
  change (GroupFirst.visitedGlobal (matchStateOf g st)) with st.1.
  destruct (decide (p ∈ st.1)) as [Hin|Hout].
  { rewrite (bool_decide_eq_true_2 (p ∈ st.1) Hin), !orb_true_r. done. }
  rewrite (Hag p Hout).
  destruct (bool_decide (getCell g (pr p) (pc p) = Some EMPTY) || bool_decide (p ∈ st.1));
    [done|].
  rewrite (getConnectedGroup_agree _ g p st.1 Hag Hout).
  destruct (GroupFirst.getConnectedGroup (pr p) (pc p) g st.1) as [G V'].
  unfold matchStateOf. cbn [fst snd].
  rewrite filter_app. fold Es.
  destruct (6 <=? length G)%nat eqn:Hlen.
  - apply Nat.leb_le in Hlen.
    rewrite (filter_cons_True eligible G []) by done. rewrite filter_nil.
    rewrite (classify_grid _ (clearCells g (concat Es)) g).
    destruct (GroupFirst.classify (list_to_set G) g) as [[pts name] prio] eqn:Hcl.
    rewrite foldl_app. cbn [foldl].
    assert (comboStep g (foldl (comboStep g) (EmptyString, -1) Es) G
            = if (foldl (comboStep g) (EmptyString, -1) Es).2 <? prio
              then (name, prio) else foldl (comboStep g) (EmptyString, -1) Es) as ->.
    { unfold comboStep at 1. by rewrite Hcl. }
    cbn [GroupFirst.nextGrid GroupFirst.totalPoints GroupFirst.visitedGlobal
         GroupFirst.maxComboName GroupFirst.maxPriority].
    rewrite concat_app, clearCells_app. simpl concat. rewrite app_nil_r.
    rewrite fmap_app, sumZ_app.
    replace (sumZ (groupScore g <$> [G]))
      with (Z.of_nat (length G) * 100 + (Z.of_nat (length G) - 6) * 50 + pts)
      by (cbn [fmap list_fmap sumZ foldr]; unfold groupScore; rewrite Hcl;
          cbn [fst snd]; lia).
    by destruct ((foldl (comboStep g) (EmptyString, -1) Es).2 <? prio).
  - apply Nat.leb_gt in Hlen.
    rewrite (filter_cons_False eligible G []) by (unfold eligible; lia).
    rewrite filter_nil, app_nil_r. done.
Qed.

Lemma matchRun_snoc g cells p :
  GroupFirst.matchRun g (cells ++ [p])
  = GroupFirst.matchCell (GroupFirst.matchRun g cells) p.
Proof. unfold GroupFirst.matchRun. by rewrite foldl_app. Qed.

Lemma matchRun_eq g cells :
  wf_grid g → Forall validPos cells →
  GroupFirst.matchRun g cells = matchStateOf g (groupsRun g cells).
Proof.
  intros Hwf. induction cells as [|p cells IH] using rev_ind; [done|].
  intros Hall. apply Forall_app in Hall as [Hcells Hp].
  apply Forall_cons in Hp as [Hp _].
  rewrite matchRun_snoc, groupsRun_snoc, (IH Hcells).
  eapply matchCell_matchStateOf; [done..|]. by apply groupsRun_inv.
Qed.

Lemma matchStateOf_fields g st :
  GroupFirst.nextGrid (matchStateOf g st) = clearCells g (concat (filter eligible st.2))
  ∧ GroupFirst.totalPoints (matchStateOf g st)
    = sumZ (groupScore g <$> filter eligible st.2)
  ∧ GroupFirst.maxComboName (matchStateOf g st)
    = (foldl (comboStep g) (EmptyString, -1) (filter eligible st.2)).1.
Proof. done. Qed.

(** [checkMatches] clears the eligible groups and adds up their scores. *)
Lemma checkMatches_eq g :
  wf_grid g →
  mGrid (GroupFirst.checkMatches g) = clearCells g (concat (eligibleGroups g))
  ∧ points (GroupFirst.checkMatches g) = sumZ (groupScore g <$> eligibleGroups g)
  ∧ combo (GroupFirst.checkMatches g)
    = (if String.eqb (foldl (comboStep g) (EmptyString, -1) (eligibleGroups g)).1 ""
       then None
       else Some (foldl (comboStep g) (EmptyString, -1) (eligibleGroups g)).1).
Proof.
  intros Hwf. unfold GroupFirst.checkMatches.
  rewrite (matchRun_eq g boardCells Hwf boardCells_valid).
  cbn [mGrid points combo].
  destruct (matchStateOf_fields g (groupsRun g boardCells)) as (-> & -> & ->).
  unfold eligibleGroups, foundGroups.
  split; [reflexivity|]. split; reflexivity.
Qed.

(** ** What [GroupFirst.checkMatches] clears and scores *)

(** From here on the scan is used through [foundGroups_spec] and
    [checkMatches_eq] only. *)
Opaque foundGroups.

Lemma eligibleGroups_spec g G :
  wf_grid g → G ∈ eligibleGroups g →
  isGroup g G ∧ (6 ≤ length G)%nat ∧ ∀ q, q ∈ G → validPos q.
Proof.
  intros Hwf HG. unfold eligibleGroups in HG.
  rewrite list_elem_of_filter in HG. destruct HG as [Hel HG].
  destruct (foundGroups_spec g Hwf) as (Hgr & _ & _).
  rewrite Forall_forall in Hgr. specialize (Hgr G HG).
  split; [done|]. split; [done|].
  destruct Hgr as (_ & s & v & _ & Hs & _ & _ & Hconn).
  intros q Hq. apply Hconn in Hq. by eapply connected_valid.
Qed.

Lemma isGroup_members g G p q :
  isGroup g G → p ∈ G → q ∈ G →
  connected g p q ∧ getCell g (pr q) (pc q) = getCell g (pr p) (pc p).
Proof.
  intros (_ & s & v & _ & _ & _ & _ & Hconn) Hp Hq.
  apply Hconn in Hp, Hq.
  assert (connected g p q) as Hpq.
  { etransitivity; [|exact Hq]. by apply connected_sym. }
  split; [done|]. symmetry. by apply connected_color.
Qed.

(** After the pass a cell of the board is empty if it lies in an eligible
    group, and holds what it held otherwise. *)
Lemma checkMatches_cell g p :
  wf_grid g →
  (p ∈ concat (eligibleGroups g) →
   getCell (mGrid (GroupFirst.checkMatches g)) (pr p) (pc p) = Some EMPTY)
  ∧ (p ∉ concat (eligibleGroups g) →
     getCell (mGrid (GroupFirst.checkMatches g)) (pr p) (pc p) = getCell g (pr p) (pc p)).
Proof.
  intros Hwf. destruct (checkMatches_eq g Hwf) as (-> & _ & _).
  assert (∀ q, q ∈ concat (eligibleGroups g) → validPos q) as Hval.
  { intros q (G & HG & Hq)%elem_of_concat.
    by apply (eligibleGroups_spec g G Hwf HG). }
  split; intros Hp.
  - by apply getCell_clearCells_in.
  - by apply getCell_clearCells_notin.
Qed.




(** ** Scoring of the group-first detector *)

Lemma classify_cases G g :
  GroupFirst.classify (list_to_set G) g =
    if isHexagon G then (1000, "ヘキサゴン！"%string, 3)
    else if isPyramid G then (800, "ピラミッド！"%string, 2)
    else if isStraight G then (500, "ストレート！"%string, 1)
    else (0, "マッチ！"%string, 0).
Proof. reflexivity. Qed.

Lemma classify_bonus G g :
  (GroupFirst.classify (list_to_set G) g).1.1 = highestBonus G.
Proof.
  rewrite classify_cases. unfold highestBonus.
  by destruct (isHexagon G), (isPyramid G), (isStraight G).
Qed.

Lemma highestBonus_table G : highestBonus G ∈ [0; 500; 800; 1000].
Proof.
  unfold highestBonus.
  destruct (isHexagon G), (isPyramid G), (isStraight G); simpl;
    rewrite !elem_of_cons; auto 6.
Qed.

Lemma groupScore_eligible g G :
  (6 ≤ length G)%nat →
  groupScore g G = basePoints (Z.of_nat (length G)) + highestBonus G.
Proof.
  intros Hlen. unfold groupScore, basePoints. rewrite classify_bonus. lia.
Qed.

Lemma sumZ_ext {A} (f h : A → Z) (l : list A) :
  (∀ a, a ∈ l → f a = h a) → sumZ (f <$> l) = sumZ (h <$> l).
Proof.
  induction l as [|a l IH]; intros Heq; [done|].
  cbn [fmap list_fmap sumZ foldr]. fold (sumZ (f <$> l)). fold (sumZ (h <$> l)).
  rewrite (Heq a) by apply list_elem_of_here.
  rewrite IH; [done|]. intros b Hb. by apply Heq, list_elem_of_further.
Qed.

Lemma isGroup_same_members g G G' s :
  isGroup g G → isGroup g G' → s ∈ G → s ∈ G' → ∀ q, q ∈ G ↔ q ∈ G'.
Proof.
  intros HG HG' Hs Hs' q. split; intros Hq.
  - destruct (isGroup_members g G s q HG Hs Hq) as [Hc _].
    destruct HG' as (_ & t & v & _ & _ & _ & _ & Hconn).
    apply Hconn. etransitivity; [|exact Hc]. by apply Hconn.
  - destruct (isGroup_members g G' s q HG' Hs' Hq) as [Hc _].
    destruct HG as (_ & t & v & _ & _ & _ & _ & Hconn).
    apply Hconn. etransitivity; [|exact Hc]. by apply Hconn.
Qed.

(** Every maximal group of six or more is met by the scan. *)
Lemma eligibleGroups_complete g G' :
  wf_grid g → isGroup g G' → (6 ≤ length G')%nat →
  ∃ G, G ∈ eligibleGroups g ∧ ∀ q, q ∈ G ↔ q ∈ G'.
Proof.
  intros Hwf HG' Hlen.
  pose proof HG' as (Hnd' & s & v & Hs & Hsv & Hv & Hne & Hconn).
  destruct (foundGroups_spec g Hwf) as (Hgr & _ & Hcov).
  destruct (Hcov s v Hsv Hv Hne) as (G & HG & HsG).
  rewrite Forall_forall in Hgr. pose proof (Hgr G HG) as HGg.
  pose proof (isGroup_same_members g G G' s HGg HG' HsG Hs) as Hsame.
  exists G. split; [|done].
  unfold eligibleGroups. apply list_elem_of_filter. split; [|done].
  unfold eligible. rewrite (Permutation_length (l:=G) (l':=G')); [done|].
  apply NoDup_Permutation; [apply HGg|done|done].
Qed.




(** ** The centre of a hexagon *)






(** * Further properties of the code *)

(** ** Geometry *)

Lemma length_filter_all {A} (P : A → Prop) `{∀ a, Decision (P a)} (l : list A) :
  length (filter P l) = length l ↔ Forall P l.
Proof.
  induction l as [|a l IH].
  - split; [constructor|done].
  - rewrite filter_cons. pose proof (length_filter P l) as Hle.
    case_decide as Ha; simpl.
    + rewrite Forall_cons. split.
      * intros Hl. split; [done|]. apply IH. lia.
      * intros [_ Hl]. f_equal. by apply IH.
    + rewrite Forall_cons. split; [lia|]. by intros [? _].
Qed.

Ltac nodup_positions :=
  repeat (apply NoDup_cons; split;
          [ (rewrite ?elem_of_cons, elem_of_nil;
             let H := fresh in
             (intros H; repeat (destruct H as [H|H]); try done; injection H; lia))
          | ]);
  apply NoDup_nil_2.

(** X1. [getNeighbors] never lists a cell twice and never lists the cell
    itself; it returns all six neighbours exactly for the cells that are
    not on the border of the board (rows 1 to TOTAL_ROWS - 2, columns 1 to
    COLS - 2): these are the only cells that can be the centre of a
    hexagon. *)
Theorem getNeighbors_six_iff_interior r c :
  NoDup (getNeighbors r c)
  ∧ (Pos r c ∉ getNeighbors r c)
  ∧ (length (getNeighbors r c) = 6%nat
     ↔ 1 ≤ r ≤ TOTAL_ROWS - 2 ∧ 1 ≤ c ≤ COLS - 2).
Proof.
  split; [|split].
  - rewrite getNeighbors_filter. apply NoDup_filter.
    unfold neighborOffsets. destruct (isOddRow r); simpl; nodup_positions.
  - rewrite elem_of_getNeighbors. simpl. intros [_ H].
    destruct (Z.odd r); lia.
  - rewrite getNeighbors_filter.
    assert (length ((λ o, Pos (r + o.1) (c + o.2)) <$> neighborOffsets r) = 6%nat) as Hsix.
    { rewrite length_fmap. unfold neighborOffsets. by destruct (isOddRow r). }
    rewrite <- Hsix at 1. rewrite length_filter_all.
    unfold neighborOffsets, validPos, TOTAL_ROWS, VISIBLE_ROWS, HIDDEN_ROWS, COLS.
    destruct (isOddRow r); simpl; rewrite !Forall_cons; simpl; split.
    + intros (H1 & H2 & H3 & H4 & H5 & H6 & _). lia.
    + intros H. repeat split; try lia; apply Forall_nil_2.
    + intros (H1 & H2 & H3 & H4 & H5 & H6 & _). lia.
    + intros H. repeat split; try lia; apply Forall_nil_2.
Qed.

(** X2. The two "down" neighbours and the two "up" neighbours mirror each
    other ([d] is below [p] exactly when [p] is above [d]), and those that
    lie on the board are among the six neighbours of [getNeighbors]: a
    falling ball moves to an adjacent cell, one row down. *)
Theorem bottom_top_neighbors_adjacent p d :
  (d ∈ getBottomNeighbors (pr p) (pc p) ↔ p ∈ getTopNeighbors (pr d) (pc d))
  ∧ (d ∈ getBottomNeighbors (pr p) (pc p) → pr d = pr p + 1)
  ∧ (validPos d → d ∈ getBottomNeighbors (pr p) (pc p) →
     d ∈ getNeighbors (pr p) (pc p))
  ∧ (validPos d → d ∈ getTopNeighbors (pr p) (pc p) →
     d ∈ getNeighbors (pr p) (pc p)).
Proof.
  assert (∀ a b : Position, a = b ↔ pr a = pr b ∧ pc a = pc b) as Heq.
  { intros [] []; simpl. split; [by intros [= -> ->]|by intros [-> ->]]. }
  assert (∀ r, Z.odd (r + 1) = negb (Z.odd r)) as Hodd by (intros; by rewrite Z.odd_add).
  assert (∀ r, Z.odd (r - 1) = negb (Z.odd r)) as Hodd' by (intros; by rewrite Z.odd_sub).
  unfold getBottomNeighbors, getTopNeighbors. rewrite !isOddRow_odd.
  split; [|split; [|split]].
  - destruct (Z.odd (pr p)) eqn:Hp, (Z.odd (pr d)) eqn:Hd;
      rewrite !elem_of_cons, !elem_of_nil, !Heq; simpl; split;
      intros [H|[H|[]]]; try lia;
      try (destruct H as [Hr Hc]; exfalso;
           first [rewrite Hr, Hodd, Hp in Hd
                 |assert (pr p = pr d - 1) as Hr' by lia;
                  rewrite Hr', Hodd', Hd in Hp]; done).
  - destruct (Z.odd (pr p)); rewrite !elem_of_cons, !elem_of_nil, !Heq; simpl;
      intros [H|[H|[]]]; lia.
  - intros Hv. rewrite elem_of_getNeighbors.
    destruct (Z.odd (pr p)); rewrite !elem_of_cons, !elem_of_nil, !Heq; simpl;
      intros [H|[H|[]]]; (split; [done|right; lia]).
  - intros Hv. rewrite elem_of_getNeighbors.
    destruct (Z.odd (pr p)); rewrite !elem_of_cons, !elem_of_nil, !Heq; simpl;
      intros [H|[H|[]]]; (split; [done|right; lia]).
Qed.

Lemma bottom_top_neighbors_adjacent_witness :
  Pos 6 3 ∈ getNeighbors 5 3.
Proof.
  apply (proj1 (proj2 (proj2 (bottom_top_neighbors_adjacent (Pos 5 3) (Pos 6 3))))).
  - vm_compute. intuition discriminate.
  - vm_compute. apply list_elem_of_here.
Defined.

(** ** The piece controller *)

Lemma ballCollides_false g px py b :
  ballCollides g px py b = false ↔
    pr (ballCell px py b) < TOTAL_ROWS
    ∧ 0 ≤ pc (ballCell px py b) < COLS
    ∧ (0 ≤ pr (ballCell px py b) →
       getCell g (pr (ballCell px py b)) (pc (ballCell px py b)) = Some EMPTY).
Proof.
  unfold ballCollides, ballCell. cbn [pr pc].
  set (r := Qfloor (py + dy b + (1 # 2))).
  set (c := Qfloor (px + dx b - (if isOddRow r then 1 # 2 else 0))).
  destruct (r >=? TOTAL_ROWS) eqn:E1; [split; [done|lia]|].
  destruct (c <? 0) eqn:E2; [simpl; split; [done|lia]|].
  destruct (c >=? COLS) eqn:E3; [simpl; split; [done|lia]|]. simpl.
  destruct (r >=? 0) eqn:E4; simpl.
  - destruct (bool_decide (getCell g r c = Some EMPTY)) eqn:E5; simpl.
    + apply bool_decide_eq_true in E5. split; [|done]. intros _. repeat split; try lia. done.
    + apply bool_decide_eq_false in E5. split; [done|]. intros (_ & _ & H).
      exfalso. apply E5, H. lia.
  - split; [|done]. intros _. repeat split; lia.
Qed.

Lemma checkCollision_false g px py balls :
  checkCollision g px py balls = false ↔
    ∀ b, b ∈ balls → ballCollides g px py b = false.
Proof.
  unfold checkCollision. induction balls as [|b balls IH]; simpl.
  - split; [|done]. intros _ b Hb. by apply elem_of_nil in Hb.
  - rewrite orb_false_iff, IH. split.
    + intros [Hb Hall] b' [->|Hb']%elem_of_cons; [done|by apply Hall].
    + intros Hall. split; [apply Hall, list_elem_of_here|].
      intros b' Hb'. by apply Hall, list_elem_of_further.
Qed.

(** X3. A piece that does not collide with the grid still does not
    collide after any [movePiece] or [rotatePiece] command, and the piece
    [movePiece] hands to [lockPiece] does not collide either: the
    controller never puts the piece through a wall, below the floor or
    onto a ball. *)
Theorem controller_keeps_piece_clear g prev :
  checkCollision g (x prev) (y prev) (balls prev) = false →
  (∀ ddx ddy p',
     nextPiece (movePiece g ddx ddy (Some prev)) = Some p'
     ∨ toLock (movePiece g ddx ddy (Some prev)) = Some p' →
     checkCollision g (x p') (y p') (balls p') = false)
  ∧ (∀ dir p', rotatePiece g dir (Some prev) = Some p' →
               checkCollision g (x p') (y p') (balls p') = false).
Proof.
  intros Hfree. split.
  - intros ddx ddy p'. unfold movePiece.
    set (nextX := if negb (Qeq_bool ddx 0)
                  then if negb (checkCollision g (x prev + ddx) (y prev) (balls prev))
                       then (x prev + ddx)%Q else x prev
                  else x prev).
    assert (checkCollision g nextX (y prev) (balls prev) = false) as HnextX.
    { subst nextX. destruct (negb (Qeq_bool ddx 0)); [|done].
      destruct (checkCollision g (x prev + ddx) (y prev) (balls prev)) eqn:E; done. }
    destruct (negb (Qeq_bool ddy 0)); simpl.
    2:{ intros [[= <-]|[=]]. done. }
    destruct (checkCollision g nextX (y prev + ddy) (balls prev)) eqn:E1; simpl.
    2:{ intros [[= <-]|[=]]. done. }
    destruct (Qlt_le_dec 0 ddy); simpl.
    2:{ intros [[= <-]|[=]]. done. }
    destruct (checkCollision g (nextX + (1 # 2)) (y prev + ddy) (balls prev)) eqn:E2; simpl.
    2:{ intros [[= <-]|[=]]. done. }
    destruct (checkCollision g (nextX - (1 # 2)) (y prev + ddy) (balls prev)) eqn:E3; simpl.
    2:{ intros [[= <-]|[=]]. done. }
    intros [[=]|[= <-]]. done.
  - intros dir p'. unfold rotatePiece.
    destruct (balls prev) as [|b0 [|b1 [|b2 [|b3 rest]]]] eqn:Hb;
      try (intros [= <-]; by rewrite Hb).
    set (cs := if rotationState prev =? 0
               then match dir with
                    | CW => (color b1, color b0, color b2)
                    | CCW => (color b2, color b1, color b0)
                    end
               else match dir with
                    | CW => (color b2, color b1, color b0)
                    | CCW => (color b1, color b0, color b2)
                    end).
    destruct cs as [[c0 c1] c2].
    match goal with |- context [checkCollision g (x prev) (y prev) ?nb] =>
      set (newBalls := nb) end.
    destruct (checkCollision g (x prev) (y prev) newBalls) eqn:E1.
    2:{ intros [= <-]. done. }
    destruct (checkCollision g (x prev - (1 # 2)) (y prev) newBalls) eqn:E2; simpl.
    2:{ intros [= <-]. done. }
    destruct (checkCollision g (x prev + (1 # 2)) (y prev) newBalls) eqn:E3; simpl.
    2:{ intros [= <-]. done. }
    intros [= <-]. by rewrite Hb.
Qed.

Lemma controller_keeps_piece_clear_witness :
  checkCollision emptyGrid (7 # 2) (2 + 1) (balls (spawnPiece (0, 1, 2))) = false.
Proof.
  apply (proj1 (controller_keeps_piece_clear emptyGrid (spawnPiece (0, 1, 2))
                  ltac:(vm_compute; reflexivity))
               0%Q 1%Q (MkPiece (7 # 2) (2 + 1) (balls (spawnPiece (0, 1, 2))) 0)).
  left. vm_compute. reflexivity.
Defined.

(** *** Locking *)

Lemma lockPiece_snoc g px py bs b st :
  lockPiece g (MkPiece px py (bs ++ [b]) st)
  = (if decide (validPos (ballCell px py b))
     then setCell (lockPiece g (MkPiece px py bs st))
                  (pr (ballCell px py b)) (pc (ballCell px py b)) (color b)
     else lockPiece g (MkPiece px py bs st)).
Proof.
  unfold lockPiece. cbn [x y balls]. rewrite foldl_app. cbn [foldl].
  unfold ballCell. cbn [pr pc].
  set (r := Qfloor (py + dy b + (1 # 2))).
  set (c := Qfloor (px + dx b - (if isOddRow r then 1 # 2 else 0))).
  unfold validPos. cbn [pr pc].
  destruct (r >=? 0) eqn:E1, (r <? TOTAL_ROWS) eqn:E2,
           (c >=? 0) eqn:E3, (c <? COLS) eqn:E4; simpl;
    case_decide; try done; lia.
Qed.

Lemma lockPiece_cells g px py bs st :
  wf_grid g →
  wf_grid (lockPiece g (MkPiece px py bs st))
  ∧ ∀ p, validPos p →
      (p ∉ ballCell px py <$> bs →
       getCell (lockPiece g (MkPiece px py bs st)) (pr p) (pc p) = getCell g (pr p) (pc p))
      ∧ (NoDup (ballCell px py <$> bs) → ∀ b, b ∈ bs → ballCell px py b = p →
         getCell (lockPiece g (MkPiece px py bs st)) (pr p) (pc p) = Some (color b)).
Proof.
  intros Hwf. induction bs as [|b bs IH] using rev_ind.
  { split; [done|]. intros p Hp. split; [done|]. intros _ b Hb. by apply elem_of_nil in Hb. }
  destruct IH as [IHwf IH]. rewrite lockPiece_snoc.
  rewrite fmap_app. cbn [fmap list_fmap].
  case_decide as Hq.
  - split; [by apply wf_setCell|]. intros p Hp. destruct (IH p Hp) as [IH1 IH2]. split.
    + intros Hnot. rewrite getCell_setCell_ne; [|apply Hq|apply Hq|].
      * apply IH1. intros Hin. apply Hnot, elem_of_app. by left.
      * rewrite !Pos_eta. intros ->. apply Hnot, elem_of_app. right. apply list_elem_of_here.
    + intros Hnd b' Hb' Hcell. apply NoDup_app in Hnd as (Hnd & Hdis & _).
      apply elem_of_app in Hb' as [Hb'|Hb'%list_elem_of_singleton].
      * destruct (decide (ballCell px py b = p)) as [Heq|Hne].
        -- exfalso. apply (Hdis p).
           ++ rewrite <- Hcell. by apply list_elem_of_fmap_2.
           ++ rewrite Heq. apply list_elem_of_here.
        -- rewrite getCell_setCell_ne; [by apply IH2|apply Hq|apply Hq|].
           rewrite !Pos_eta. by intros ->.
      * subst b'. rewrite <- Hcell. rewrite <- (Pos_eta (ballCell px py b)) at 2.
        by apply getCell_setCell_eq; [|rewrite Pos_eta].
  - split; [done|]. intros p Hp. destruct (IH p Hp) as [IH1 IH2]. split.
    + intros Hnot. apply IH1. intros Hin. apply Hnot, elem_of_app. by left.
    + intros Hnd b' Hb' Hcell. apply NoDup_app in Hnd as (Hnd & _ & _).
      apply elem_of_app in Hb' as [Hb'|Hb'%list_elem_of_singleton]; [by apply IH2|].
      subst b'. exfalso. apply Hq. by rewrite Hcell.
Qed.

(** X4. Locking a piece that does not collide keeps the grid 20 x 9 and
    never overwrites a ball: every cell that held a ball still holds it,
    every cell that is not the cell of a ball of the piece is unchanged,
    and (the cells of the balls being pairwise distinct) every ball whose
    row is on the board has its colour written in its cell; balls still
    above row 0 are dropped. *)
Theorem lockPiece_fills_free_cells g piece :
  wf_grid g →
  checkCollision g (x piece) (y piece) (balls piece) = false →
  wf_grid (lockPiece g piece)
  ∧ (∀ r c v, getCell g r c = Some v → v ≠ EMPTY →
              getCell (lockPiece g piece) r c = Some v)
  ∧ (∀ p, validPos p → p ∉ ballCell (x piece) (y piece) <$> balls piece →
          getCell (lockPiece g piece) (pr p) (pc p) = getCell g (pr p) (pc p))
  ∧ (NoDup (ballCell (x piece) (y piece) <$> balls piece) →
     ∀ b, b ∈ balls piece →
          (0 ≤ pr (ballCell (x piece) (y piece) b) →
           getCell (lockPiece g piece) (pr (ballCell (x piece) (y piece) b))
                   (pc (ballCell (x piece) (y piece) b)) = Some (color b))
          ∧ (pr (ballCell (x piece) (y piece) b) < 0 →
             ∀ r c, getCell (lockPiece g piece) r c = Some (color b) →
                    getCell g r c = Some (color b)
                    ∨ ∃ b', b' ∈ balls piece ∧ color b' = color b
                            ∧ ballCell (x piece) (y piece) b' = Pos r c)).
Proof.
  intros Hwf Hfree. destruct piece as [px py bs st]. cbn [x y balls] in *.
  destruct (lockPiece_cells g px py bs st Hwf) as [Hwf' Hcells].
  rewrite checkCollision_false in Hfree.
  split; [done|]. split; [|split; [|]].
  - intros r c v Hv Hne. pose proof (getCell_Some_valid g r c v Hwf Hv) as Hp.
    destruct (Hcells (Pos r c) Hp) as [H1 _]. cbn [pr pc] in H1.
    rewrite H1; [done|].
    intros (b & Hb & Hin)%list_elem_of_fmap.
    apply Hfree, ballCollides_false in Hin as (_ & _ & He).
    rewrite <- Hb in He. cbn [pr pc] in He. destruct Hp as [Hp _]. cbn [pr] in Hp.
    rewrite He in Hv by lia. congruence.
  - intros p Hp. by apply Hcells.
  - intros Hnd b Hb.
    pose proof (Hfree b Hb) as Hbc. apply ballCollides_false in Hbc as (H1 & H2 & H3).
    split.
    + intros H0. apply (Hcells (ballCell px py b)); [split; lia|done..].
    + intros Hneg r c Hrc.
      pose proof (getCell_Some_valid _ r c _ Hwf' Hrc) as Hp.
      destruct (decide (Pos r c ∈ ballCell px py <$> bs)) as [Hin|Hout].
      * right. apply list_elem_of_fmap in Hin as (b' & Hb' & Hin).
        exists b'. split; [done|]. split; [|done].
        destruct (Hcells (Pos r c) Hp) as [_ Hc]. cbn [pr pc] in Hc.
        rewrite (Hc Hnd b' Hin (eq_sym Hb')) in Hrc. congruence.
      * left. destruct (Hcells (Pos r c) Hp) as [Hc _]. cbn [pr pc] in Hc.
        by rewrite <- Hc.
Qed.

Lemma lockPiece_fills_free_cells_witness :
  getCell (lockPiece emptyGrid (MkPiece (7 # 2) 19 (balls (spawnPiece (3, 4, 5))) 0)) 19 3
  = Some 3.
Proof.
  assert (wf_grid emptyGrid) as Hwf by (apply (bool_decide_unpack _); vm_compute; exact I).
  destruct (lockPiece_fills_free_cells emptyGrid
              (MkPiece (7 # 2) 19 (balls (spawnPiece (3, 4, 5))) 0) Hwf
              ltac:(vm_compute; reflexivity)) as (_ & _ & _ & H).
  apply (H ltac:(apply (bool_decide_unpack _); vm_compute; exact I)
           (MkBall 0 0 3) ltac:(apply list_elem_of_here)).
  vm_compute. discriminate.
Defined.

(** *** Rotation *)

(** X5. Whatever the grid, [rotatePiece] leaves [y] alone, moves [x] by
    nothing or by one half to either side, and keeps the three colours
    (it only moves them between slots); either the piece is returned as it
    was (rotation refused), or the rotation state is flipped and the balls
    sit on the offsets of the new state's triangle. *)
Theorem rotatePiece_frame g dir prev :
  ∃ p', rotatePiece g dir (Some prev) = Some p'
        ∧ y p' = y prev
        ∧ (x p' = x prev ∨ x p' = (x prev - (1 # 2))%Q ∨ x p' = (x prev + (1 # 2))%Q)
        ∧ color <$> balls p' ≡ₚ color <$> balls prev
        ∧ (p' = prev
           ∨ rotationState p' = (if rotationState prev =? 0 then 1 else 0)
             ∧ (λ b, (dx b, dy b)) <$> balls p'
               = (if rotationState p' =? 0 then shape0 else shape1)).
Proof.
  unfold rotatePiece.
  destruct (balls prev) as [|b0 [|b1 [|b2 [|b3 rest]]]] eqn:Hb;
    try (exists prev; rewrite Hb; by auto 10).
  assert (∀ a b c : Z, [a; b; c] ≡ₚ [b; a; c]) as P1 by (intros; apply perm_swap).
  assert (∀ a b c : Z, [a; b; c] ≡ₚ [c; b; a]) as P2.
  { intros. etransitivity; [apply perm_swap|].
    etransitivity; [apply perm_skip, perm_swap|]. apply perm_swap. }
  destruct prev as [px py bs st]. cbn [x y balls rotationState] in *. subst bs.
  destruct (st =? 0) eqn:Hst, dir; cbn [Z.eqb];
    match goal with |- context [checkCollision g px py ?nb] =>
      destruct (checkCollision g px py nb),
               (checkCollision g (px - (1 # 2)) py nb),
               (checkCollision g (px + (1 # 2)) py nb) end;
    cbn [negb]; eexists; (split; [reflexivity|]); cbn [x y balls rotationState];
    (split; [done|]); (split; [auto|]);
    first [ split; [done|by left]
          | split; [cbn; first [apply P1 | apply P2 | symmetry; apply P1
                               | symmetry; apply P2]
                   |right; by cbn] ].
Qed.

(** X6. A rotation that took place without a kick is undone by the
    rotation in the opposite direction: if the piece (three balls on the
    offsets of its state, not colliding) comes out of [rotatePiece] with
    its state flipped and its [x] unchanged, rotating the result the other
    way gives the original piece back, colours in their original slots. *)
Theorem rotatePiece_opposite_undoes g dir prev p' c0 c1 c2 :
  (rotationState prev = 0 ∨ rotationState prev = 1) →
  balls prev = zip_with (λ o col, MkBall o.1 o.2 col)
                 (if rotationState prev =? 0 then shape0 else shape1) [c0; c1; c2] →
  checkCollision g (x prev) (y prev) (balls prev) = false →
  rotatePiece g dir (Some prev) = Some p' →
  rotationState p' ≠ rotationState prev → x p' = x prev →
  rotatePiece g (match dir with CW => CCW | CCW => CW end) (Some p') = Some prev.
Proof.
  destruct prev as [px py bs st]. cbn [x y balls rotationState].
  intros Hst Hbs Hfree Hrot Hflip Hx. subst bs.
  unfold rotatePiece in Hrot. cbn [x y balls rotationState] in Hrot.
  destruct Hst as [-> | ->], dir; cbn -[checkCollision] in Hrot, Hfree;
    match type of Hrot with context [checkCollision g px py ?nb] =>
      destruct (checkCollision g px py nb) eqn:E1;
      [destruct (checkCollision g (px - (1 # 2)) py nb) eqn:E2;
       [destruct (checkCollision g (px + (1 # 2)) py nb) eqn:E3|]|] end;
    cbn -[checkCollision] in Hrot; injection Hrot as <-;
    cbn [x rotationState] in Hflip, Hx;
    try done;
    try (exfalso; revert Hx; unfold Qminus, Qplus, Qopp; cbn;
         destruct px as [n d]; cbn; intros [= Hx1 Hx2]; lia);
    unfold rotatePiece; cbn -[checkCollision]; rewrite Hfree; done.
Qed.

Lemma rotatePiece_opposite_undoes_witness :
  rotatePiece emptyGrid CCW (rotatePiece emptyGrid CW (Some (spawnPiece (3, 4, 5))))
  = Some (spawnPiece (3, 4, 5)).
Proof.
  apply (rotatePiece_opposite_undoes emptyGrid CW (spawnPiece (3, 4, 5))
           (MkPiece (7 # 2) 2 [MkBall 0 (- 1) 4; MkBall (- (1 # 2)) 0 3;
                               MkBall (1 # 2) 0 5] 1) 3 4 5).
  - left. reflexivity.
  - reflexivity.
  - vm_compute. reflexivity.
  - vm_compute. reflexivity.
  - vm_compute. discriminate.
  - reflexivity.
Defined.

(** *** Colours *)

Lemma Qfloor_times_six q : (0 <= q)%Q → (q < 1)%Q → 0 ≤ Qfloor (q * 6) < 6.
Proof.
  intros H0 H1. split.
  - change 0 with (Qfloor 0). apply Qfloor_resp_le.
    apply Qmult_le_0_compat; [done|discriminate].
  - rewrite Zlt_Qlt. apply Qle_lt_trans with (q * 6)%Q; [apply Qfloor_le|].
    change (inject_Z 6) with (1 * 6)%Q. by apply Qmult_lt_compat_r.
Qed.

(** X7. When the random source returns numbers in [0, 1), as
    [Math.random] does, the three colours drawn by [generateNextColors]
    are indices of the six-colour palette, and exactly three numbers are
    consumed. *)
Theorem generateNextColors_in_palette rand n :
  (∀ k, (0 <= rand k)%Q ∧ (rand k < 1)%Q) →
  (0 ≤ (generateNextColors rand n).1.1.1 < 6
   ∧ 0 ≤ (generateNextColors rand n).1.1.2 < 6
   ∧ 0 ≤ (generateNextColors rand n).1.2 < 6)
  ∧ (generateNextColors rand n).2 = (n + 3)%nat.
Proof.
  intros Hr. unfold generateNextColors. cbn [fst snd].
  repeat split; try (apply Qfloor_times_six; apply Hr); lia.
Qed.

Lemma generateNextColors_in_palette_witness :
  0 ≤ (generateNextColors (λ _, 1 # 2) 0).1.1.1 < 6.
Proof.
  apply (generateNextColors_in_palette (λ _, 1 # 2) 0).
  intros k. split; [discriminate|reflexivity].
Defined.

(** *** Hard drop *)

Lemma hardDropLoop_result fuel g px bs : ∀ cy y',
  hardDropLoop fuel g px cy bs = Some y' →
  checkCollision g px (y' + 1) bs = true
  ∧ (checkCollision g px cy bs = false → checkCollision g px y' bs = false)
  ∧ (cy <= y')%Q.
Proof.
  induction fuel as [|fuel IH]; intros cy y' H; [done|]. simpl in H.
  destruct (checkCollision g px (cy + 1) bs) eqn:E; simpl in H.
  - injection H as <-. split; [done|]. split; [done|]. apply Qle_refl.
  - destruct (IH _ _ H) as (H1 & H2 & H3). split; [done|]. split; [auto|].
    apply Qle_trans with (cy + 1)%Q; [|done].
    rewrite <- (Qplus_0_r cy) at 1. apply Qplus_le_r. discriminate.
Qed.

Lemma hardDropLoop_more fuel g px bs : ∀ cy y' fuel',
  hardDropLoop fuel g px cy bs = Some y' → (fuel ≤ fuel')%nat →
  hardDropLoop fuel' g px cy bs = Some y'.
Proof.
  induction fuel as [|fuel IH]; intros cy y' fuel' H Hle; [done|].
  destruct fuel' as [|fuel']; [lia|]. simpl in *.
  destruct (negb (checkCollision g px (cy + 1) bs)); [|done].
  apply IH; [done|lia].
Qed.

Lemma Qfloor_succ q : Qfloor q + 1 ≤ Qfloor (q + 1).
Proof.
  rewrite <- (Qfloor_Z (Qfloor q + 1)). apply Qfloor_resp_le.
  rewrite inject_Z_plus. apply Qplus_le_l, Qfloor_le.
Qed.

Lemma hardDropLoop_terminates fuel g px bs b : ∀ cy,
  b ∈ bs →
  (Z.to_nat (TOTAL_ROWS - Qfloor (cy + dy b + (1 # 2))) < fuel)%nat →
  ∃ y', hardDropLoop fuel g px cy bs = Some y'.
Proof.
  induction fuel as [|fuel IH]; intros cy Hb Hfuel; [lia|]. simpl.
  destruct (checkCollision g px (cy + 1) bs) eqn:E; simpl; [eauto|].
  apply IH; [done|].
  rewrite checkCollision_false in E. specialize (E b Hb).
  apply ballCollides_false in E as (E & _). unfold ballCell in E. cbn [pr] in E.
  pose proof (Qfloor_succ (cy + dy b + (1 # 2))) as Hs.
  assert (cy + 1 + dy b + (1 # 2) == cy + dy b + (1 # 2) + 1)%Q as Heq by ring.
  rewrite (Qfloor_comp _ _ Heq) in E. rewrite (Qfloor_comp _ _ Heq). lia.
Qed.

(** X8. For a piece with at least one ball the loop of [hardDrop] stops
    (a row count read off any ball bounds the number of iterations, and
    more fuel does not change the result).  The piece handed to
    [lockPiece] keeps [x], the balls and the rotation state; it is not
    above where the piece was; it collides one row further down; and if
    the piece did not collide before the drop, the dropped piece does not
    collide either. *)
Theorem hardDrop_lands g prev b :
  b ∈ balls prev →
  ∃ y',
    (∀ fuel, (Z.to_nat (TOTAL_ROWS - Qfloor (y prev + dy b + (1 # 2))) < fuel)%nat →
       hardDrop fuel g (Some prev)
       = Some (MkMove None
                 (Some (MkPiece (x prev) y' (balls prev) (rotationState prev)))))
    ∧ (y prev <= y')%Q
    ∧ checkCollision g (x prev) (y' + 1) (balls prev) = true
    ∧ (checkCollision g (x prev) (y prev) (balls prev) = false →
       checkCollision g (x prev) y' (balls prev) = false).
Proof.
  intros Hb.
  set (fuel0 := S (Z.to_nat (TOTAL_ROWS - Qfloor (y prev + dy b + (1 # 2))))).
  destruct (hardDropLoop_terminates fuel0 g (x prev) (balls prev) b (y prev) Hb)
    as [y' Hy']; [subst fuel0; lia|].
  destruct (hardDropLoop_result _ _ _ _ _ _ Hy') as (H1 & H2 & H3).
  exists y'. split; [|done].
  intros fuel Hfuel. unfold hardDrop.
  rewrite (hardDropLoop_more fuel0 g (x prev) (balls prev) (y prev) y' fuel Hy');
    [done|subst fuel0; lia].
Qed.

Lemma hardDrop_lands_witness :
  ∃ y', hardDrop 40 emptyGrid (Some (spawnPiece (3, 4, 5)))
        = Some (MkMove None (Some (MkPiece (7 # 2) y' (balls (spawnPiece (3, 4, 5))) 0))).
Proof.
  destruct (hardDrop_lands emptyGrid (spawnPiece (3, 4, 5)) (MkBall 0 0 3))
    as (y' & H & _).
  - apply list_elem_of_here.
  - exists y'. apply H. vm_compute. lia.
Defined.

(** *** Spawning *)

Lemma hidden_rows_empty g r c :
  wf_grid g → checkGameOver g = false → 0 ≤ r < HIDDEN_ROWS → 0 ≤ c < COLS →
  getCell g r c = Some EMPTY.
Proof.
  intros Hwf Hover Hr Hc.
  destruct (getCell_valid g (Pos r c) Hwf) as [v Hv].
  { unfold validPos, TOTAL_ROWS, VISIBLE_ROWS, HIDDEN_ROWS in *. simpl. lia. }
  simpl in Hv. destruct (decide (v = EMPTY)) as [->|Hne]; [done|].
  assert (checkGameOver g = true); [|congruence].
  apply checkGameOver_spec. by exists r, c, v.
Qed.

Lemma spawnPiece_fits g colors :
  wf_grid g → checkGameOver g = false →
  checkCollision g (x (spawnPiece colors)) (y (spawnPiece colors))
                 (balls (spawnPiece colors)) = false.
Proof.
  intros Hwf Hover. destruct colors as [[c0 c1] c2].
  apply checkCollision_false. intros b Hb.
  apply ballCollides_false.
  cbn [spawnPiece x y balls] in *.
  rewrite !elem_of_cons, elem_of_nil in Hb.
  destruct Hb as [->|[->|[->|[]]]]; vm_compute ballCell; cbn [pr pc];
    (split; [done|]); (split; [done|]); intros _;
    apply hidden_rows_empty; done.
Qed.

(** ** The group-first match detector, continued *)

Lemma groupScore_big g G : (6 ≤ length G)%nat → 600 ≤ groupScore g G.
Proof.
  intros Hlen. rewrite groupScore_eligible by done. unfold basePoints.
  pose proof (highestBonus_table G) as H. rewrite !elem_of_cons, elem_of_nil in H.
  lia.
Qed.

Lemma sumZ_scores g (Gs : list (list Position)) :
  Forall eligible Gs →
  0 ≤ sumZ (groupScore g <$> Gs)
  ∧ (Gs ≠ [] → 600 ≤ sumZ (groupScore g <$> Gs)).
Proof.
  induction 1 as [|G Gs HG _ [IH1 IH2]]; [done|].
  cbn [fmap list_fmap sumZ foldr]. fold (sumZ (groupScore g <$> Gs)).
  pose proof (groupScore_big g G HG). split; [lia|]. intros _. lia.
Qed.

Lemma eligibleGroups_all g : Forall eligible (eligibleGroups g).
Proof.
  apply Forall_forall. intros G HG. unfold eligibleGroups in HG.
  rewrite list_elem_of_filter in HG. by destruct HG as [H _].
Qed.

Lemma getCell_out_of_board g r c :
  wf_grid g → ¬ validPos (Pos r c) → getCell g r c = None.
Proof.
  intros Hwf Hnv. destruct (getCell g r c) as [v|] eqn:E; [|done].
  exfalso. by apply Hnv, (getCell_Some_valid g r c v).
Qed.

Lemma GroupFirst_checkMatches_frame_aux g :
  wf_grid g → eligibleGroups g = [] →
  points (GroupFirst.checkMatches g) = 0 ∧ mGrid (GroupFirst.checkMatches g) = g.
Proof.
  intros Hwf HE. pose proof (checkMatches_eq g Hwf) as (Hg & Hp & _).
  by rewrite Hg, Hp, HE.
Qed.

(** X9. One pass of the group-first [checkMatches] on a 20 x 9 grid returns
    a 20 x 9 grid in which every cell holds what it held or is EMPTY; the
    points are never negative; they are zero exactly when there is no
    group of six or more, which is exactly when the grid comes back
    unchanged; and a pass that scores at all scores at least 600. *)
Theorem GroupFirst_checkMatches_frame g :
  wf_grid g →
  wf_grid (mGrid (GroupFirst.checkMatches g))
  ∧ (∀ r c, getCell (mGrid (GroupFirst.checkMatches g)) r c = getCell g r c
            ∨ getCell (mGrid (GroupFirst.checkMatches g)) r c = Some EMPTY)
  ∧ 0 ≤ points (GroupFirst.checkMatches g)
  ∧ (points (GroupFirst.checkMatches g) = 0 ↔ eligibleGroups g = [])
  ∧ (points (GroupFirst.checkMatches g) = 0 ↔ mGrid (GroupFirst.checkMatches g) = g)
  ∧ (0 < points (GroupFirst.checkMatches g) → 600 ≤ points (GroupFirst.checkMatches g)).
Proof.
  intros Hwf. pose proof (checkMatches_eq g Hwf) as (Hg & Hp & _).
  pose proof (sumZ_scores g (eligibleGroups g) (eligibleGroups_all g)) as [Hs0 Hs1].
  assert (points (GroupFirst.checkMatches g) = 0 ↔ eligibleGroups g = []) as Hzero.
  { rewrite Hp. split.
    - intros Hz. destruct (eligibleGroups g) as [|G Gs] eqn:E; [done|].
      assert (600 ≤ sumZ (groupScore g <$> G :: Gs)) by (by apply Hs1). lia.
    - by intros ->. }
  split; [rewrite Hg; by apply wf_clearCells|].
  split; [|split; [lia|split; [done|split]]].
  - intros r c. destruct (decide (validPos (Pos r c))) as [Hv|Hv].
    + destruct (checkMatches_cell g (Pos r c) Hwf) as [Hin Hout]. cbn [pr pc] in *.
      destruct (decide (Pos r c ∈ concat (eligibleGroups g))); [right|left]; auto.
    + left. rewrite !getCell_out_of_board; try done. rewrite Hg. by apply wf_clearCells.
  - rewrite Hzero. split.
    + intros HE. by rewrite Hg, HE.
    + intros Hsame. destruct (eligibleGroups g) as [|G Gs] eqn:E; [done|]. exfalso.
      assert (G ∈ eligibleGroups g) as HG by (rewrite E; apply list_elem_of_here).
      destruct (eligibleGroups_spec g G Hwf HG) as (Hgr & Hlen & _).
      destruct Hgr as (_ & s & v & Hs & _ & Hv & Hne & _).
      destruct (checkMatches_cell g s Hwf) as [Hin _].
      rewrite Hsame, Hv in Hin.
      assert (Some v = Some EMPTY); [|congruence].
      apply Hin, elem_of_concat. by exists G.
  - intros Hpos. rewrite Hp in *.
    destruct (eligibleGroups g) as [|G Gs]; [done|]. by apply Hs1.
Qed.

Lemma GroupFirst_checkMatches_frame_witness :
  0 ≤ points (GroupFirst.checkMatches centredRing).
Proof.
  assert (wf_grid centredRing) as Hwf
    by (apply (bool_decide_unpack _); vm_compute; exact I).
  destruct (GroupFirst_checkMatches_frame centredRing Hwf) as (_ & _ & H & _).
  exact H.
Defined.

Lemma connected_before_clearing g L a b v :
  (∀ q, q ∈ L → validPos q) → wf_grid g →
  connected (clearCells g L) a b →
  validPos a → getCell (clearCells g L) (pr a) (pc a) = Some v → v ≠ EMPTY →
  connected g a b.
Proof.
  intros Hval Hwf Hc. induction Hc as [a|a b c (Ha & Hb & Hcol) _ IH].
  { intros. apply rtc_refl. }
  intros _ Hv Hne.
  assert (∀ q w, validPos q → getCell (clearCells g L) (pr q) (pc q) = Some w → w ≠ EMPTY →
                 getCell g (pr q) (pc q) = Some w) as Hkeep.
  { intros q w Hq Hw Hwne. destruct (decide (q ∈ L)) as [Hin|Hout].
    - rewrite getCell_clearCells_in in Hw by done. congruence.
    - by rewrite getCell_clearCells_notin in Hw. }
  assert (validPos b) as Hbv by (by eapply getNeighbors_valid).
  assert (getCell (clearCells g L) (pr b) (pc b) = Some v) as Hbc by congruence.
  eapply rtc_l; [|by apply IH].
  split; [done|]. split; [done|].
  rewrite (Hkeep a v), (Hkeep b v); done.
Qed.

(** X10. A pass of the group-first [checkMatches] leaves no group of six:
    run again on the grid it returned, it returns that grid and no points.
    A chain reaction needs the gravity step in between. *)
Theorem GroupFirst_checkMatches_twice g :
  wf_grid g →
  points (GroupFirst.checkMatches (mGrid (GroupFirst.checkMatches g))) = 0
  ∧ mGrid (GroupFirst.checkMatches (mGrid (GroupFirst.checkMatches g)))
    = mGrid (GroupFirst.checkMatches g).
Proof.
  intros Hwf. pose proof (checkMatches_eq g Hwf) as (Hg & _ & _).
  set (g' := mGrid (GroupFirst.checkMatches g)) in *.
  assert (wf_grid g') as Hwf' by (rewrite Hg; by apply wf_clearCells).
  assert (eligibleGroups g' = []) as Hnone.
  { destruct (eligibleGroups g') as [|G' Gs] eqn:E; [done|]. exfalso.
    assert (G' ∈ eligibleGroups g') as HG' by (rewrite E; apply list_elem_of_here).
    destruct (eligibleGroups_spec g' G' Hwf' HG') as (Hgr' & Hlen' & Hval').
    pose proof Hgr' as (Hnd' & s & v & Hs & Hsv & Hv & Hne & Hconn').
    assert (∀ q, q ∈ concat (eligibleGroups g) → validPos q) as Hval.
    { intros q (G & HG & Hq)%elem_of_concat. by apply (eligibleGroups_spec g G Hwf HG). }
    assert (s ∉ concat (eligibleGroups g)) as Hs_out.
    { intros Hin. rewrite Hg, getCell_clearCells_in in Hv by done. congruence. }
    assert (getCell g (pr s) (pc s) = Some v) as Hv0.
    { rewrite Hg, getCell_clearCells_notin in Hv; done. }
    destruct (foundGroups_spec g Hwf) as (Hgr & _ & Hcov).
    destruct (Hcov s v Hsv Hv0 Hne) as (G & HG & HsG).
    rewrite Forall_forall in Hgr. pose proof (Hgr G HG) as HGg.
    assert (∀ q, q ∈ G' → q ∈ G) as Hsub.
    { intros q Hq. apply Hconn' in Hq. rewrite Hg in Hq, Hv.
      pose proof (connected_before_clearing g _ s q v Hval Hwf Hq Hsv Hv Hne) as Hc.
      destruct HGg as (_ & t & w & _ & _ & _ & _ & Hconn).
      apply Hconn. etransitivity; [|exact Hc]. by apply Hconn. }
    assert (length G' ≤ length G)%nat as Hle.
    { apply submseteq_length, NoDup_submseteq; done. }
    apply Hs_out, elem_of_concat. exists G. split; [|done].
    unfold eligibleGroups. apply list_elem_of_filter. split; [|done].
    unfold eligible in *. lia. }
  destruct (GroupFirst_checkMatches_frame_aux g' Hwf' Hnone) as [H1 H2]. done.
Qed.

Lemma GroupFirst_checkMatches_twice_witness :
  points (GroupFirst.checkMatches (mGrid (GroupFirst.checkMatches straightOverPyramid)))
  = 0.
Proof.
  apply (GroupFirst_checkMatches_twice straightOverPyramid).
  apply (bool_decide_unpack _). vm_compute. exact I.
Defined.

Lemma bfsLoop_more fuel g color : ∀ st k,
  GroupFirst.queue (GroupFirst.bfsLoop fuel g color st) = [] →
  GroupFirst.bfsLoop (fuel + k) g color st = GroupFirst.bfsLoop fuel g color st.
Proof.
  induction fuel as [|fuel IH]; intros st k Hq.
  - simpl in *. destruct k; [done|]. simpl. by rewrite Hq.
  - simpl in *. destruct (GroupFirst.queue st) as [|curr rest]; [done|]. by apply IH.
Qed.

(** X11. Started on a ball [p] that is not yet visited, with a visited set
    made of whole groups, the breadth-first search of [getConnectedGroup]
    ends with an empty queue within [bfsFuel] iterations (more fuel changes
    nothing) and returns, each once, exactly the cells joined to [p] by a
    chain of touching cells of the colour of [p]; it adds these cells, and
    no others, to the visited set, which is again made of whole groups. *)
Theorem getConnectedGroup_component g p v V :
  validPos p → getCell g (pr p) (pc p) = Some v → closedSet g V → p ∉ V →
  NoDup (GroupFirst.getConnectedGroup (pr p) (pc p) g V).1
  ∧ (∀ q, q ∈ (GroupFirst.getConnectedGroup (pr p) (pc p) g V).1 ↔ connected g p q)
  ∧ (∀ q, q ∈ (GroupFirst.getConnectedGroup (pr p) (pc p) g V).1 →
          validPos q ∧ getCell g (pr q) (pc q) = Some v ∧ q ∉ V)
  ∧ (∀ q, q ∈ (GroupFirst.getConnectedGroup (pr p) (pc p) g V).2
          ↔ q ∈ V ∨ q ∈ (GroupFirst.getConnectedGroup (pr p) (pc p) g V).1)
  ∧ closedSet g (GroupFirst.getConnectedGroup (pr p) (pc p) g V).2
  ∧ (∀ k, GroupFirst.bfsLoop (bfsFuel + k) g (Some v)
            (GroupFirst.bfsStart (pr p) (pc p) V)
          = GroupFirst.bfsLoop bfsFuel g (Some v)
              (GroupFirst.bfsStart (pr p) (pc p) V)).
Proof.
  intros Hp Hv Hcl HpV.
  destruct (getConnectedGroup_spec g v p V Hp Hv Hcl HpV)
    as (Hq & Hnd & Hconn & Hvis & Hfresh & Hcl').
  split; [done|]. split; [done|]. split; [|split; [done|split; [done|]]].
  - intros q Hq'. pose proof (Hfresh q Hq') as Hf. apply Hconn in Hq'.
    split; [by eapply connected_valid|]. split; [|done].
    rewrite <- Hv. symmetry. by apply connected_color.
  - intros k. by apply bfsLoop_more.
Qed.

Lemma getConnectedGroup_component_witness :
  NoDup (GroupFirst.getConnectedGroup 17 3 centredRing ∅).1.
Proof.
  apply (getConnectedGroup_component centredRing (Pos 17 3) 2 ∅).
  - apply (bool_decide_unpack _). vm_compute. exact I.
  - vm_compute. reflexivity.
  - intros a b Ha. by apply not_elem_of_empty in Ha.
  - apply not_elem_of_empty.
Defined.

(** ** The game loop, continued *)

Lemma GroupFirst_checkMatches_wf g :
  wf_grid g → wf_grid (mGrid (GroupFirst.checkMatches g)).
Proof.
  intros Hwf. destruct (checkMatches_eq g Hwf) as (-> & _ & _). by apply wf_clearCells.
Qed.

Lemma runPhysicsStep_wf rand n g :
  wf_grid g → wf_grid (newGrid (runPhysicsStep rand n g)).
Proof. intros Hwf. rewrite runPhysicsStep_eq. by apply physRun_wf. Qed.

(** X12. A SETTLING tick (with the detector of [src/6ball.tsx]) keeps the
    board 20 x 9 and never lowers the score.  It leaves the active piece
    alone unless it goes to PLAYING, and it goes to PLAYING only when the
    hidden rows are empty: the piece it spawns, made of the stored "next"
    colours, does not collide with the board.  The game state stays
    SETTLING or becomes PLAYING or GAME_OVER; while the timer has not run
    out nothing but the timer changes. *)
Theorem updateSettling_sound rand deltaTime s :
  wf_grid (grid s) → gameState s = SETTLING →
  wf_grid (grid (updateSettling GroupFirst.checkMatches rand deltaTime s))
  ∧ score s ≤ score (updateSettling GroupFirst.checkMatches rand deltaTime s)
  ∧ (gameState (updateSettling GroupFirst.checkMatches rand deltaTime s) = SETTLING
     ∧ activePiece (updateSettling GroupFirst.checkMatches rand deltaTime s)
       = activePiece s
     ∨ gameState (updateSettling GroupFirst.checkMatches rand deltaTime s) = GAME_OVER
       ∧ activePiece (updateSettling GroupFirst.checkMatches rand deltaTime s)
         = activePiece s
       ∧ checkGameOver (grid (updateSettling GroupFirst.checkMatches rand deltaTime s))
         = true
     ∨ gameState (updateSettling GroupFirst.checkMatches rand deltaTime s) = PLAYING
       ∧ activePiece (updateSettling GroupFirst.checkMatches rand deltaTime s)
         = Some (spawnPiece (nextColors s))
       ∧ checkGameOver (grid (updateSettling GroupFirst.checkMatches rand deltaTime s))
         = false
       ∧ checkCollision (grid (updateSettling GroupFirst.checkMatches rand deltaTime s))
           (x (spawnPiece (nextColors s))) (y (spawnPiece (nextColors s)))
           (balls (spawnPiece (nextColors s))) = false)
  ∧ ((settleTimer s + deltaTime <= SETTLE_INTERVAL)%Q →
     updateSettling GroupFirst.checkMatches rand deltaTime s
     = MkGame (grid s) (activePiece s) (nextColors s) (score s) (gameState s)
              (message s) (comboMessage s) (settleTimer s + deltaTime) (randomDraws s)).
Proof.
  intros Hwf Hst. unfold updateSettling.
  destruct (Qlt_le_dec SETTLE_INTERVAL (settleTimer s + deltaTime)) as [Hlt|Hle].
  2:{ cbn [grid score gameState activePiece]. split; [done|]. split; [lia|].
      split; [by left|done]. }
  pose proof (runPhysicsStep_wf rand (randomDraws s) (grid s) Hwf) as Hwf1.
  generalize dependent (runPhysicsStep rand (randomDraws s) (grid s)).
  intros ph Hwf1.
  assert (∀ A (a : A), (settleTimer s + deltaTime <= SETTLE_INTERVAL)%Q → a = a) as _
    by done.
  destruct (moved ph); cbn [negb].
  { cbn [grid score gameState activePiece]. split; [done|]. split; [lia|].
    split; [by left|]. intros Hle. exfalso. by apply (Qlt_not_le _ _ Hlt). }
  pose proof (GroupFirst_checkMatches_wf (newGrid ph) Hwf1) as Hwf2.
  generalize dependent (GroupFirst.checkMatches (newGrid ph)). intros mr Hwf2.
  destruct (0 <? points mr) eqn:Hp.
  { apply Z.ltb_lt in Hp. cbn [grid score gameState activePiece].
    split; [done|]. split; [lia|]. split; [by left|].
    intros Hle. exfalso. by apply (Qlt_not_le _ _ Hlt). }
  destruct (checkGameOver (newGrid ph)) eqn:Hover.
  { cbn [grid score gameState activePiece]. split; [done|]. split; [lia|].
    split; [right; by left|]. intros Hle. exfalso. by apply (Qlt_not_le _ _ Hlt). }
  destruct (generateNextColors rand (draws ph)) as [fresh n'].
  cbn [grid score gameState activePiece]. split; [done|]. split; [lia|].
  split.
  - right. right. split; [done|]. split; [done|]. split; [done|].
    by apply spawnPiece_fits.
  - intros Hle. exfalso. by apply (Qlt_not_le _ _ Hlt).
Qed.

Lemma updateSettling_sound_witness :
  score (updateSettling GroupFirst.checkMatches (λ _, 0%Q) 60
           (MkGame centredRing None (3, 4, 5) 100 SETTLING "" "" 0 0)) = 1700.
Proof.
  pose proof (updateSettling_sound (λ _, 0%Q) 60
                (MkGame centredRing None (3, 4, 5) 100 SETTLING "" "" 0 0)
                ltac:(apply (bool_decide_unpack _); vm_compute; exact I)
                ltac:(reflexivity)) as (_ & H & _).
  vm_compute. reflexivity.
Defined.

(** X13. Whatever numbers in [0, 1) the random source returns, [initGame]
    sets up, from any state, an empty 20 x 9 board with no overflow,
    score 0, state PLAYING, a first piece that does not collide and whose
    colours are palette indices, and "next" colours that are palette
    indices too; nine random numbers are consumed and the settle timer is
    left alone. *)
Theorem initGame_sound rand s :
  (∀ k, (0 <= rand k)%Q ∧ (rand k < 1)%Q) →
  grid (initGame rand s) = emptyGrid
  ∧ wf_grid (grid (initGame rand s))
  ∧ checkGameOver (grid (initGame rand s)) = false
  ∧ score (initGame rand s) = 0
  ∧ gameState (initGame rand s) = PLAYING
  ∧ (∃ p, activePiece (initGame rand s) = Some p
          ∧ checkCollision (grid (initGame rand s)) (x p) (y p) (balls p) = false
          ∧ rotationState p = 0
          ∧ Forall (λ b, 0 ≤ color b < 6) (balls p))
  ∧ (0 ≤ (nextColors (initGame rand s)).1.1 < 6
     ∧ 0 ≤ (nextColors (initGame rand s)).1.2 < 6
     ∧ 0 ≤ (nextColors (initGame rand s)).2 < 6)
  ∧ randomDraws (initGame rand s) = (randomDraws s + 9)%nat
  ∧ settleTimer (initGame rand s) = settleTimer s.
Proof.
  intros Hr. unfold initGame, generateNextColors.
  cbn [grid score gameState activePiece nextColors randomDraws settleTimer fst snd].
  assert (wf_grid emptyGrid) as Hwf by (apply (bool_decide_unpack _); vm_compute; exact I).
  assert (checkGameOver emptyGrid = false) as Hover by (vm_compute; reflexivity).
  split; [done|]. split; [done|]. split; [done|]. split; [done|]. split; [done|].
  split; [|split; [|split; [lia|done]]].
  - eexists. split; [reflexivity|]. split; [by apply spawnPiece_fits|]. split; [done|].
    cbn [spawnPiece balls]. repeat (apply Forall_cons; split);
      try (cbn [color]; apply Qfloor_times_six; apply Hr). apply Forall_nil_2.
  - repeat split; apply Qfloor_times_six; apply Hr.
Qed.

Lemma initGame_sound_witness :
  gameState (initGame (λ _, 1 # 2)
               (MkGame centredRing None (0, 0, 0) 700 GAME_OVER "Game Over!" "" 0 12))
  = PLAYING.
Proof.
  apply (initGame_sound (λ _, 1 # 2)
           (MkGame centredRing None (0, 0, 0) 700 GAME_OVER "Game Over!" "" 0 12)).
  intros k. split; [discriminate|reflexivity].
Defined.

(** ** Gravity comes to rest *)

Lemma sumZ_cons a l : sumZ (a :: l) = a + sumZ l.
Proof. reflexivity. Qed.

Lemma sumZ_le {A} (f h : A → Z) (l : list A) :
  (∀ a, a ∈ l → f a ≤ h a) → sumZ (f <$> l) ≤ sumZ (h <$> l).
Proof.
  induction l as [|a l IH]; intros H; [done|].
  rewrite !fmap_cons, !sumZ_cons.
  assert (f a ≤ h a) by apply H, list_elem_of_here.
  assert (sumZ (f <$> l) ≤ sumZ (h <$> l))
    by (apply IH; intros b Hb; apply H; by apply list_elem_of_further).
  lia.
Qed.

Lemma sumZ_zero {A} (l : list A) : sumZ ((λ _, 0) <$> l) = 0.
Proof. induction l as [|a l IH]; [done|]. rewrite fmap_cons, sumZ_cons. lia. Qed.

(** Changing a function at one point of a duplicate-free list. *)
Lemma sumZ_update {A} (f h : A → Z) (l : list A) p :
  NoDup l → p ∈ l → (∀ q, q ∈ l → q ≠ p → h q = f q) →
  sumZ (h <$> l) = sumZ (f <$> l) - f p + h p.
Proof.
  induction l as [|a l IH]; intros Hnd Hp Hagree.
  { by apply elem_of_nil in Hp. }
  apply NoDup_cons in Hnd as [Ha Hnd]. rewrite !fmap_cons, !sumZ_cons.
  apply elem_of_cons in Hp as [->|Hp].
  - rewrite (sumZ_ext h f l); [lia|].
    intros q Hq. apply Hagree; [by apply list_elem_of_further|]. by intros ->.
  - rewrite IH; [|done|done|].
    + rewrite (Hagree a); [lia|apply list_elem_of_here|]. by intros ->.
    + intros q Hq. apply Hagree. by apply list_elem_of_further.
Qed.

Lemma depth_setCell g r c v :
  wf_grid g → validPos (Pos r c) →
  depth (setCell g r c v)
  = depth g - ballDepth g (Pos r c) + (if v =? EMPTY then 0 else r).
Proof.
  intros Hwf Hv. unfold depth.
  rewrite (sumZ_update (ballDepth g) (ballDepth (setCell g r c v)) boardCells (Pos r c)).
  - f_equal. unfold ballDepth. cbn [pr pc]. by rewrite getCell_setCell_eq.
  - apply boardCells_NoDup.
  - by apply elem_of_boardCells.
  - intros [r' c'] _ Hne. unfold ballDepth. cbn [pr pc].
    rewrite getCell_setCell_ne; [done| | |done]; apply Hv.
Qed.

Lemma depth_bounds g : 0 ≤ depth g ≤ 1710.
Proof.
  unfold depth. split.
  - rewrite <- (sumZ_zero boardCells). apply sumZ_le.
    intros p [Hr _]%elem_of_boardCells. unfold ballDepth. repeat case_match; lia.
  - replace 1710 with (sumZ (pr <$> boardCells)) by (by vm_compute).
    apply sumZ_le.
    intros p [Hr _]%elem_of_boardCells. unfold ballDepth. repeat case_match; lia.
Qed.

(** A scanned cell either leaves the state alone or moves one ball one
    row down. *)
Lemma cellOutcome_depth rand s p s' :
  wf_grid (newGrid s) → validPos p → cellOutcome rand s p s' →
  s' = s ∨ (moved s' = true ∧ depth (newGrid s') = depth (newGrid s) + 1).
Proof.
  intros Hwf Hp H. destruct H as [| |v d tie Hv Hne Hd [Hdv Hfree] _ _ _];
    [by left|by left|right].
  cbn [moved newGrid]. split; [done|].
  pose proof (getBottomNeighbors_row _ _ _ Hd) as Hrow.
  assert (Pos (pr p) (pc p) ≠ Pos (pr d) (pc d)) as Hne'.
  { intros Heq. apply (f_equal pr) in Heq. simpl in Heq. lia. }
  assert (validPos (Pos (pr p) (pc p))) as Hp' by (by destruct p).
  assert (validPos (Pos (pr d) (pc d))) as Hd' by (by destruct d).
  rewrite depth_setCell; [|by apply wf_setCell|done].
  rewrite depth_setCell; [|done|done].
  unfold ballDepth. cbn [pr pc].
  rewrite getCell_setCell_ne; [|apply Hdv|apply Hdv|done].
  rewrite Hv, Hfree.
  assert (v =? EMPTY = false) as -> by (by apply Z.eqb_neq).
  rewrite Z.eqb_refl. lia.
Qed.

Lemma physRun_depth rand n g cells :
  wf_grid g → Forall validPos cells →
  depth g ≤ depth (newGrid (physRun rand n g cells))
  ∧ (moved (physRun rand n g cells) = true →
     depth g < depth (newGrid (physRun rand n g cells))).
Proof.
  intros Hwf. induction cells as [|p cells IH] using rev_ind.
  { intros _. cbn [physRun foldl newGrid moved]. split; [lia|done]. }
  intros Hall. apply Forall_app in Hall as [Hcells Hp].
  apply Forall_cons in Hp as [Hp _]. destruct (IH Hcells) as [IH1 IH2].
  rewrite physRun_snoc.
  pose proof (physicsCell_outcome rand (physRun rand n g cells) p
                (physRun_wf rand n g cells Hwf) Hp) as Hout.
  apply cellOutcome_depth in Hout as [->|[Hm Hd]];
    [done| |by apply physRun_wf|done].
  rewrite Hd. split; [lia|]. intros _. lia.
Qed.

Lemma gravityRun_S rand n g k :
  gravityRun rand n g (S k)
  = runPhysicsStep rand (draws (gravityRun rand n g k)) (newGrid (gravityRun rand n g k)).
Proof. reflexivity. Qed.

Lemma gravityRun_wf rand n g k :
  wf_grid g → wf_grid (newGrid (gravityRun rand n g k)).
Proof.
  intros Hwf. induction k as [|k IH]; [done|].
  rewrite gravityRun_S. by apply runPhysicsStep_wf.
Qed.

(** After [j] steps either an earlier step has reported rest, or all [j]
    steps moved a ball and the balls are at least [j] rows deeper. *)
Lemma gravityRun_progress rand n g j :
  wf_grid g →
  (∃ k, (k < j)%nat
        ∧ (∀ i, (1 ≤ i ≤ k)%nat → moved (gravityRun rand n g i) = true)
        ∧ moved (gravityRun rand n g (S k)) = false)
  ∨ ((∀ i, (1 ≤ i ≤ j)%nat → moved (gravityRun rand n g i) = true)
     ∧ depth g + Z.of_nat j ≤ depth (newGrid (gravityRun rand n g j))).
Proof.
  intros Hwf. induction j as [|j IH].
  { right. split; [intros i Hi; lia|]. cbn [gravityRun newGrid]. lia. }
  destruct IH as [(k & Hk & Hall & Hstop)|[Hall Hd]].
  { left. exists k. split; [lia|done]. }
  destruct (moved (gravityRun rand n g (S j))) eqn:Hm.
  - right. split.
    + intros i Hi. destruct (decide (i = S j)) as [->|Hne]; [done|].
      apply Hall. lia.
    + rewrite gravityRun_S in Hm |- *. rewrite runPhysicsStep_eq in Hm |- *.
      pose proof (physRun_depth rand (draws (gravityRun rand n g j))
                    (newGrid (gravityRun rand n g j)) physCells
                    (gravityRun_wf rand n g j Hwf) physCells_valid) as [_ Hlt].
      specialize (Hlt Hm). lia.
  - left. exists j. split; [lia|done].
Qed.

(** X14. Gravity comes to rest: on a 20 x 9 board, every gravity step
    that reports [moved] lowers one or more balls by one row each and so
    raises the sum of the balls' row numbers, which never exceeds 1710.
    Hence, whatever the random source, after some [k <= 1710] moving steps
    the next step reports [moved = false]; the board is then unchanged by
    that step and every ball above the bottom row rests on something. *)
Theorem gravity_comes_to_rest rand n g :
  wf_grid g →
  ∃ k, (k ≤ 1710)%nat
       ∧ (∀ i, (1 ≤ i ≤ k)%nat → moved (gravityRun rand n g i) = true)
       ∧ moved (gravityRun rand n g (S k)) = false
       ∧ newGrid (gravityRun rand n g (S k)) = newGrid (gravityRun rand n g k)
       ∧ draws (gravityRun rand n g (S k)) = draws (gravityRun rand n g k)
       ∧ settled (newGrid (gravityRun rand n g k)).
Proof.
  intros Hwf.
  destruct (gravityRun_progress rand n g 1711 Hwf) as [(k & Hk & Hall & Hstop)|[_ Hd]].
  2:{ pose proof (depth_bounds g). pose proof (depth_bounds (newGrid (gravityRun rand n g 1711))).
      exfalso. lia. }
  exists k. split; [lia|]. split; [done|]. split; [done|].
  pose proof (gravityRun_wf rand n g k Hwf) as Hwfk.
  rewrite gravityRun_S in Hstop |- *. rewrite runPhysicsStep_eq in Hstop |- *.
  destruct (physRun_unmoved rand _ _ physCells Hwfk physCells_valid Hstop) as [Heq Hst].
  rewrite Heq. cbn [newGrid draws]. split; [done|]. split; [done|].
  intros p v Hp Hrow Hv Hne. apply (Hst p v); [|done|done].
  by apply elem_of_physCells.
Qed.

Lemma gravity_comes_to_rest_witness :
  ∃ k, (k ≤ 1710)%nat
       ∧ moved (gravityRun (λ _, 0%Q) 0 centredRing (S k)) = false.
Proof.
  destruct (gravity_comes_to_rest (λ _, 0%Q) 0 centredRing
              ltac:(apply (bool_decide_unpack _); vm_compute; exact I))
    as (k & Hk & _ & Hm & _).
  exists k. split; [exact Hk|exact Hm].
Defined.

(** ** The shape detectors of [src/6ball.tsx] *)

Lemma getNeighbors_length_six r c :
  length (getNeighbors r c) = 6%nat ↔ 1 ≤ r ≤ TOTAL_ROWS - 2 ∧ 1 ≤ c ≤ COLS - 2.
Proof.
  rewrite getNeighbors_filter.
  assert (length ((λ o, Pos (r + o.1) (c + o.2)) <$> neighborOffsets r) = 6%nat) as Hsix.
  { rewrite length_fmap. unfold neighborOffsets. by destruct (isOddRow r). }
  rewrite <- Hsix at 1. rewrite length_filter_all.
  unfold neighborOffsets, validPos, TOTAL_ROWS, VISIBLE_ROWS, HIDDEN_ROWS, COLS.
  destruct (isOddRow r); simpl; rewrite !Forall_cons; simpl; split.
  + intros (H1 & H2 & H3 & H4 & H5 & H6 & _). lia.
  + intros H. repeat split; try lia; apply Forall_nil_2.
  + intros (H1 & H2 & H3 & H4 & H5 & H6 & _). lia.
  + intros H. repeat split; try lia; apply Forall_nil_2.
Qed.

Lemma forallb_in_set (S : gset Position) (l : list Position) :
  forallb (λ n, bool_decide (n ∈ S)) l = true ↔ ∀ n, n ∈ l → n ∈ S.
Proof.
  rewrite forallb_forall. split.
  - intros H n Hn. apply list_elem_of_In in Hn.
    by apply (bool_decide_eq_true_1 (n ∈ S)), H.
  - intros H n Hn. apply list_elem_of_In in Hn.
    by apply (bool_decide_eq_true_2 (n ∈ S)), H.
Qed.

(** X15. [hasHexagonInGroup] answers [true] exactly when the set holds
    the six neighbours of some cell that is not on the border of the
    board.  The centre cell itself need not be in the set, and the grid
    argument plays no part. *)
Theorem hasHexagonInGroup_iff (groupSet : gset Position) (grid : Grid) :
  GroupFirst.hasHexagonInGroup groupSet grid = true
  ↔ ∃ r c, 1 ≤ r ≤ TOTAL_ROWS - 2 ∧ 1 ≤ c ≤ COLS - 2
           ∧ length (getNeighbors r c) = 6%nat
           ∧ ∀ n, n ∈ getNeighbors r c → n ∈ groupSet.
Proof.
  unfold GroupFirst.hasHexagonInGroup. rewrite existsb_exists. split.
  - intros ([r c] & _ & H). cbn [pr pc] in H.
    destruct (length (getNeighbors r c) =? 6)%nat eqn:E; [|done].
    apply Nat.eqb_eq in E. cbn [negb] in H.
    pose proof (proj1 (forallb_in_set _ _) H) as Hall.
    exists r, c. pose proof (proj1 (getNeighbors_length_six r c) E) as [? ?]. done.
  - intros (r & c & Hr & Hc & Hlen & Hall). exists (Pos r c). split.
    + apply list_elem_of_In, elem_of_boardCells. unfold validPos.
      unfold TOTAL_ROWS, VISIBLE_ROWS, HIDDEN_ROWS, COLS in *. cbn [pr pc]. lia.
    + cbn [pr pc]. rewrite Hlen. cbn [Nat.eqb negb]. by apply (proj2 (forallb_in_set _ _)).
Qed.
Lemma isOddRow_succ r : isOddRow (r + 1) = negb (isOddRow r).
Proof. rewrite !isOddRow_odd, Z.odd_add. by destruct (Z.odd r). Qed.

Lemma isOddRow_pred r : isOddRow (r - 1) = negb (isOddRow r).
Proof. rewrite !isOddRow_odd, Z.odd_sub. by destruct (Z.odd r). Qed.

Lemma dedupPush_triangle (a b b' c : Position) :
  b' = b → a ≠ b → b ≠ c → a ≠ c →
  GroupFirst.dedupPush [a; b; b'; c] = [a; b; c].
Proof.
  intros -> Hab Hbc Hac. unfold GroupFirst.dedupPush. cbn [foldl].
  rewrite bool_decide_eq_false_2 by set_solver.
  rewrite bool_decide_eq_false_2 by set_solver.
  rewrite bool_decide_eq_true_2 by set_solver.
  rewrite bool_decide_eq_false_2 by set_solver.
  done.
Qed.

Lemma checkPyramidStructure_down r c (groupSet : gset Position) :
  GroupFirst.checkPyramidStructure r c groupSet GroupFirst.DOWN = true
  ↔ (∀ p, p ∈ getBottomNeighbors r c → p ∈ groupSet)
    ∧ Pos (r + 2) (c - 1) ∈ groupSet ∧ Pos (r + 2) c ∈ groupSet
    ∧ Pos (r + 2) (c + 1) ∈ groupSet.
Proof.
  unfold GroupFirst.checkPyramidStructure.
  assert (length (getBottomNeighbors r c) = 2%nat) as Hlen
    by (unfold getBottomNeighbors; by destruct (isOddRow r)).
  rewrite Hlen. cbn [Nat.eqb negb].
  destruct (forallb (λ p, bool_decide (p ∈ groupSet)) (getBottomNeighbors r c)) eqn:E2;
    cbn [negb].
  2:{ split; [done|]. intros [H _]. apply (proj2 (forallb_in_set _ _)) in H. congruence. }
  pose proof (proj1 (forallb_in_set _ _) E2) as H2.
  assert (GroupFirst.dedupPush
            (flat_map (λ p, getBottomNeighbors (pr p) (pc p)) (getBottomNeighbors r c))
          = [Pos (r + 2) (c - 1); Pos (r + 2) c; Pos (r + 2) (c + 1)]) as ->.
  { unfold getBottomNeighbors at 2. destruct (isOddRow r) eqn:Hodd;
      cbn [flat_map pr pc app]; unfold getBottomNeighbors;
      rewrite isOddRow_succ, Hodd; cbn [negb app];
      replace (r + 1 + 1) with (r + 2) by lia.
    - replace (c + 1 - 1) with c by lia.
      apply dedupPush_triangle; [done|intros [=]; lia..].
    - replace (c - 1 + 1) with c by lia.
      apply dedupPush_triangle; [done|intros [=]; lia..]. }
  cbn [length Nat.eqb negb].
  destruct (forallb _ [_; _; _]) eqn:E3; cbn [negb].
  - pose proof (proj1 (forallb_in_set _ _) E3) as H3. split; [|done]. intros _.
    split; [done|]. repeat split; apply H3; set_solver.
  - split; [done|]. intros (_ & Ha & Hb & Hc).
    assert (forallb (λ p : Position, bool_decide (p ∈ groupSet))
              [Pos (r + 2) (c - 1); Pos (r + 2) c; Pos (r + 2) (c + 1)] = true); [|congruence].
    apply (proj2 (forallb_in_set _ _)). intros n. rewrite !elem_of_cons, elem_of_nil.
    intros [->|[->|[->|[]]]]; done.
Qed.

Lemma checkPyramidStructure_up r c (groupSet : gset Position) :
  GroupFirst.checkPyramidStructure r c groupSet GroupFirst.UP = true
  ↔ (∀ p, p ∈ getTopNeighbors r c → p ∈ groupSet)
    ∧ Pos (r - 2) (c - 1) ∈ groupSet ∧ Pos (r - 2) c ∈ groupSet
    ∧ Pos (r - 2) (c + 1) ∈ groupSet.
Proof.
  unfold GroupFirst.checkPyramidStructure.
  assert (length (getTopNeighbors r c) = 2%nat) as Hlen
    by (unfold getTopNeighbors; by destruct (isOddRow r)).
  rewrite Hlen. cbn [Nat.eqb negb].
  destruct (forallb (λ p, bool_decide (p ∈ groupSet)) (getTopNeighbors r c)) eqn:E2;
    cbn [negb].
  2:{ split; [done|]. intros [H _]. apply (proj2 (forallb_in_set _ _)) in H. congruence. }
  pose proof (proj1 (forallb_in_set _ _) E2) as H2.
  assert (GroupFirst.dedupPush
            (flat_map (λ p, getTopNeighbors (pr p) (pc p)) (getTopNeighbors r c))
          = [Pos (r - 2) (c - 1); Pos (r - 2) c; Pos (r - 2) (c + 1)]) as ->.
  { unfold getTopNeighbors at 2. destruct (isOddRow r) eqn:Hodd;
      cbn [flat_map pr pc app]; unfold getTopNeighbors;
      rewrite isOddRow_pred, Hodd; cbn [negb app];
      replace (r - 1 - 1) with (r - 2) by lia.
    - replace (c + 1 - 1) with c by lia.
      apply dedupPush_triangle; [done|intros [=]; lia..].
    - replace (c - 1 + 1) with c by lia.
      apply dedupPush_triangle; [done|intros [=]; lia..]. }
  cbn [length Nat.eqb negb].
  destruct (forallb _ [_; _; _]) eqn:E3; cbn [negb].
  - pose proof (proj1 (forallb_in_set _ _) E3) as H3. split; [|done]. intros _.
    split; [done|]. repeat split; apply H3; set_solver.
  - split; [done|]. intros (_ & Ha & Hb & Hc).
    assert (forallb (λ p : Position, bool_decide (p ∈ groupSet))
              [Pos (r - 2) (c - 1); Pos (r - 2) c; Pos (r - 2) (c + 1)] = true); [|congruence].
    apply (proj2 (forallb_in_set _ _)). intros n. rewrite !elem_of_cons, elem_of_nil.
    intros [->|[->|[->|[]]]]; done.
Qed.

(** X16. [hasPyramidInGroup] answers [true] exactly when the set holds a
    triangle of six cells: a member (the apex), its two down-neighbours
    and the three cells two rows below it in columns [c - 1], [c], [c + 1],
    or the same pointing up. *)
Theorem hasPyramidInGroup_iff (groupSet : gset Position) :
  GroupFirst.hasPyramidInGroup groupSet = true
  ↔ ∃ p, p ∈ groupSet
         ∧ ((∀ q, q ∈ getBottomNeighbors (pr p) (pc p) → q ∈ groupSet)
            ∧ Pos (pr p + 2) (pc p - 1) ∈ groupSet
            ∧ Pos (pr p + 2) (pc p) ∈ groupSet
            ∧ Pos (pr p + 2) (pc p + 1) ∈ groupSet
            ∨ (∀ q, q ∈ getTopNeighbors (pr p) (pc p) → q ∈ groupSet)
              ∧ Pos (pr p - 2) (pc p - 1) ∈ groupSet
              ∧ Pos (pr p - 2) (pc p) ∈ groupSet
              ∧ Pos (pr p - 2) (pc p + 1) ∈ groupSet).
Proof.
  unfold GroupFirst.hasPyramidInGroup. rewrite existsb_exists. split.
  - intros (p & Hp & H). apply list_elem_of_In, elem_of_elements in Hp.
    exists p. split; [done|]. apply orb_true_iff in H as [H|H].
    + left. by apply checkPyramidStructure_down.
    + right. by apply checkPyramidStructure_up.
  - intros (p & Hp & H). exists p. split.
    + by apply list_elem_of_In, elem_of_elements.
    + apply orb_true_iff. destruct H as [H|H].
      * left. by apply checkPyramidStructure_down.
      * right. by apply checkPyramidStructure_up.
Qed.
Lemma countRight_six (groupSet : gset Position) r c :
  GroupFirst.countRight groupSet r c >=? 6 = true
  ↔ Pos r (c + 1) ∈ groupSet ∧ Pos r (c + 2) ∈ groupSet ∧ Pos r (c + 3) ∈ groupSet
    ∧ Pos r (c + 4) ∈ groupSet ∧ Pos r (c + 5) ∈ groupSet.
Proof.
  unfold GroupFirst.countRight. change runSteps with [1; 2; 3; 4; 5].
  cbn [foldl].
  repeat (case_bool_decide; cbn [foldl fst]); cbn; split; try done; try tauto.
Qed.
Lemma getBottomNeighbors_pick r c :
  getBottomNeighbors r c !! 1%nat = Some (Pos (r + 1) (if isOddRow r then c + 1 else c))
  ∧ getBottomNeighbors r c !! 0%nat = Some (Pos (r + 1) (if isOddRow r then c else c - 1)).
Proof. unfold getBottomNeighbors. by destruct (isOddRow r). Qed.

Ltac same_cell H :=
  repeat match type of H with
         | context [?a `div` 2] =>
             let v := eval vm_compute in (a `div` 2) in
             change (a `div` 2) with v in H
         end;
  repeat match goal with
         | |- context [?a `div` 2] =>
             let v := eval vm_compute in (a `div` 2) in change (a `div` 2) with v
         end;
  match type of H with
  | ?p ∈ ?S =>
      match goal with
      | |- ?q ∈ S =>
          let E := fresh in
          assert (p = q) as E by (apply f_equal2; lia);
          exact (eq_ind p (λ z, z ∈ S) H q E)
      end
  end.

Ltac diagonal_leaf :=
  match goal with
  | |- (?x >=? 6) = true ↔ _ =>
      let v := eval vm_compute in (x >=? 6) in change (x >=? 6) with v
  end;
  split;
  [ try done; intros _ k Hk;
    assert (k = 1 ∨ k = 2 ∨ k = 3 ∨ k = 4 ∨ k = 5) as Hcases by lia;
    destruct Hcases as [ -> | [ -> | [ -> | [ -> | -> ] ] ] ];
    match goal with H : Pos _ _ ∈ _ |- _ => same_cell H end
  | try done; intros Hall; exfalso;
    match goal with
    | H : Pos _ _ ∉ _ |- _ =>
        apply H;
        first [ let Hk := fresh in pose proof (Hall 1 ltac:(lia)) as Hk; same_cell Hk
              | let Hk := fresh in pose proof (Hall 2 ltac:(lia)) as Hk; same_cell Hk
              | let Hk := fresh in pose proof (Hall 3 ltac:(lia)) as Hk; same_cell Hk
              | let Hk := fresh in pose proof (Hall 4 ltac:(lia)) as Hk; same_cell Hk
              | let Hk := fresh in pose proof (Hall 5 ltac:(lia)) as Hk; same_cell Hk ]
    end ].

Lemma countDiagonal_six (groupSet : gset Position) r c :
  (GroupFirst.countDiagonal groupSet 1 r c >=? 6 = true
   ↔ ∀ k, 1 ≤ k ≤ 5 → Pos (r + k) (c + (k + r mod 2) / 2) ∈ groupSet)
  ∧ (GroupFirst.countDiagonal groupSet 0 r c >=? 6 = true
     ↔ ∀ k, 1 ≤ k ≤ 5 → Pos (r + k) (c - (k + 1 - r mod 2) / 2) ∈ groupSet).
Proof.
  rewrite Zmod_odd, <- isOddRow_odd.
  unfold GroupFirst.countDiagonal. change runSteps with [1; 2; 3; 4; 5].
  cbn [foldl].
  destruct (isOddRow r) eqn:Hodd; split;
    repeat (cbn [pr pc];
            match goal with
            | |- context [getBottomNeighbors ?a ?b !! ?i] =>
                lazymatch a with
                | context [bool_decide _] => fail
                | _ => first [ rewrite (proj1 (getBottomNeighbors_pick a b))
                             | rewrite (proj2 (getBottomNeighbors_pick a b)) ]
                end
            end;
            rewrite ?isOddRow_succ, ?Hodd; cbn [negb];
            match goal with
            | |- context [bool_decide (Pos ?a ?b ∈ ?S)] =>
                destruct (bool_decide_reflect (Pos a b ∈ S))
            end;
            cbn [foldl fst snd]);
    diagonal_leaf.
Qed.

(** X17. [hasStraightInGroup] answers [true] exactly when the set holds
    six cells in a line that starts at a member [p] and runs to the right
    along the row, or down to the right, or down to the left (each step
    of a diagonal goes one row down; the column moves on every other
    step, as the rows are staggered). *)
Theorem hasStraightInGroup_iff (groupSet : gset Position) :
  GroupFirst.hasStraightInGroup groupSet = true
  ↔ ∃ p, p ∈ groupSet
         ∧ ((∀ k, 1 ≤ k ≤ 5 → Pos (pr p) (pc p + k) ∈ groupSet)
            ∨ (∀ k, 1 ≤ k ≤ 5 →
                 Pos (pr p + k) (pc p + (k + pr p mod 2) / 2) ∈ groupSet)
            ∨ (∀ k, 1 ≤ k ≤ 5 →
                 Pos (pr p + k) (pc p - (k + 1 - pr p mod 2) / 2) ∈ groupSet)).
Proof.
  assert (∀ p, (∀ k, 1 ≤ k ≤ 5 → Pos (pr p) (pc p + k) ∈ groupSet)
               ↔ GroupFirst.countRight groupSet (pr p) (pc p) >=? 6 = true) as Hrow.
  { intros p. rewrite countRight_six. split.
    - intros H. repeat split; apply H; lia.
    - intros (H1 & H2 & H3 & H4 & H5) k Hk.
      assert (k = 1 ∨ k = 2 ∨ k = 3 ∨ k = 4 ∨ k = 5) as Hcases by lia.
      destruct Hcases as [ -> | [ -> | [ -> | [ -> | -> ] ] ] ]; done. }
  unfold GroupFirst.hasStraightInGroup. rewrite existsb_exists. split.
  - intros (p & Hp & H). apply list_elem_of_In, elem_of_elements in Hp.
    exists p. split; [done|].
    destruct (GroupFirst.countRight groupSet (pr p) (pc p) >=? 6) eqn:E1.
    { left. by apply Hrow. }
    destruct (GroupFirst.countDiagonal groupSet 1 (pr p) (pc p) >=? 6) eqn:E2.
    { right. left. by apply (proj1 (countDiagonal_six groupSet (pr p) (pc p))). }
    destruct (GroupFirst.countDiagonal groupSet 0 (pr p) (pc p) >=? 6) eqn:E3; [|done].
    right. right. by apply (proj2 (countDiagonal_six groupSet (pr p) (pc p))).
  - intros (p & Hp & H). exists p. split.
    { by apply list_elem_of_In, elem_of_elements. }
    destruct (GroupFirst.countRight groupSet (pr p) (pc p) >=? 6) eqn:E1; [done|].
    destruct (GroupFirst.countDiagonal groupSet 1 (pr p) (pc p) >=? 6) eqn:E2; [done|].
    destruct H as [H|[H|H]].
    + apply Hrow in H. congruence.
    + apply (proj1 (countDiagonal_six groupSet (pr p) (pc p))) in H. congruence.
    + apply (proj2 (countDiagonal_six groupSet (pr p) (pc p))) in H. by rewrite H.
Qed.

(** ** Moving down *)

(** X18. [movePiece] gives the piece up only by handing it to
    [lockPiece], and it does so only on a move with a downward component
    that is blocked three times over: straight down, and down with a
    half-cell push to the right and to the left.  The piece is locked at
    the height it had, with its balls and rotation state, at its old [x]
    or (when the sideways part of the move was free) at [x + dx]. *)
Theorem movePiece_locks_only_when_blocked g ddx ddy prev :
  (nextPiece (movePiece g ddx ddy (Some prev)) = None
   ↔ toLock (movePiece g ddx ddy (Some prev)) ≠ None)
  ∧ ∀ q, toLock (movePiece g ddx ddy (Some prev)) = Some q →
         (0 < ddy)%Q
         ∧ y q = y prev ∧ balls q = balls prev ∧ rotationState q = rotationState prev
         ∧ (x q = x prev ∨ x q = (x prev + ddx)%Q
                           ∧ checkCollision g (x prev + ddx) (y prev) (balls prev) = false)
         ∧ checkCollision g (x q) (y prev + ddy) (balls prev) = true
         ∧ checkCollision g (x q + (1 # 2)) (y prev + ddy) (balls prev) = true
         ∧ checkCollision g (x q - (1 # 2)) (y prev + ddy) (balls prev) = true.
Proof.
  unfold movePiece.
  set (nextX := if negb (Qeq_bool ddx 0)
                then if negb (checkCollision g (x prev + ddx) (y prev) (balls prev))
                     then (x prev + ddx)%Q else x prev
                else x prev).
  assert (nextX = x prev
          ∨ nextX = (x prev + ddx)%Q
            ∧ checkCollision g (x prev + ddx) (y prev) (balls prev) = false) as HX.
  { subst nextX. destruct (Qeq_bool ddx 0); cbn [negb]; [by left|].
    destruct (checkCollision g (x prev + ddx) (y prev) (balls prev)); cbn [negb];
      [by left|by right]. }
  clearbody nextX.
  destruct (Qeq_bool ddy 0); cbn [negb nextPiece toLock].
  { split; [split; [done|intros H; by destruct H]|done]. }
  destruct (checkCollision g nextX (y prev + ddy) (balls prev)) eqn:E0;
    cbn [negb nextPiece toLock].
  2:{ split; [split; [done|intros H; by destruct H]|done]. }
  destruct (Qlt_le_dec 0 ddy) as [Hpos|Hneg]; cbn [nextPiece toLock].
  2:{ split; [split; [done|intros H; by destruct H]|done]. }
  destruct (checkCollision g (nextX + (1 # 2)) (y prev + ddy) (balls prev)) eqn:E1;
    cbn [negb nextPiece toLock].
  2:{ split; [split; [done|intros H; by destruct H]|done]. }
  destruct (checkCollision g (nextX - (1 # 2)) (y prev + ddy) (balls prev)) eqn:E2;
    cbn [negb nextPiece toLock].
  2:{ split; [split; [done|intros H; by destruct H]|done]. }
  split; [done|]. intros q [= <-]. cbn [x y balls rotationState]. done.
Qed.

(** ** The match detector of [src/unnamed/part_000] *)

Lemma foldl_inv {A B} (P : A → Prop) (f : A → B → A) (l : list B) (a : A) :
  P a → (∀ s b, b ∈ l → P s → P (f s b)) → P (foldl f a l).
Proof.
  revert a. induction l as [|b l IH]; intros a Ha Hstep; [done|].
  cbn [foldl]. apply IH.
  - apply Hstep; [apply list_elem_of_here|done].
  - intros s b' Hb'. apply Hstep. by apply list_elem_of_further.
Qed.

Lemma cellHas_ball g color n :
  color ≠ EMPTY → ClassifyFirst.cellHas g color n = true → ballAt g n.
Proof.
  unfold ClassifyFirst.cellHas. intros Hne H.
  apply andb_true_iff in H as [Hv Hc].
  apply (bool_decide_eq_true_1 _) in Hc.
  split; [by apply validPos_isValidPos|]. by exists color.
Qed.

Lemma forallb_cellHas_balls g color l :
  color ≠ EMPTY → forallb (ClassifyFirst.cellHas g color) l = true →
  Forall (ballAt g) l.
Proof.
  intros Hne H. apply Forall_forall. intros n Hn.
  apply (cellHas_ball g color); [done|].
  rewrite forallb_forall in H. by apply H, list_elem_of_In.
Qed.

Lemma checkHexagon_balls g r c color L :
  color ≠ EMPTY → ballAt g (Pos r c) →
  ClassifyFirst.checkHexagon g r c color = Some L → Forall (ballAt g) L.
Proof.
  intros Hne Hctr. unfold ClassifyFirst.checkHexagon.
  destruct (length (getNeighbors r c) =? 6)%nat; cbn [negb]; [|done].
  destruct (forallb (ClassifyFirst.cellHas g color) (getNeighbors r c)) eqn:E;
    cbn [negb]; [|done].
  pose proof (forallb_cellHas_balls g color _ Hne E) as Hall.
  destruct (negb (bool_decide (getCell g r c = Some EMPTY))); intros [= <-]; [|done].
  apply Forall_app. split; [done|]. by apply Forall_cons.
Qed.

Lemma hexagonAt_balls g r c L :
  ballAt g (Pos r c) → ClassifyFirst.hexagonAt g r c = Some L → Forall (ballAt g) L.
Proof.
  intros Hctr. unfold ClassifyFirst.hexagonAt.
  destruct (length (getNeighbors r c) =? 6)%nat; [|done].
  destruct (List.filter _ _) as [|hc rest] eqn:E; [done|].
  assert (hc ≠ EMPTY) as Hne.
  { assert (In hc (hc :: rest)) as Hin by (by left).
    rewrite <- E in Hin. apply filter_In in Hin as [_ Hin].
    apply negb_true_iff in Hin. by apply Z.eqb_neq. }
  destruct (_ && _); [|done]. by apply checkHexagon_balls.
Qed.

Lemma straightArm_balls g r c color i :
  color ≠ EMPTY → Forall (ballAt g) (ClassifyFirst.straightArm g r c color i).
Proof.
  intros Hne. unfold ClassifyFirst.straightArm.
  apply (foldl_inv (λ st : list Position * bool, Forall (ballAt g) st.1)).
  { constructor. }
  intros [arm stop] k _ H. cbn [fst] in H. destruct stop; [done|].
  destruct (ClassifyFirst.cellHas _ _ _) eqn:E; cbn [fst]; [|done].
  apply Forall_app. split; [done|]. apply Forall_cons. split; [|constructor].
  by apply (cellHas_ball g color).
Qed.

Lemma checkStraight_balls g r c color L :
  color ≠ EMPTY → ballAt g (Pos r c) →
  ClassifyFirst.checkStraight g r c color = Some L → Forall (ballAt g) L.
Proof.
  intros Hne Hctr. unfold ClassifyFirst.checkStraight.
  destruct (_ || _); [done|].
  apply (foldl_inv (λ found : option (list Position),
                      found = Some L → Forall (ballAt g) L)); [done|].
  intros found i _ IH. destruct found as [L'|]; [done|].
  destruct (_ <=? _)%nat; [|done]. intros [= <-].
  apply Forall_cons. split; [done|].
  apply Forall_app. split; by apply straightArm_balls.
Qed.

Lemma row3UniqueOf_valid candidates :
  Forall validPos (ClassifyFirst.row3UniqueOf candidates).
Proof.
  unfold ClassifyFirst.row3UniqueOf.
  apply (foldl_inv (λ st : gset Position * list Position, Forall validPos st.2)).
  { constructor. }
  intros [keys uniq] p _ H. cbn [snd] in H.
  destruct (isValidPos (pr p) (pc p)) eqn:E; cbn [negb]; [|done].
  destruct (bool_decide (p ∈ keys)); [done|]. cbn [snd].
  apply Forall_app. split; [done|]. apply Forall_cons. split; [|constructor].
  by apply validPos_isValidPos.
Qed.

Lemma checkPyramidDirectional_balls g r c color dir L :
  color ≠ EMPTY → ballAt g (Pos r c) →
  ClassifyFirst.checkPyramidDirectional g r c color dir = Some L →
  Forall (ballAt g) L.
Proof.
  intros Hne Hctr. unfold ClassifyFirst.checkPyramidDirectional.
  destruct (negb (bool_decide (getCell g r c = Some color))); [done|].
  destruct (match dir with
            | ClassifyFirst.DOWN => getBottomNeighbors
            | ClassifyFirst.UP => getTopNeighbors
            end r c) as [|pos2A [|pos2B [|? ?]]]; try done.
  destruct (ClassifyFirst.cellHas g color pos2A) eqn:EA; cbn [negb]; [|done].
  destruct (ClassifyFirst.cellHas g color pos2B) eqn:EB; cbn [negb]; [|done].
  match goal with |- context [ClassifyFirst.row3UniqueOf ?cs] =>
    pose proof (row3UniqueOf_valid cs) as Hval;
    generalize dependent (ClassifyFirst.row3UniqueOf cs) end.
  intros row3 Hval.
  destruct (length row3 =? 3)%nat; cbn [negb]; [|done].
  destruct (forallb _ row3) eqn:E3; cbn [negb]; [|done].
  destruct (_ =? _)%nat; [|done]. intros [= <-].
  apply Forall_cons. split; [done|].
  apply Forall_cons. split; [by apply (cellHas_ball g color)|].
  apply Forall_cons. split; [by apply (cellHas_ball g color)|].
  { apply Forall_forall. intros q Hq. split.
    + rewrite Forall_forall in Hval. by apply Hval.
    + exists color. split; [|done].
      rewrite forallb_forall in E3.
      apply (bool_decide_eq_true_1 _), E3. by apply list_elem_of_In. }
Qed.

Lemma checkPyramid_balls g r c color L :
  color ≠ EMPTY → ballAt g (Pos r c) →
  ClassifyFirst.checkPyramid g r c color = Some L → Forall (ballAt g) L.
Proof.
  intros Hne Hctr. unfold ClassifyFirst.checkPyramid.
  destruct (ClassifyFirst.checkPyramidDirectional g r c color ClassifyFirst.DOWN)
    as [m|] eqn:E.
  - intros [= <-]. by eapply checkPyramidDirectional_balls.
  - by apply checkPyramidDirectional_balls.
Qed.

(** The shape scan marks balls only, and it has scored as soon as it has
    marked a cell. *)
Lemma shapeCell_inv g s p :
  validPos p →
  (∀ q, q ∈ ClassifyFirst.matchedPositions s →
        ballAt g q ∧ 0 < ClassifyFirst.totalPoints s)
  ∧ 0 ≤ ClassifyFirst.totalPoints s →
  (∀ q, q ∈ ClassifyFirst.matchedPositions (ClassifyFirst.shapeCell g s p) →
        ballAt g q ∧ 0 < ClassifyFirst.totalPoints (ClassifyFirst.shapeCell g s p))
  ∧ 0 ≤ ClassifyFirst.totalPoints (ClassifyFirst.shapeCell g s p).
Proof.
  intros Hp [Hm H0]. unfold ClassifyFirst.shapeCell.
  destruct (getCell g (pr p) (pc p)) as [color|] eqn:Hc; [|done].
  destruct (color =? EMPTY) eqn:Hne; [done|]. apply Z.eqb_neq in Hne.
  destruct (bool_decide (p ∈ ClassifyFirst.matchedPositions s)); [done|].
  assert (ballAt g (Pos (pr p) (pc p))) as Hball.
  { split; [by destruct p|]. by exists color. }
  assert (∀ m, (match ClassifyFirst.hexagonAt g (pr p) (pc p) with
                | Some hexagonMatch =>
                    Some (hexagonMatch, ClassifyFirst.HEXAGON_BONUS, "ヘキサゴン！"%string)
                | None => None
                end = Some m
                ∨ match ClassifyFirst.checkStraight g (pr p) (pc p) color with
                  | Some straightMatch =>
                      if (6 <=? length straightMatch)%nat
                      then Some (straightMatch, ClassifyFirst.STRAIGHT_BONUS,
                                 "ストレート！"%string)
                      else None
                  | None => None
                  end = Some m
                ∨ match ClassifyFirst.checkPyramid g (pr p) (pc p) color with
                  | Some pyramidMatch =>
                      Some (pyramidMatch, ClassifyFirst.PYRAMID_BONUS,
                            "ピラミッド！"%string)
                  | None => None
                  end = Some m) →
               Forall (ballAt g) m.1.1 ∧ 0 < m.1.2) as Hshape.
  { intros [[L bonus] name] [H|[H|H]]; cbn [fst snd].
    - destruct (ClassifyFirst.hexagonAt g (pr p) (pc p)) as [L'|] eqn:E; [|done].
      injection H as <- <- _. split; [by eapply hexagonAt_balls|done].
    - destruct (ClassifyFirst.checkStraight g (pr p) (pc p) color) as [L'|] eqn:E; [|done].
      destruct (6 <=? length L')%nat; [|done].
      injection H as <- <- _. split; [by eapply checkStraight_balls|done].
    - destruct (ClassifyFirst.checkPyramid g (pr p) (pc p) color) as [L'|] eqn:E; [|done].
      injection H as <- <- _. split; [by eapply checkPyramid_balls|done]. }
  match goal with
  | |- context [match ?m3 with Some _ => _ | None => s end] =>
      assert (∀ m, m3 = Some m → Forall (ballAt g) m.1.1 ∧ 0 < m.1.2) as H3;
      [|destruct m3 as [[[L bonus] name]|]; [|done]]
  end.
  { intros m Hm3. apply Hshape.
    destruct (match ClassifyFirst.hexagonAt g (pr p) (pc p) with
              | Some _ => _ | None => _ end) as [m1|]; [by left|].
    destruct (match ClassifyFirst.checkStraight g (pr p) (pc p) color with
              | Some _ => _ | None => _ end) as [m2|]; [right; by left|].
    right. by right. }
  destruct (H3 _ eq_refl) as [HL Hb]. cbn [fst snd] in HL, Hb.
  destruct (forallb _ L); [|done].
  cbn [ClassifyFirst.matchedPositions ClassifyFirst.totalPoints].
  unfold ClassifyFirst.BASE_MATCH_POINTS. split; [|lia].
  intros q [Hq|Hq]%elem_of_union.
  - apply elem_of_list_to_set in Hq. rewrite Forall_forall in HL.
    split; [by apply HL|lia].
  - destruct (Hm q Hq). split; [done|lia].
Qed.

Lemma ClassifyFirst_visitNeighbor_balls g color s n :
  wf_grid g → color ≠ EMPTY →
  Forall (ballAt g) (ClassifyFirst.group s) →
  Forall (ballAt g) (ClassifyFirst.group (ClassifyFirst.visitNeighbor g color s n)).
Proof.
  intros Hwf Hne H. unfold ClassifyFirst.visitNeighbor.
  destruct (bool_decide (getCell g (pr n) (pc n) = Some color)) eqn:E; cbn [andb]; [|done].
  destruct (bool_decide (n ∉ ClassifyFirst.visited s)); [|done].
  cbn [ClassifyFirst.group]. apply Forall_app. split; [done|].
  apply Forall_cons. split; [|constructor].
  apply (bool_decide_eq_true_1 _) in E. split; [|by exists color].
  pose proof (getCell_Some_valid g _ _ _ Hwf E). by destruct n.
Qed.

Lemma ClassifyFirst_bfsLoop_balls g color fuel :
  wf_grid g → color ≠ EMPTY →
  ∀ st, Forall (ballAt g) (ClassifyFirst.group st) →
        Forall (ballAt g) (ClassifyFirst.group (ClassifyFirst.bfsLoop fuel g color st)).
Proof.
  intros Hwf Hne. induction fuel as [|fuel IH]; intros st H; [done|].
  cbn [ClassifyFirst.bfsLoop]. destruct (ClassifyFirst.queue st) as [|curr rest]; [done|].
  apply IH.
  apply (foldl_inv (λ s, Forall (ballAt g) (ClassifyFirst.group s))); [done|].
  intros s n _ Hs. by apply ClassifyFirst_visitNeighbor_balls.
Qed.

(** The second scan marks balls only, in groups of six or more. *)
Lemma regularCell_inv g (M0 : gset Position) s p :
  wf_grid g → validPos p →
  (∀ q, q ∈ ClassifyFirst.rMatched s →
        ballAt g q ∧ (q ∈ M0 ∨ q ∈ ClassifyFirst.regularMatches s))
  ∧ (ClassifyFirst.regularMatches s = [] ∨ (6 ≤ length (ClassifyFirst.regularMatches s))%nat) →
  (∀ q, q ∈ ClassifyFirst.rMatched (ClassifyFirst.regularCell g s p) →
        ballAt g q
        ∧ (q ∈ M0 ∨ q ∈ ClassifyFirst.regularMatches (ClassifyFirst.regularCell g s p)))
  ∧ (ClassifyFirst.regularMatches (ClassifyFirst.regularCell g s p) = []
     ∨ (6 ≤ length (ClassifyFirst.regularMatches (ClassifyFirst.regularCell g s p)))%nat).
Proof.
  intros Hwf Hp [Hm Hlen]. unfold ClassifyFirst.regularCell.
  destruct (getCell g (pr p) (pc p)) as [color|] eqn:Hc; [|done].
  destruct (color =? EMPTY) eqn:Hne; [done|]. apply Z.eqb_neq in Hne.
  destruct (bool_decide (p ∈ ClassifyFirst.rVisited s)); cbn [orb]; [done|].
  assert (Forall (ballAt g)
            (ClassifyFirst.group
               (ClassifyFirst.bfsLoop bfsFuel g color
                  (ClassifyFirst.MkBfs [p] [p] ({[p]} ∪ ClassifyFirst.rVisited s)))))
    as Hgroup.
  { apply ClassifyFirst_bfsLoop_balls; [done..|]. cbn [ClassifyFirst.group].
    apply Forall_cons. split; [|constructor]. split; [done|]. by exists color. }
  generalize dependent (ClassifyFirst.bfsLoop bfsFuel g color
                          (ClassifyFirst.MkBfs [p] [p] ({[p]} ∪ ClassifyFirst.rVisited s))).
  intros b Hgroup.
  destruct (6 <=? length (ClassifyFirst.group b))%nat eqn:E6;
    cbn [ClassifyFirst.rMatched ClassifyFirst.regularMatches]; [|done].
  apply Nat.leb_le in E6. split.
  - intros q [Hq|Hq]%elem_of_union.
    + apply elem_of_list_to_set in Hq. rewrite Forall_forall in Hgroup.
      split; [by apply Hgroup|]. right. apply elem_of_app. by right.
    + destruct (Hm q Hq) as [Hb [H|H]]; (split; [done|]); [by left|].
      right. apply elem_of_app. by left.
  - right. rewrite length_app. lia.
Qed.

(** The pass either changes nothing and returns no points, or clears a
    non-empty set of balls and returns points. *)
Lemma ClassifyFirst_checkMatches_cases g :
  wf_grid g →
  ClassifyFirst.checkMatches g = MkMatch g 0 None
  ∨ ∃ (M : gset Position) pts label q0,
      ClassifyFirst.checkMatches g = MkMatch (clearCells g (elements M)) pts label
      ∧ 0 < pts ∧ q0 ∈ M ∧ ∀ q, q ∈ M → ballAt g q.
Proof.
  intros Hwf. unfold ClassifyFirst.checkMatches. cbv zeta.
  set (sh := foldl (ClassifyFirst.shapeCell g) (ClassifyFirst.MkShape ∅ 0 "") boardCells).
  assert ((∀ q, q ∈ ClassifyFirst.matchedPositions sh →
                ballAt g q ∧ 0 < ClassifyFirst.totalPoints sh)
          ∧ 0 ≤ ClassifyFirst.totalPoints sh) as [Hsh Hsh0].
  { subst sh.
    apply (foldl_inv (λ s, (∀ q, q ∈ ClassifyFirst.matchedPositions s →
                                 ballAt g q ∧ 0 < ClassifyFirst.totalPoints s)
                           ∧ 0 ≤ ClassifyFirst.totalPoints s)).
    - cbn [ClassifyFirst.matchedPositions ClassifyFirst.totalPoints].
      split; [|lia]. intros q Hq. by apply not_elem_of_empty in Hq.
    - intros s p Hp Hs. apply shapeCell_inv; [|done]. by apply elem_of_boardCells. }
  clearbody sh.
  set (rg := foldl (ClassifyFirst.regularCell g)
               (ClassifyFirst.MkRegular (ClassifyFirst.matchedPositions sh) []
                  (ClassifyFirst.matchedPositions sh)) boardCells).
  assert ((∀ q, q ∈ ClassifyFirst.rMatched rg →
                ballAt g q
                ∧ (q ∈ ClassifyFirst.matchedPositions sh
                   ∨ q ∈ ClassifyFirst.regularMatches rg))
          ∧ (ClassifyFirst.regularMatches rg = []
             ∨ (6 ≤ length (ClassifyFirst.regularMatches rg))%nat)) as [Hrg Hlen].
  { subst rg.
    apply (foldl_inv (λ s, (∀ q, q ∈ ClassifyFirst.rMatched s →
                                 ballAt g q
                                 ∧ (q ∈ ClassifyFirst.matchedPositions sh
                                    ∨ q ∈ ClassifyFirst.regularMatches s))
                           ∧ (ClassifyFirst.regularMatches s = []
                              ∨ (6 ≤ length (ClassifyFirst.regularMatches s))%nat))).
    - cbn [ClassifyFirst.rMatched ClassifyFirst.regularMatches].
      split; [|by left]. intros q Hq. split; [by apply Hsh|by left].
    - intros s p Hp Hs. apply regularCell_inv; [done| |done]. by apply elem_of_boardCells. }
  clearbody rg.
  destruct (0 <? Z.of_nat (size (ClassifyFirst.rMatched rg))) eqn:Esize; [|by left].
  right. apply Z.ltb_lt in Esize.
  assert (∃ q0, q0 ∈ ClassifyFirst.rMatched rg) as [q0 Hq0].
  { apply set_choose_L. intros Hempty. rewrite Hempty, size_empty in Esize. lia. }
  set (n := Z.of_nat (length (ClassifyFirst.regularMatches rg))).
  assert (0 < (if 0 <? n
               then ClassifyFirst.totalPoints sh
                    + (n * ClassifyFirst.BASE_MATCH_POINTS + (n - 6) * 50)
               else ClassifyFirst.totalPoints sh)) as Hpos.
  { unfold ClassifyFirst.BASE_MATCH_POINTS.
    assert (n = 0 ∨ 6 ≤ n) as Hn.
    { subst n. destruct Hlen as [Hnil|Hlen]; [left; by rewrite Hnil|right; lia]. }
    destruct (Hrg q0 Hq0) as [_ [Hin|Hin]].
    - destruct (Hsh q0 Hin) as [_ Hpts]. destruct (0 <? n) eqn:E; [|lia].
      apply Z.ltb_lt in E. lia.
    - assert (6 ≤ n).
      { destruct Hlen as [Hnil|Hlen]; [|subst n; lia].
        rewrite Hnil in Hin. by apply elem_of_nil in Hin. }
      destruct (0 <? n) eqn:E; [lia|]. apply Z.ltb_ge in E. lia. }
  eexists (ClassifyFirst.rMatched rg), _, _, q0.
  split; [reflexivity|]. split; [done|]. split; [done|].
  intros q Hq. by destruct (Hrg q Hq).
Qed.

Lemma ClassifyFirst_checkMatches_wf g :
  wf_grid g → wf_grid (mGrid (ClassifyFirst.checkMatches g)).
Proof.
  intros Hwf.
  destruct (ClassifyFirst_checkMatches_cases g Hwf)
    as [->|(M & pts & label & q0 & -> & _)]; [done|].
  by apply wf_clearCells.
Qed.

Lemma ClassifyFirst_checkMatches_clears g r c :
  wf_grid g →
  getCell (mGrid (ClassifyFirst.checkMatches g)) r c = getCell g r c
  ∨ getCell (mGrid (ClassifyFirst.checkMatches g)) r c = Some EMPTY
    ∧ ballAt g (Pos r c).
Proof.
  intros Hwf.
  destruct (ClassifyFirst_checkMatches_cases g Hwf)
    as [->|(M & pts & label & q0 & -> & _ & _ & HM)]; [by left|].
  cbn [mGrid].
  assert (∀ q, q ∈ elements M → validPos q) as Hval.
  { intros q Hq%elem_of_elements. by destruct (HM q Hq). }
  destruct (decide (Pos r c ∈ elements M)) as [Hin|Hout].
  - right. split.
    + by apply (getCell_clearCells_in g _ (Pos r c)).
    + apply elem_of_elements in Hin. by apply HM.
  - left. by apply (getCell_clearCells_notin g _ (Pos r c)).
Qed.

Lemma ClassifyFirst_checkMatches_scores g :
  wf_grid g →
  0 ≤ points (ClassifyFirst.checkMatches g)
  ∧ (points (ClassifyFirst.checkMatches g) = 0
     → ClassifyFirst.checkMatches g = MkMatch g 0 None)
  ∧ (0 < points (ClassifyFirst.checkMatches g)
     → mGrid (ClassifyFirst.checkMatches g) ≠ g).
Proof.
  intros Hwf.
  destruct (ClassifyFirst_checkMatches_cases g Hwf)
    as [->|(M & pts & label & q0 & -> & Hpts & Hq0 & HM)]; cbn [points mGrid].
  { split; [done|]. split; [done|lia]. }
  split; [lia|]. split; [lia|]. intros _ Hsame.
  destruct (HM q0 Hq0) as [_ (v & Hv & Hne)].
  assert (getCell (clearCells g (elements M)) (pr q0) (pc q0) = Some EMPTY) as Hcl.
  { apply getCell_clearCells_in; [done| |by apply elem_of_elements].
    intros q Hq%elem_of_elements. by destruct (HM q Hq). }
  rewrite Hsame in Hcl. congruence.
Qed.

(** X19. One pass of the classify-first [checkMatches] of
    [src/unnamed/part_000] on a 20 x 9 grid returns a 20 x 9 grid in which
    every cell holds what it held, or is EMPTY where there was a ball: the
    pass clears balls and does nothing else.  The points are never
    negative, and they are zero exactly when the grid comes back unchanged
    (no combo label is reported then). *)
Theorem ClassifyFirst_checkMatches_frame g :
  wf_grid g →
  wf_grid (mGrid (ClassifyFirst.checkMatches g))
  ∧ (∀ r c, getCell (mGrid (ClassifyFirst.checkMatches g)) r c = getCell g r c
            ∨ getCell (mGrid (ClassifyFirst.checkMatches g)) r c = Some EMPTY
              ∧ ballAt g (Pos r c))
  ∧ 0 ≤ points (ClassifyFirst.checkMatches g)
  ∧ (points (ClassifyFirst.checkMatches g) = 0
     ↔ mGrid (ClassifyFirst.checkMatches g) = g)
  ∧ (points (ClassifyFirst.checkMatches g) = 0 →
     combo (ClassifyFirst.checkMatches g) = None).
Proof.
  intros Hwf.
  destruct (ClassifyFirst_checkMatches_scores g Hwf) as (H0 & Hz & Hp).
  split; [by apply ClassifyFirst_checkMatches_wf|].
  split; [intros r c; by apply ClassifyFirst_checkMatches_clears|].
  split; [done|]. split; [split|].
  - intros H. by rewrite (Hz H).
  - intros Hsame.
    destruct (decide (points (ClassifyFirst.checkMatches g) = 0)) as [|Hne]; [done|].
    exfalso. apply Hp; [lia|done].
  - intros H. by rewrite (Hz H).
Qed.

Lemma ClassifyFirst_checkMatches_frame_witness :
  0 ≤ points (ClassifyFirst.checkMatches centredRing).
Proof.
  apply (ClassifyFirst_checkMatches_frame centredRing).
  apply (bool_decide_unpack _). vm_compute. exact I.
Defined.

Lemma straightArm_line g r c color i :
  ∃ n, 0 ≤ n ≤ 5
       ∧ ClassifyFirst.straightArm g r c color i
         = (λ k, Pos (r + (ClassifyFirst.getDirectionVector r i).1 * k)
                     (c + (ClassifyFirst.getDirectionVector r i).2 * k)) <$> seqZ 1 n.
Proof.
  unfold ClassifyFirst.straightArm. change runSteps with [1; 2; 3; 4; 5].
  generalize (ClassifyFirst.getDirectionVector r i). intros d.
  cbn [foldl].
  destruct (ClassifyFirst.cellHas g color (Pos (r + d.1 * 1) (c + d.2 * 1)));
    [|exists 0; split; [lia|reflexivity]].
  cbn [foldl app].
  destruct (ClassifyFirst.cellHas g color (Pos (r + d.1 * 2) (c + d.2 * 2)));
    [|exists 1; split; [lia|reflexivity]].
  cbn [foldl app].
  destruct (ClassifyFirst.cellHas g color (Pos (r + d.1 * 3) (c + d.2 * 3)));
    [|exists 2; split; [lia|reflexivity]].
  cbn [foldl app].
  destruct (ClassifyFirst.cellHas g color (Pos (r + d.1 * 4) (c + d.2 * 4)));
    [|exists 3; split; [lia|reflexivity]].
  cbn [foldl app].
  destruct (ClassifyFirst.cellHas g color (Pos (r + d.1 * 5) (c + d.2 * 5)));
    [|exists 4; split; [lia|reflexivity]].
  exists 5. split; [lia|reflexivity].
Qed.

(** X20. In [checkStraight] of [src/unnamed/part_000] each arm is a run
    of cells at the multiples 1, 2, ... (at most 5) of one direction
    vector, which is chosen by the parity of the start row and not
    adjusted from row to row.  The first cell of an arm, when on the
    board, touches the start cell; but along the two directions that
    change both the row and the column the second cell does not touch the
    first, so such a "straight" is not a chain of touching cells. *)
Theorem ClassifyFirst_straight_arm_line g r c color i :
  (i < 6)%nat →
  (∃ n, 0 ≤ n ≤ 5
        ∧ ClassifyFirst.straightArm g r c color i
          = (λ k, Pos (r + (ClassifyFirst.getDirectionVector r i).1 * k)
                      (c + (ClassifyFirst.getDirectionVector r i).2 * k)) <$> seqZ 1 n)
  ∧ (validPos (Pos (r + (ClassifyFirst.getDirectionVector r i).1 * 1)
                   (c + (ClassifyFirst.getDirectionVector r i).2 * 1)) →
     Pos (r + (ClassifyFirst.getDirectionVector r i).1 * 1)
         (c + (ClassifyFirst.getDirectionVector r i).2 * 1) ∈ getNeighbors r c)
  ∧ ((ClassifyFirst.getDirectionVector r i).1 ≠ 0 →
     (ClassifyFirst.getDirectionVector r i).2 ≠ 0 →
     Pos (r + (ClassifyFirst.getDirectionVector r i).1 * 2)
         (c + (ClassifyFirst.getDirectionVector r i).2 * 2)
     ∉ getNeighbors (r + (ClassifyFirst.getDirectionVector r i).1 * 1)
                    (c + (ClassifyFirst.getDirectionVector r i).2 * 1)).
Proof.
  intros Hi. split; [apply straightArm_line|].
  assert (Z.odd (r + 1) = negb (Z.odd r)) as Hs
    by (rewrite Z.odd_add; by destruct (Z.odd r)).
  assert (Z.odd (r - 1) = negb (Z.odd r)) as Hp
    by (rewrite Z.odd_sub; by destruct (Z.odd r)).
  unfold ClassifyFirst.getDirectionVector. rewrite isOddRow_odd.
  destruct i as [|[|[|[|[|[|i]]]]]]; [..|lia];
    destruct (Z.odd r) eqn:Hodd; cbn [lookup list_lookup default from_option id fst snd];
    rewrite !elem_of_getNeighbors; cbn [pr pc];
    replace (r + -1 * 1) with (r - 1) by lia;
    replace (r + 1 * 1) with (r + 1) by lia;
    replace (r + 0 * 1) with r by lia;
    rewrite ?Hs, ?Hp, ?Hodd; cbn [negb];
    (split; [intros Hv; split; [done|lia] | intros H1 H2 [_ H]; lia]).
Qed.

Lemma ClassifyFirst_straight_arm_line_witness :
  Pos (3 + (ClassifyFirst.getDirectionVector 3 3).1 * 2)
      (4 + (ClassifyFirst.getDirectionVector 3 3).2 * 2)
  ∉ getNeighbors (3 + (ClassifyFirst.getDirectionVector 3 3).1 * 1)
                 (4 + (ClassifyFirst.getDirectionVector 3 3).2 * 1).
Proof.
  destruct (ClassifyFirst_straight_arm_line emptyGrid 3 4 0 3 ltac:(lia))
    as (_ & _ & H).
  apply H; vm_compute; discriminate.
Defined.

(** ** The SETTLING phase ends *)









Section Settling.

Variable checkMatches : Grid → MatchResult.

Hypothesis checkMatches_wf : ∀ g, wf_grid g → wf_grid (mGrid (checkMatches g)).

Hypothesis checkMatches_clears : ∀ g r c,
  wf_grid g →
  getCell (mGrid (checkMatches g)) r c = getCell g r c
  ∨ getCell (mGrid (checkMatches g)) r c = Some EMPTY.

Hypothesis checkMatches_scores : ∀ g,
  wf_grid g → 0 < points (checkMatches g) → mGrid (checkMatches g) ≠ g.


Variable rand : nat → Q.
Variable deltaTime : Q.
Hypothesis deltaTime_pos : (0 < deltaTime)%Q.







End Settling.







(** ** Shape priority *)

Lemma eligibleGroups_NoDup g : wf_grid g → NoDup (concat (eligibleGroups g)).
Proof.
  intros Hwf. destruct (foundGroups_spec g Hwf) as (_ & Hnd & _).
  unfold eligibleGroups. revert Hnd. generalize (foundGroups g).
  intros Gs. induction Gs as [|G Gs IH]; [done|].
  cbn [concat]. rewrite NoDup_app. intros (HG & Hdis & Hrest).
  rewrite filter_cons. case_decide; [|by apply IH].
  cbn [concat]. apply NoDup_app. split; [done|]. split; [|by apply IH].
  intros q Hq Hq'. apply (Hdis q Hq).
  apply elem_of_concat in Hq' as (G2 & HG2 & Hq2).
  apply elem_of_concat. exists G2. split; [|done].
  by apply list_elem_of_filter in HG2 as [_ ?].
Qed.

(** The list of a hexagon found at a scanned ball: the ring and the ball. *)
Lemma hexagonAt_length g r c color L :
  getCell g r c = Some color → color ≠ EMPTY →
  ClassifyFirst.hexagonAt g r c = Some L →
  L = getNeighbors r c ++ [Pos r c] ∧ length L = 7%nat.
Proof.
  intros Hc Hne. unfold ClassifyFirst.hexagonAt.
  destruct (length (getNeighbors r c) =? 6)%nat eqn:E6; [|done].
  apply Nat.eqb_eq in E6.
  destruct (List.filter _ _) as [|hc rest]; [done|].
  destruct (_ && _); [|done].
  unfold ClassifyFirst.checkHexagon. rewrite E6. cbn [Nat.eqb negb].
  destruct (forallb _ _); cbn [negb]; [|done].
  rewrite Hc. rewrite bool_decide_eq_false_2 by congruence. cbn [negb].
  intros [= <-]. split; [done|]. rewrite length_app, E6. done.
Qed.

Lemma straightArm_length g r c color i :
  (length (ClassifyFirst.straightArm g r c color i) ≤ 5)%nat.
Proof.
  destruct (straightArm_line g r c color i) as (n & Hn & ->).
  rewrite length_fmap, length_seqZ. lia.
Qed.

(** The list of a straight: the start cell and two arms of up to five. *)
Lemma checkStraight_length g r c color L :
  ClassifyFirst.checkStraight g r c color = Some L →
  (6 ≤ length L ≤ 11)%nat
  ∧ ∃ i, (i < 3)%nat
         ∧ L = Pos r c :: ClassifyFirst.straightArm g r c color i
                 ++ ClassifyFirst.straightArm g r c color (i + 3).
Proof.
  unfold ClassifyFirst.checkStraight. destruct (_ || _); [done|].
  cbn [foldl app].
  pose proof (straightArm_length g r c color 0).
  pose proof (straightArm_length g r c color 1).
  pose proof (straightArm_length g r c color 2).
  pose proof (straightArm_length g r c color 3).
  pose proof (straightArm_length g r c color 4).
  pose proof (straightArm_length g r c color 5).
  destruct (6 <=? length (ClassifyFirst.straightArm g r c color 0)
                  + length (ClassifyFirst.straightArm g r c color (0 + 3)) + 1)%nat eqn:E0.
  { apply Nat.leb_le in E0. intros [= <-]. cbn [length Nat.add] in *.
    rewrite length_app. split; [lia|]. exists 0%nat. split; [lia|done]. }
  destruct (6 <=? length (ClassifyFirst.straightArm g r c color 1)
                  + length (ClassifyFirst.straightArm g r c color (1 + 3)) + 1)%nat eqn:E1.
  { apply Nat.leb_le in E1. intros [= <-]. cbn [length Nat.add] in *.
    rewrite length_app. split; [lia|]. exists 1%nat. split; [lia|done]. }
  destruct (6 <=? length (ClassifyFirst.straightArm g r c color 2)
                  + length (ClassifyFirst.straightArm g r c color (2 + 3)) + 1)%nat eqn:E2;
    [|done].
  apply Nat.leb_le in E2. intros [= <-]. cbn [length Nat.add] in *.
  rewrite length_app. split; [lia|]. exists 2%nat. split; [lia|done].
Qed.

Lemma checkPyramid_length g r c color L :
  ClassifyFirst.checkPyramid g r c color = Some L → length L = 6%nat.
Proof.
  assert (∀ dir, ClassifyFirst.checkPyramidDirectional g r c color dir = Some L →
                 length L = 6%nat) as Hdir.
  { intros dir. unfold ClassifyFirst.checkPyramidDirectional.
    repeat case_match; try done; intros [= <-]; by apply Nat.eqb_eq. }
  unfold ClassifyFirst.checkPyramid.
  destruct (ClassifyFirst.checkPyramidDirectional g r c color ClassifyFirst.DOWN)
    as [m|] eqn:E.
  - intros [= <-]. by apply (Hdir ClassifyFirst.DOWN).
  - apply Hdir.
Qed.

(** What the shape scan of [src/unnamed/part_000] does at a scanned ball
    that is not matched yet, given the first shape found there. *)
Lemma shapeCell_found g s p color L bonus name :
  getCell g (pr p) (pc p) = Some color → color ≠ EMPTY →
  p ∉ ClassifyFirst.matchedPositions s →
  ClassifyFirst.hexagonAt g (pr p) (pc p) = Some L
    ∧ bonus = 1000 ∧ name = "ヘキサゴン！"%string
  ∨ ClassifyFirst.hexagonAt g (pr p) (pc p) = None
    ∧ ClassifyFirst.checkStraight g (pr p) (pc p) color = Some L
    ∧ bonus = 500 ∧ name = "ストレート！"%string
  ∨ ClassifyFirst.hexagonAt g (pr p) (pc p) = None
    ∧ ClassifyFirst.checkStraight g (pr p) (pc p) color = None
    ∧ ClassifyFirst.checkPyramid g (pr p) (pc p) color = Some L
    ∧ bonus = 800 ∧ name = "ピラミッド！"%string →
  ClassifyFirst.shapeCell g s p
  = if forallb (λ q, negb (bool_decide (q ∈ ClassifyFirst.matchedPositions s))) L
    then ClassifyFirst.MkShape (list_to_set L ∪ ClassifyFirst.matchedPositions s)
           (ClassifyFirst.totalPoints s + (Z.of_nat (length L) * 100 + bonus)) name
    else s.
Proof.
  intros Hc Hne Hp Hfound. unfold ClassifyFirst.shapeCell. rewrite Hc.
  assert (color =? EMPTY = false) as -> by (by apply Z.eqb_neq).
  rewrite bool_decide_eq_false_2 by done.
  destruct Hfound as [(Hh & -> & ->)|[(Hh & Hs & -> & ->)|(Hh & Hs & Hpy & -> & ->)]].
  - by rewrite Hh.
  - rewrite Hh, Hs.
    destruct (checkStraight_length g _ _ _ _ Hs) as [[Hlen _] _].
    apply Nat.leb_le in Hlen. by rewrite Hlen.
  - by rewrite Hh, Hs, Hpy.
Qed.

Lemma shapeCell_nothing g s p color :
  getCell g (pr p) (pc p) = Some color →
  ClassifyFirst.hexagonAt g (pr p) (pc p) = None →
  ClassifyFirst.checkStraight g (pr p) (pc p) color = None →
  ClassifyFirst.checkPyramid g (pr p) (pc p) color = None →
  ClassifyFirst.shapeCell g s p = s.
Proof.
  intros Hc Hh Hs Hpy. unfold ClassifyFirst.shapeCell. rewrite Hc, Hh, Hs, Hpy.
  by repeat case_match.
Qed.

Lemma forallb_unmatched (M : gset Position) (L : list Position) :
  forallb (λ q, negb (bool_decide (q ∈ M))) L = true ↔ ∀ q, q ∈ L → q ∉ M.
Proof.
  rewrite forallb_forall. split.
  - intros H q Hq. apply list_elem_of_In in Hq. specialize (H q Hq).
    apply negb_true_iff in H. by apply (bool_decide_eq_false_1 (q ∈ M)).
  - intros H q Hq. apply list_elem_of_In in Hq. apply negb_true_iff.
    by apply (bool_decide_eq_false_2 (q ∈ M)), H.
Qed.

(** C1, amended.  In the group-first detector of [src/6ball.tsx] the
    eligible groups are the maximal connected groups of six or more balls
    of one colour, each met once.  Each of them is classified by the chain
    hexagon, then pyramid, then straight, then plain, and is awarded the
    bonus of the first shape that applies and no other: a group that is
    both a hexagon and a straight gets 1000.  The points of a pass are the
    base points of the eligible groups plus these awards, and on a board
    with one eligible group the label shown is that of the group's shape.
    This holds on every 20 x 9 grid, settled or not.

    The detector of [src/unnamed/part_000] does not classify groups.  At
    each scanned ball that is not matched yet it tests hexagon, then
    straight, then pyramid, and takes the list of cells returned for the
    first shape found: the ring and the scanned ball for a hexagon (seven
    cells), the scanned ball and two arms of up to five cells for a
    straight (six to eleven cells), six cells for a pyramid.  If no cell
    of the list is matched already, it adds 100 points per cell of the
    list plus the bonus of that shape (1000, 500, 800) and marks the
    cells; otherwise, and when no shape is found, it changes nothing. *)
Theorem GroupFirst_shape_priority g :
  wf_grid g →
  (∀ G, (isHexagon G = true →
         GroupFirst.classify (list_to_set G) g = (1000, "ヘキサゴン！"%string, 3))
      ∧ (isHexagon G = false → isPyramid G = true →
         GroupFirst.classify (list_to_set G) g = (800, "ピラミッド！"%string, 2))
      ∧ (isHexagon G = false → isPyramid G = false → isStraight G = true →
         GroupFirst.classify (list_to_set G) g = (500, "ストレート！"%string, 1))
      ∧ (isHexagon G = false → isPyramid G = false → isStraight G = false →
         GroupFirst.classify (list_to_set G) g = (0, "マッチ！"%string, 0))
      ∧ (isHexagon G = true → isStraight G = true →
         (GroupFirst.classify (list_to_set G) g).1.1 = 1000))
  ∧ points (GroupFirst.checkMatches g)
    = sumZ ((λ G, Z.of_nat (length G) * 100 + (Z.of_nat (length G) - 6) * 50
                  + (GroupFirst.classify (list_to_set G) g).1.1)
              <$> eligibleGroups g)
  ∧ (∀ G, eligibleGroups g = [G] →
          combo (GroupFirst.checkMatches g)
          = Some (GroupFirst.classify (list_to_set G) g).1.2)
  ∧ Forall (λ G, isGroup g G ∧ (6 ≤ length G)%nat) (eligibleGroups g)
  ∧ NoDup (concat (eligibleGroups g))
  ∧ (∀ G', isGroup g G' → (6 ≤ length G')%nat →
           ∃ G, G ∈ eligibleGroups g ∧ ∀ q, q ∈ G ↔ q ∈ G')
  ∧ (∀ s p color L bonus name,
       getCell g (pr p) (pc p) = Some color → color ≠ EMPTY →
       p ∉ ClassifyFirst.matchedPositions s →
       ClassifyFirst.hexagonAt g (pr p) (pc p) = Some L
         ∧ bonus = 1000 ∧ name = "ヘキサゴン！"%string
       ∨ ClassifyFirst.hexagonAt g (pr p) (pc p) = None
         ∧ ClassifyFirst.checkStraight g (pr p) (pc p) color = Some L
         ∧ bonus = 500 ∧ name = "ストレート！"%string
       ∨ ClassifyFirst.hexagonAt g (pr p) (pc p) = None
         ∧ ClassifyFirst.checkStraight g (pr p) (pc p) color = None
         ∧ ClassifyFirst.checkPyramid g (pr p) (pc p) color = Some L
         ∧ bonus = 800 ∧ name = "ピラミッド！"%string →
       ((∀ q, q ∈ L → q ∉ ClassifyFirst.matchedPositions s) →
        ClassifyFirst.shapeCell g s p
        = ClassifyFirst.MkShape (list_to_set L ∪ ClassifyFirst.matchedPositions s)
            (ClassifyFirst.totalPoints s + (Z.of_nat (length L) * 100 + bonus)) name)
       ∧ ((∃ q, q ∈ L ∧ q ∈ ClassifyFirst.matchedPositions s) →
          ClassifyFirst.shapeCell g s p = s))
  ∧ (∀ s p color,
       getCell g (pr p) (pc p) = Some color →
       ClassifyFirst.hexagonAt g (pr p) (pc p) = None →
       ClassifyFirst.checkStraight g (pr p) (pc p) color = None →
       ClassifyFirst.checkPyramid g (pr p) (pc p) color = None →
       ClassifyFirst.shapeCell g s p = s)
  ∧ (∀ r c color L,
       (getCell g r c = Some color → color ≠ EMPTY →
        ClassifyFirst.hexagonAt g r c = Some L →
        L = getNeighbors r c ++ [Pos r c] ∧ length L = 7%nat)
       ∧ (ClassifyFirst.checkStraight g r c color = Some L →
          (6 ≤ length L ≤ 11)%nat
          ∧ ∃ i, (i < 3)%nat
                 ∧ L = Pos r c :: ClassifyFirst.straightArm g r c color i
                         ++ ClassifyFirst.straightArm g r c color (i + 3))
       ∧ (ClassifyFirst.checkPyramid g r c color = Some L → length L = 6%nat)).
Proof.
  intros Hwf. split; [|split; [|split; [|split; [|split; [|split; [|split; [|split]]]]]]].
  - intros G. rewrite classify_cases.
    repeat split; intros; repeat match goal with H : _ = _ |- _ => rewrite H end; done.
  - by destruct (checkMatches_eq g Hwf) as (_ & -> & _).
  - intros G HG. destruct (checkMatches_eq g Hwf) as (_ & _ & ->).
    rewrite HG. cbn [foldl]. unfold comboStep. rewrite classify_cases.
    by destruct (isHexagon G), (isPyramid G), (isStraight G).
  - apply Forall_forall. intros G HG.
    destruct (eligibleGroups_spec g G Hwf HG) as (H1 & H2 & _). done.
  - by apply eligibleGroups_NoDup.
  - intros G'. by apply eligibleGroups_complete.
  - intros s p color L bonus name Hc Hne Hp Hfound.
    rewrite (shapeCell_found g s p color L bonus name Hc Hne Hp Hfound). split.
    + intros Hnew. apply forallb_unmatched in Hnew. by rewrite Hnew.
    + intros (q & Hq & Hin).
      destruct (forallb _ L) eqn:E; [|done]. exfalso.
      by apply (proj1 (forallb_unmatched _ _) E q Hq).
  - intros s p color. apply shapeCell_nothing.
  - intros r c color L. split; [|split].
    + apply hexagonAt_length.
    + apply checkStraight_length.
    + apply checkPyramid_length.
Qed.

Lemma GroupFirst_shape_priority_witness :
  points (GroupFirst.checkMatches straightOverPyramid) = 2150
  ∧ combo (GroupFirst.checkMatches straightOverPyramid) = Some "ピラミッド！"%string.
Proof.
  assert (wf_grid straightOverPyramid) as Hwf
    by (apply (bool_decide_unpack _); vm_compute; exact I).
  destruct (GroupFirst_shape_priority straightOverPyramid Hwf)
    as (_ & Hpts & Hcombo & _).
  split.
  - rewrite Hpts. vm_compute. reflexivity.
  - rewrite (Hcombo [Pos 17 1; Pos 17 2; Pos 18 1; Pos 18 2; Pos 17 3; Pos 19 0;
                     Pos 19 1; Pos 19 2; Pos 17 4; Pos 17 5; Pos 17 6]).
    + vm_compute. reflexivity.
    + vm_compute. reflexivity.
Defined.

(** C1 as stated fails for the classify-first detector of
    [src/unnamed/part_000], which tests straight before pyramid at each
    scanned cell: the settled board [straightOverPyramid] has one eligible
    group, of eleven balls, holding a pyramid and a straight and no
    hexagon; the pass awards the straight (6 × 100 + 500 points, label
    "straight") and not the pyramid. *)
Lemma ClassifyFirst_priority_counterexample :
  wf_grid straightOverPyramid ∧ isSettled straightOverPyramid = true
  ∧ (λ G, (length G, isHexagon G, isPyramid G, isStraight G))
      <$> eligibleGroups straightOverPyramid = [(11%nat, false, true, true)]
  ∧ points (ClassifyFirst.checkMatches straightOverPyramid) = 6 * 100 + 500
  ∧ combo (ClassifyFirst.checkMatches straightOverPyramid) = Some "ストレート！"%string.
Proof.
  split; [apply (bool_decide_unpack _); vm_compute; exact I|].
  repeat split; vm_compute; reflexivity.
Qed.
